(** * Stonehenge: the board model and the two minimax evaluators

    A shallow embedding of [stonehenge.py] and [strategy.py].  Python
    values are modelled as follows.

    - [str] is [string]; a cell is the one-character label it was created
      with until a player claims it, when the label is overwritten by the
      player's tag ['1'] or ['2'].
    - A ley-line is the two-element list [[tag, cells]]: a record.
    - A [Dict[int, list]] whose keys are [0 .. n], inserted in that order, is
      the list of its values: the key is the position.
    - The board dictionary with the keys ['rows'], ['left'] and ['right'],
      inserted in that order, is a record of the three collections.
    - [int] is [Z]; the true division [a / 2] is a rational of [Q]. *)

From Stdlib Require Import ZArith QArith Lia.
From stdpp Require Import base list strings.

Close Scope Q_scope.
Open Scope string_scope.
Open Scope list_scope.
Open Scope Z_scope.

(** ** Data *)

Record ley_line := LeyLine { tag : string; cells : list string }.

Record board := Board {
  rows : list ley_line;
  left : list ley_line;
  right : list ley_line }.

(** [side] stands for the attribute [length]. *)
Record StonehengeState := State {
  p1_turn : bool;
  cur_board : board;
  p1_score : Z;
  p2_score : Z;
  side : Z }.

Record StonehengeGame := Game {
  game_side : Z;
  game_rows : list ley_line;
  down_left : list ley_line;
  down_right : list ley_line;
  current_state : StonehengeState }.

(** ** Dictionaries keyed by [0 .. n] *)

(** [d[k]]: [None] stands for [KeyError]. *)
Definition lookup_key {A} (k : Z) (d : list A) : option A :=
  if k <? 0 then None else d !! Z.to_nat k.

(** [d[k][1].append(c)]. *)
Definition append_cell (k : Z) (c : string) (d : list ley_line)
  : option (list ley_line) :=
  match lookup_key k d with
  | Some l => Some (<[Z.to_nat k := LeyLine (tag l) (cells l ++ [c])]> d)
  | None => None
  end.

(** ** [StonehengeGame.__init__] *)

Definition letters : string := "ABCDEFGHIJKLMNOPQRSTUVWXYZ".

(** The loop [for _m in range(num_cells)]; [None] is the [IndexError] of
    [letters[index_letter]]. *)
Fixpoint take_letters (num_cells index_letter : nat) (cs : list string)
  : option (list string * nat) :=
  match num_cells with
  | O => Some (cs, index_letter)
  | S k =>
      match String.get index_letter letters with
      | Some ch =>
          take_letters k (S index_letter) (cs ++ [String ch EmptyString])
      | None => None
      end
  end.

(** The first loop [for i in range(self.length + 1)], [n] iterations left. *)
Fixpoint build_rows (n : nat) (len : Z) (rs : list ley_line)
    (index_letter : nat) (num_cells : Z) : option (list ley_line) :=
  match n with
  | O => Some rs
  | S k =>
      match take_letters (Z.to_nat num_cells) index_letter [] with
      | Some (cs, index_letter') =>
          build_rows k len (rs ++ [LeyLine "n" cs]) index_letter'
            (if len <? num_cells then num_cells - 1 else num_cells + 1)
      | None => None
      end
  end.

(** The inner loop [for l in range(self.length)] of the two diagonal loops:
    [pick] reads the cell of a row that lies on diagonal [i]. *)
Fixpoint diagonal_cells (pick : list string -> option string)
    (rs : list ley_line) (ls : list nat) (i : nat) (cs : list string)
  : option (list string) :=
  match ls with
  | [] => Some cs
  | l :: ls' =>
      match rs !! l with
      | Some r =>
          if (i <? length (cells r))%nat then
            match pick (cells r) with
            | Some c => diagonal_cells pick rs ls' i (cs ++ [c])
            | None => None
            end
          else diagonal_cells pick rs ls' i cs
      | None => None
      end
  end.

(** The loops [for i in range(self.length + 1)] that create the diagonals. *)
Fixpoint build_diagonals (pick : nat -> list string -> option string)
    (rs : list ley_line) (len : nat) (idxs : list nat) (d : list ley_line)
  : option (list ley_line) :=
  match idxs with
  | [] => Some d
  | i :: idxs' =>
      match diagonal_cells (pick i) rs (seq 0 len) i [] with
      | Some cs => build_diagonals pick rs len idxs' (d ++ [LeyLine "n" cs])
      | None => None
      end
  end.

(** [rows[l][1][i]] *)
Definition pick_left (i : nat) (cs : list string) : option string := cs !! i.

(** [rows[l][1][-1 - i]], guarded in the source by
    [-1 - i >= -len(rows[l][1])]. *)
Definition pick_right (i : nat) (cs : list string) : option string :=
  cs !! (length cs - 1 - i)%nat.

(** The loops [for c in self.rows[self.length][1]] that hang the cells of
    the last row on the diagonals, [index] moving by [delta]. *)
Fixpoint hang_last_row (cs : list string) (index delta : Z)
    (d : list ley_line) : option (list ley_line) :=
  match cs with
  | [] => Some d
  | c :: cs' =>
      match append_cell index c d with
      | Some d' => hang_last_row cs' (index + delta) delta d'
      | None => None
      end
  end.

(** [StonehengeState.__init__]: the scores are read from a two-element
    list. *)
Definition new_state (is_p1_turn : bool) (b : board) (scores : Z * Z)
    (len : Z) : StonehengeState :=
  State is_p1_turn b (fst scores) (snd scores) len.

(** [StonehengeGame.__init__] on the side length read from the input;
    [None] stands for the exception that ends the constructor. *)
Definition new_game (len : Z) (is_p1_turn : bool) : option StonehengeGame :=
  let n := Z.to_nat (len + 1) in
  match build_rows n len [] 0 2 with
  | None => None
  | Some rs =>
      match build_diagonals pick_left rs (Z.to_nat len) (seq 0 n) [],
            lookup_key len rs with
      | Some dl, Some last =>
          match hang_last_row (cells last) 1 1 dl,
                build_diagonals pick_right rs (Z.to_nat len) (seq 0 n) [] with
          | Some dl', Some dr =>
              match hang_last_row (cells last) len (-1) dr with
              | Some dr' =>
                  Some (Game len rs dl' dr'
                          (new_state is_p1_turn (Board rs dl' dr') (0, 0) len))
              | None => None
              end
          | _, _ => None
          end
      | _, _ => None
      end
  end.

(** ** Scores against the threshold *)

(** [3 * (self.length + 1) / 2] *)
Definition half_ley_lines (len : Z) : Q := (3 * (len + 1)) # 2.

(** [score >= half_ley_lines] *)
Definition reaches (score : Z) (len : Z) : bool :=
  Qle_bool (half_ley_lines len) (inject_Z score).

(** [StonehengeGame.is_over] *)
Definition is_over (g : StonehengeGame) (s : StonehengeState) : bool :=
  reaches (p1_score s) (game_side g) || reaches (p2_score s) (game_side g).

(** ** [StonehengeState] *)

Definition unclaimed (c : string) : bool :=
  negb (String.eqb c "1") && negb (String.eqb c "2").

(** The cells the two nested loops of [get_possible_moves] collect. *)
Definition free_cells (rs : list ley_line) : list string :=
  concat (map (fun r => filter (fun c => unclaimed c = true) (cells r)) rs).

Definition get_possible_moves (s : StonehengeState) : list string :=
  if reaches (p1_score s) (side s) || reaches (p2_score s) (side s)
  then []
  else free_cells (rows (cur_board s)).

(** [states[1].count(cur_player)] *)
Definition count (p : string) (cs : list string) : Z :=
  Z.of_nat (length (filter (fun c => c = p) cs)).

(** [states[1].count(cur_player) >= len(states[1]) / 2] *)
Definition holds_half (p : string) (cs : list string) : bool :=
  Qle_bool (Z.of_nat (length cs) # 2) (inject_Z (count p cs)).

(** One iteration of the loop of [move_to_board], at index [cell]. *)
Definition move_to_board_step (move cur_player : string)
    (acc : (Z * Z) * ley_line) (cell : nat) : (Z * Z) * ley_line :=
  let '(scores, states) := acc in
  match cells states !! cell with
  | Some c =>
      if String.eqb c move then
        let cs := <[cell := cur_player]> (cells states) in
        if String.eqb (tag states) "n" && holds_half cur_player cs
           && String.eqb cur_player "2"
        then ((fst scores, snd scores + 1), LeyLine "2" cs)
        else if String.eqb (tag states) "n" && holds_half cur_player cs
        then ((fst scores + 1, snd scores), LeyLine "1" cs)
        else (scores, LeyLine (tag states) cs)
      else acc
  | None => acc
  end.

(** [move_to_board]: the score list and the ley-line it mutates are
    returned. *)
Definition move_to_board (player_scores : Z * Z) (cur_states : ley_line)
    (move cur_player : string) : (Z * Z) * ley_line :=
  fold_left (move_to_board_step move cur_player)
    (seq 0 (length (cells cur_states))) (player_scores, cur_states).

(** The loop [for line in board[lines]] of [make_move] over one of the three
    collections. *)
Fixpoint move_to_lines (scores : Z * Z) (ls : list ley_line)
    (move cur_player : string) : (Z * Z) * list ley_line :=
  match ls with
  | [] => (scores, [])
  | l :: ls' =>
      let '(scores1, l') := move_to_board scores l move cur_player in
      let '(scores2, ls'') := move_to_lines scores1 ls' move cur_player in
      (scores2, l' :: ls'')
  end.

Definition make_move (s : StonehengeState) (move : string)
  : StonehengeState :=
  let b := cur_board s in
  let cur_player := if p1_turn s then "1" else "2" in
  let scores := (p1_score s, p2_score s) in
  let '(scores, rs) := move_to_lines scores (rows b) move cur_player in
  let '(scores, dl) := move_to_lines scores (left b) move cur_player in
  let '(scores, dr) := move_to_lines scores (right b) move cur_player in
  new_state (String.eqb cur_player "2") (Board rs dl dr) scores (side s).

(** Modelled from the spec: the constants [WIN], [LOSE] and [DRAW] of the
    base class [GameState], which is not part of the sources; the spec gives
    them as +1, -1 and 0. *)
Definition WIN : Z := 1.
Definition LOSE : Z := -1.
Definition DRAW : Z := 0.

(** Modelled from the spec: [GameState.get_current_player_name] of the
    missing base class names the player whose turn it is. *)
Definition get_current_player_name (s : StonehengeState) : string :=
  if p1_turn s then "p1" else "p2".

(** [score < half_ley_lines] *)
Definition below (score : Z) (len : Z) : bool :=
  negb (Qle_bool (half_ley_lines len) (inject_Z score)).

(** The loop [for move in self.get_possible_moves()] of [rough_outcome] and
    the two returns that follow it. *)
Fixpoint rough_outcome_loop (s : StonehengeState) (moves : list string)
    (other_win : bool) : Z :=
  match moves with
  | [] => if other_win then LOSE else DRAW
  | move :: moves' =>
      let state := make_move s move in
      if reaches (p1_score state) (side s) || reaches (p2_score state) (side s)
      then WIN
      else if forallb
                (fun x => below (p1_score (make_move state x)) (side s)
                          && below (p2_score (make_move state x)) (side s))
                (get_possible_moves state)
      then rough_outcome_loop s moves' false
      else rough_outcome_loop s moves' other_win
  end.

Definition rough_outcome (s : StonehengeState) : Z :=
  match get_possible_moves s with
  | [] => LOSE
  | _ :: _ => rough_outcome_loop s (get_possible_moves s) true
  end.

(** ** [StonehengeGame.is_winner] *)

Definition is_winner (g : StonehengeGame) (player : string) : bool :=
  if is_over g (current_state g)
  then negb (String.eqb (get_current_player_name (current_state g)) player)
  else false.

(** [game.current_state = state] *)
Definition set_current_state (g : StonehengeGame) (s : StonehengeState)
  : StonehengeGame :=
  Game (game_side g) (game_rows g) (down_left g) (down_right g) s.

(** ** Python builtins on lists of integers *)

(** [max(l)]; [None] is the [ValueError] on the empty list. *)
Definition maximum (l : list Z) : option Z :=
  match l with
  | [] => None
  | x :: l' => Some (fold_left Z.max l' x)
  end.

(** [l.index(v)]; [None] is the [ValueError] when [v] is absent. *)
Fixpoint index_of (v : Z) (l : list Z) : option nat :=
  match l with
  | [] => None
  | x :: l' => if x =? v then Some O else S <$> index_of v l'
  end.

(** ** The recursive evaluator

    The functions of [strategy.py] write the attribute [current_state] of
    the game they are given: they are computations over the game, which may
    fail.  [None] stands for an exception, or for the fuel that bounds the
    depth of the recursion running out. *)

Definition M (A : Type) : Type := StonehengeGame -> option (A * StonehengeGame).

Definition ret {A} (a : A) : M A := fun g => Some (a, g).

Definition bind {A B} (m : M A) (k : A -> M B) : M B :=
  fun g => match m g with
           | Some (a, g') => k a g'
           | None => None
           end.

Definition lift {A} (o : option A) : M A :=
  fun g => match o with Some a => Some (a, g) | None => None end.

Definition get_game : M StonehengeGame := fun g => Some (g, g).

Definition put_state (s : StonehengeState) : M unit :=
  fun g => Some (tt, set_current_state g s).

Notation "x <- m ;; k" := (bind m (fun x => k))
  (at level 100, m at next level, right associativity).

(** A list comprehension whose element expression is a computation. *)
Fixpoint for_each {A B} (f : A -> M B) (l : list A) : M (list B) :=
  match l with
  | [] => ret []
  | a :: l' => b <- f a ;; bs <- for_each f l' ;; ret (b :: bs)
  end.

Fixpoint max_score (fuel : nat) (state : StonehengeState) : M Z :=
  match fuel with
  | O => lift None
  | S fuel' =>
      _ <- put_state state ;;
      game <- get_game ;;
      if is_over game state then
        if p1_turn state then
          if is_winner game "p1" then ret 1
          else if is_winner game "p2" then ret (-1)
          else ret 0
        else
          if is_winner game "p2" then ret 1
          else if is_winner game "p1" then ret (-1)
          else ret 0
      else
        scores <- for_each
                    (fun x => v <- max_score fuel' (make_move state x) ;;
                              ret (-1 * v))
                    (get_possible_moves state) ;;
        lift (maximum scores)
  end.

Definition minimax_recursive (fuel : nat) : M string :=
  game <- get_game ;;
  let old_state := current_state game in
  scores_possible_moves <-
    for_each (fun x => v <- max_score fuel (make_move old_state x) ;;
                       ret (-1 * v))
             (get_possible_moves old_state) ;;
  m <- lift (maximum scores_possible_moves) ;;
  index <- lift (index_of m scores_possible_moves) ;;
  _ <- put_state old_state ;;
  lift (get_possible_moves old_state !! index).

(** ** The iterative evaluator *)

(** [Stack]: the head of the list is the top of the stack, that is, the last
    element of [_contents]. *)
Module Stack.
Definition t (A : Type) : Type := list A.
Definition empty {A} : t A := [].
Definition add {A} (obj : A) (s : t A) : t A := obj :: s.
(** [None] is the [IndexError] of [pop] on an empty list. *)
Definition remove {A} (s : t A) : option (A * t A) :=
  match s with
  | [] => None
  | obj :: s' => Some (obj, s')
  end.
Definition is_empty {A} (s : t A) : bool :=
  match s with [] => true | _ :: _ => false end.
End Stack.

(** A [Tree] object.  Trees are mutated after they have been put on the
    stack and in the list of children of their parent, so that they live in a
    store and are named by their address: [children] holds addresses, and
    [score] is [None] until it is assigned. *)
Record Tree := MkTree {
  value : StonehengeState;
  children : list nat;
  score : option Z }.

(** The store of the trees: the address of a tree is its position. *)
Abbreviation arena := (list Tree).

(** [tree.score = v] *)
Definition set_score (a : arena) (tree : nat) (v : Z) : option arena :=
  match a !! tree with
  | Some t => Some (<[tree := MkTree (value t) (children t) (Some v)]> a)
  | None => None
  end.

(** [next_state = Tree(state); tree.children.append(next_state)] *)
Definition add_child (a : arena) (tree : nat) (state : StonehengeState)
  : option arena :=
  match a !! tree with
  | Some t =>
      Some (<[tree := MkTree (value t) (children t ++ [length a]) (score t)]>
              (a ++ [MkTree state [] None]))
  | None => None
  end.

(** The loop [for move in game.current_state.get_possible_moves()]. *)
Fixpoint expand (a : arena) (tree : nat) (state : StonehengeState)
    (moves : list string) : option arena :=
  match moves with
  | [] => Some a
  | move :: moves' =>
      match add_child a tree (make_move state move) with
      | Some a' => expand a' tree state moves'
      | None => None
      end
  end.

(** [[(-1 * x.score) for x in tree.children]]; [None] is the [TypeError] of
    the product when a score has not been assigned. *)
Fixpoint negated_scores (a : arena) (cs : list nat) : option (list Z) :=
  match cs with
  | [] => Some []
  | c :: cs' =>
      match a !! c with
      | Some t =>
          match score t, negated_scores a cs' with
          | Some v, Some vs => Some (-1 * v :: vs)
          | _, _ => None
          end
      | None => None
      end
  end.

(** The chain of tests that scores a tree whose state is over. *)
Definition leaf_score (game : StonehengeGame) : Z :=
  if negb (is_winner game "p1" || is_winner game "p2") then 0
  else if p1_turn (current_state game) && is_winner game "p1" then 1
  else if p1_turn (current_state game) && is_winner game "p2" then -1
  else if negb (p1_turn (current_state game)) && is_winner game "p2" then 1
  else -1.

(** The loop [while not process.is_empty()]. *)
Fixpoint process_loop (fuel : nat) (game : StonehengeGame) (a : arena)
    (process : Stack.t nat) : option (StonehengeGame * arena) :=
  match fuel with
  | O => None
  | S fuel' =>
      if Stack.is_empty process then Some (game, a) else
      match Stack.remove process with
      | None => None
      | Some (tree, process) =>
          match a !! tree with
          | None => None
          | Some t =>
              let game := set_current_state game (value t) in
              if is_over game (current_state game) then
                match set_score a tree (leaf_score game) with
                | Some a' => process_loop fuel' game a' process
                | None => None
                end
              else if bool_decide (children t = []) then
                match expand a tree (current_state game)
                        (get_possible_moves (current_state game)) with
                | Some a' =>
                    match a' !! tree with
                    | Some t' =>
                        process_loop fuel' game a'
                          (fold_left (fun p child => Stack.add child p)
                             (children t') (Stack.add tree process))
                    | None => None
                    end
                | None => None
                end
              else
                match negated_scores a (children t) with
                | Some vs =>
                    match maximum (vs ++ [-1]) with
                    | Some v =>
                        match set_score a tree v with
                        | Some a' => process_loop fuel' game a' process
                        | None => None
                        end
                    | None => None
                    end
                | None => None
                end
          end
      end
  end.

Definition minimax_iterative (fuel : nat) : M string :=
  fun game =>
    let old_state := current_state game in
    let state := 0%nat in
    let a := [MkTree old_state [] None] in
    match process_loop fuel game a (Stack.add state Stack.empty) with
    | None => None
    | Some (game, a) =>
        match a !! state with
        | None => None
        | Some root =>
            match negated_scores a (children root) with
            | None => None
            | Some scores_possible_moves =>
                match maximum scores_possible_moves with
                | None => None
                | Some m =>
                    match index_of m scores_possible_moves with
                    | None => None
                    | Some index =>
                        match get_possible_moves old_state !! index with
                        | Some move =>
                            Some (move, set_current_state game old_state)
                        | None => None
                        end
                    end
                end
            end
        end
    end.


(** ** What one call of [move_to_board] amounts to *)

(** The cell [c] after [move] has been played by [cur_player]. *)
Definition claim (move cur_player c : string) : string :=
  if String.eqb c move then cur_player else c.

(** The tag [move_to_board] gives to a ley-line that [cur_player] captures. *)
Definition captured_tag (cur_player : string) : string :=
  if String.eqb cur_player "2" then "2" else "1".

(** Whether the call captures the ley-line. *)
Definition captures (move cur_player : string) (l : ley_line) : bool :=
  existsb (fun c => String.eqb c move) (cells l)
  && String.eqb (tag l) "n"
  && holds_half cur_player (map (claim move cur_player) (cells l)).

Definition line_after (move cur_player : string) (l : ley_line) : ley_line :=
  LeyLine (if captures move cur_player l then captured_tag cur_player
           else tag l)
          (map (claim move cur_player) (cells l)).

Definition add_capture (cur_player : string) (scores : Z * Z) (b : bool)
  : Z * Z :=
  if b then
    if String.eqb cur_player "2" then (fst scores, snd scores + 1)
    else (fst scores + 1, snd scores)
  else scores.

(** The cells of the ley-line [l] once the loop of [move_to_board] has
    visited the indices below [k], and whether it has captured the ley-line
    by then. *)
Definition cells_upto (move cur_player : string) (l : ley_line) (k : nat)
  : list string :=
  map (claim move cur_player) (take k (cells l)) ++ drop k (cells l).

Definition captured_upto (move cur_player : string) (l : ley_line) (k : nat)
  : bool :=
  existsb (fun c => String.eqb c move) (take k (cells l))
  && String.eqb (tag l) "n"
  && holds_half cur_player (cells_upto move cur_player l k).

(** The ley-lines of a board, in the order in which [make_move] visits
    them. *)
Definition all_lines (b : board) : list ley_line :=
  rows b ++ left b ++ right b.

(** How many ley-lines of [ls] the move captures. *)
Definition captured_lines (move cur_player : string) (ls : list ley_line)
  : Z :=
  Z.of_nat (length (filter (fun l => captures move cur_player l = true) ls)).

(** The tag of the player to move, as [make_move] computes it. *)
Definition mover (s : StonehengeState) : string :=
  if p1_turn s then "1" else "2".

(** ** States that can occur in a game *)

(** The states of the game [g]: its first state, and the states that legal
    moves lead to. *)
Inductive reachable (g : StonehengeGame) : StonehengeState -> Prop :=
  | reachable_start : reachable g (current_state g)
  | reachable_move s move :
      reachable g s ->
      move ∈ get_possible_moves s ->
      reachable g (make_move s move).

(** [s] is a state of a game of side length [len]. *)
Definition reachable_state (len : Z) (s : StonehengeState) : Prop :=
  exists is_p1_turn g, new_game len is_p1_turn = Some g /\ reachable g s.

(** [g] is a game object as the strategies meet it: a game that was created
    by [StonehengeGame.__init__] and whose current state has been replaced by
    one of its states. *)
Definition reachable_game (g : StonehengeGame) : Prop :=
  exists len is_p1_turn g0 s,
    new_game len is_p1_turn = Some g0 /\ reachable g0 s
    /\ g = set_current_state g0 s.

(** The state after the labels [moves] have been played in turn, legal or
    not. *)
Definition play (s : StonehengeState) (moves : list string)
  : StonehengeState :=
  fold_left make_move moves s.

(** The capture tags of a collection of ley-lines, by index. *)
Definition tags (ls : list ley_line) : list string := map tag ls.

(** How many ley-lines of [ls] carry the tag [p]. *)
Definition tagged (p : string) (ls : list ley_line) : Z :=
  Z.of_nat (length (filter (fun l => tag l = p) ls)).

(** A ley-line is tagged ['n'], ['1'] or ['2'], and while it is tagged ['n']
    neither player holds half of its cells. *)
Definition line_ok (l : ley_line) : Prop :=
  (tag l = "n" \/ tag l = "1" \/ tag l = "2")
  /\ (tag l = "n" ->
      2 * count "1" (cells l) < Z.of_nat (length (cells l))
      /\ 2 * count "2" (cells l) < Z.of_nat (length (cells l))).

(** The invariant of the states of a game: every ley-line is [line_ok]; the
    scores count the ley-lines tagged with the player; there are
    [3 * (length + 1)] ley-lines; a cell that is unclaimed in some ley-line
    is unclaimed in its row; no label is unclaimed twice in the rows. *)
Definition consistent (s : StonehengeState) : Prop :=
  Forall line_ok (all_lines (cur_board s))
  /\ p1_score s = tagged "1" (all_lines (cur_board s))
  /\ p2_score s = tagged "2" (all_lines (cur_board s))
  /\ Z.of_nat (length (all_lines (cur_board s))) = 3 * (side s + 1)
  /\ Forall (fun l => Forall (fun c => unclaimed c = true ->
                                       c ∈ free_cells (rows (cur_board s)))
                             (cells l))
            (all_lines (cur_board s))
  /\ NoDup (free_cells (rows (cur_board s))).

#[export] Instance line_ok_dec l : Decision (line_ok l).
Proof. unfold line_ok. apply _. Defined.

#[export] Instance consistent_dec s : Decision (consistent s).
Proof. unfold consistent. apply _. Defined.

(** ** Two concrete games *)

(** The games of side length 1 and 2 in which player 1 moves first, as
    [new_game] creates them (lemmas [new_game_1] and [new_game_2]). *)
Definition board_1 : board :=
  Board [LeyLine "n" ["A"; "B"]; LeyLine "n" ["C"]]
        [LeyLine "n" ["A"]; LeyLine "n" ["B"; "C"]]
        [LeyLine "n" ["B"]; LeyLine "n" ["A"; "C"]].

Definition game_1 : StonehengeGame :=
  Game 1 (rows board_1) (left board_1) (right board_1)
       (State true board_1 0 0 1).

Definition board_2 : board :=
  Board [LeyLine "n" ["A"; "B"]; LeyLine "n" ["C"; "D"; "E"];
         LeyLine "n" ["F"; "G"]]
        [LeyLine "n" ["A"; "C"]; LeyLine "n" ["B"; "D"; "F"];
         LeyLine "n" ["E"; "G"]]
        [LeyLine "n" ["B"; "E"]; LeyLine "n" ["A"; "D"; "G"];
         LeyLine "n" ["C"; "F"]].

Definition game_2 : StonehengeGame :=
  Game 2 (rows board_2) (left board_2) (right board_2)
       (State true board_2 0 0 2).

(** ** Calls that may raise *)

(** The outcome of a Python call: the value it returns or the exception it
    raises. *)
Inductive outcome (A : Type) : Type :=
  | Returns (a : A)
  | Raises (exception : string).
Arguments Returns {A} a.
Arguments Raises {A} exception.

(** The call [state.make_move(move)].  Neither [make_move] nor
    [move_to_board] has a [raise] statement or a test of [move] against the
    unclaimed cells, and every subscript they evaluate is in range
    ([states[0]] and [states[1]] of a ley-line, [states[1][cell]] for
    [cell] below [len(states[1])]): the call returns. *)
Definition call_make_move (s : StonehengeState) (move : string)
  : outcome StonehengeState :=
  Returns (make_move s move).

(** The label [move] is written in some cell of the board. *)
Definition on_board (move : string) (b : board) : Prop :=
  Exists (fun l => move ∈ cells l) (all_lines b).

(** ** The negamax value, from the words of the spec *)

(** The terminal condition of the spec: one of the scores has reached
    [3 * (N + 1) / 2]. *)
Definition over (s : StonehengeState) : bool :=
  reaches (p1_score s) (side s) || reaches (p2_score s) (side s).

(** The winner test of the spec: in a terminal state the winner is the
    player who is not the state's current-turn player; a state that is not
    terminal has no winner. *)
Definition winner (s : StonehengeState) : option string :=
  if over s then Some (if p1_turn s then "p2" else "p1") else None.

(** The terminal scoring rule of the spec: 0 when neither player is the
    winner, +1 when the side to move is the winner, -1 when the other side
    is. *)
Definition terminal_value (s : StonehengeState) : Z :=
  match winner s with
  | None => 0
  | Some w => if String.eqb w (get_current_player_name s) then 1 else -1
  end.

(** [map f l] for a partial [f]: defined when [f] is defined on every
    element. *)
Fixpoint map_option {A B} (f : A -> option B) (l : list A)
  : option (list B) :=
  match l with
  | [] => Some []
  | a :: l' =>
      match f a, map_option f l' with
      | Some b, Some bs => Some (b :: bs)
      | _, _ => None
      end
  end.

(** The negamax value of a state, by exhaustive search to the terminal
    states at most [depth] plies away: a terminal state has its
    [terminal_value], and any other state the greatest of the negated values
    of the states its moves lead to.  The value is undefined ([None]) when
    the search is cut by [depth], or meets a state that is not terminal and
    has no move. *)
Fixpoint negamax_upto (depth : nat) (s : StonehengeState) : option Z :=
  match depth with
  | O => None
  | S depth' =>
      if over s then Some (terminal_value s)
      else
        match map_option (fun m => negamax_upto depth' (make_move s m))
                (get_possible_moves s) with
        | Some vs => maximum (map (fun v => - v) vs)
        | None => None
        end
  end.

(** A move claims a cell of the rows, so that the game lasts at most as many
    plies as the rows have unclaimed cells. *)
Definition plies_left (s : StonehengeState) : nat :=
  length (free_cells (rows (cur_board s))).

Definition negamax (s : StonehengeState) : option Z :=
  negamax_upto (S (plies_left s)) s.

(** The recurrence as the spec writes it, with the negation outside the
    maximum: [value(state) = -1 * max over moves m of
    value(make_move(state, m))]. *)
Fixpoint literal_negamax_upto (depth : nat) (s : StonehengeState) : option Z :=
  match depth with
  | O => None
  | S depth' =>
      if over s then Some (terminal_value s)
      else
        match map_option (fun m => literal_negamax_upto depth' (make_move s m))
                (get_possible_moves s) with
        | Some vs =>
            match maximum vs with
            | Some v => Some (-1 * v)
            | None => None
            end
        | None => None
        end
  end.

Definition literal_negamax (s : StonehengeState) : option Z :=
  literal_negamax_upto (S (plies_left s)) s.

(** [g'] is the game object [g] after its attribute [current_state] has
    been assigned. *)
Definition same_game (g g' : StonehengeGame) : Prop :=
  exists s, g' = set_current_state g s.

(** The last lines of both evaluators: the move at the first index of the
    greatest score. *)
Definition best_move (scores : list Z) (moves : list string)
  : option string :=
  match maximum scores with
  | Some m =>
      match index_of m scores with
      | Some index => moves !! index
      | None => None
      end
  | None => None
  end.

(** A state of [game_2] in which player 2 is to move and four cells are
    unclaimed, and the game object that has it as current state. *)
Definition state_2_ABD : StonehengeState :=
  play (current_state game_2) ["A"; "B"; "D"].

Definition game_2_ABD : StonehengeGame :=
  set_current_state game_2 state_2_ABD.

(** ** What the loop of the iterative evaluator does with one tree *)

(** A tree that has just been created for the state [s]. *)
Definition fresh_tree (s : StonehengeState) : Tree := MkTree s [] None.

(** The loop settles every fresh tree whose state has a value within
    [depth] plies: from a stack with the tree on top it reaches, in [k]
    iterations, the stack without the tree; the tree then carries the value
    as its score; the store has only grown, and the trees it held are as
    they were, the settled one apart; and when the state is not over the
    children of the tree carry the values of the states the moves lead
    to. *)
Definition settles (depth : nat) : Prop :=
  forall s v g (a : arena) tree process,
    negamax_upto depth s = Some v ->
    game_side g = side s ->
    a !! tree = Some (fresh_tree s) ->
    exists k (a' : arena) g' cs,
      (forall fuel,
         process_loop (k + fuel) g a (Stack.add tree process)
         = process_loop fuel g' a' process)
      /\ same_game g g'
      /\ a' !! tree = Some (MkTree s cs (Some v))
      /\ (length a <= length a')%nat
      /\ (forall j, (j < length a)%nat -> j <> tree -> a' !! j = a !! j)
      /\ (over s = false ->
          exists vs,
            map_option (fun m => negamax_upto (pred depth) (make_move s m))
              (get_possible_moves s) = Some vs
            /\ negated_scores a' cs = Some (map (fun v => -1 * v) vs)).

(** ** The store of Python objects

    [make_move] works on a deep copy of the board and mutates the copy in
    place.  To state what this leaves untouched, the board is also modelled
    as it lies in the store: lists and dictionaries are objects with an
    address, and hold strings, integers and the addresses of other
    objects. *)

Inductive pyval : Type :=
  | VStr (s : string)
  | VInt (n : Z)
  | VRef (address : nat).

Inductive pyobj : Type :=
  | OList (items : list pyval)
  | ODict (entries : list (pyval * pyval)).

(** The store: the address of an object is its position; objects are
    created at the end and never freed. *)
Abbreviation heap := (list pyobj).

#[export] Instance pyval_eq_dec : EqDecision pyval.
Proof. solve_decision. Defined.

Definition alloc (h : heap) (o : pyobj) : heap * pyval :=
  (h ++ [o], VRef (length h)).

Definition get_list (h : heap) (x : pyval) : option (list pyval) :=
  match x with
  | VRef l => match h !! l with Some (OList items) => Some items | _ => None end
  | _ => None
  end.

Definition get_dict (h : heap) (x : pyval) : option (list (pyval * pyval)) :=
  match x with
  | VRef l => match h !! l with Some (ODict es) => Some es | _ => None end
  | _ => None
  end.

(** [x[i]] for a list [x] *)
Definition get_item (h : heap) (x : pyval) (i : nat) : option pyval :=
  match get_list h x with
  | Some items => items !! i
  | None => None
  end.

(** [x[i] = v] for a list [x] *)
Definition set_item (h : heap) (x : pyval) (i : nat) (v : pyval)
  : option heap :=
  match x with
  | VRef l =>
      match h !! l with
      | Some (OList items) =>
          if decide (i < length items)%nat
          then Some (<[l := OList (<[i := v]> items)]> h)
          else None
      | _ => None
      end
  | _ => None
  end.

(** [x.append(v)] *)
Definition append_item (h : heap) (x : pyval) (v : pyval) : option heap :=
  match x with
  | VRef l =>
      match h !! l with
      | Some (OList items) => Some (<[l := OList (items ++ [v])]> h)
      | _ => None
      end
  | _ => None
  end.

Fixpoint find_entry (k : pyval) (es : list (pyval * pyval)) : option pyval :=
  match es with
  | [] => None
  | (k', v) :: es' => if decide (k' = k) then Some v else find_entry k es'
  end.

Fixpoint put_entry (k v : pyval) (es : list (pyval * pyval))
  : list (pyval * pyval) :=
  match es with
  | [] => [(k, v)]
  | (k', v') :: es' =>
      if decide (k' = k) then (k', v) :: es' else (k', v') :: put_entry k v es'
  end.

(** [x[k]] for a dictionary [x] *)
Definition get_entry (h : heap) (x k : pyval) : option pyval :=
  match get_dict h x with
  | Some es => find_entry k es
  | None => None
  end.

(** [x[k] = v] for a dictionary [x] *)
Definition set_entry (h : heap) (x k v : pyval) : option heap :=
  match x with
  | VRef l =>
      match h !! l with
      | Some (ODict es) => Some (<[l := ODict (put_entry k v es)]> h)
      | _ => None
      end
  | _ => None
  end.

(** The keys of a dictionary, in the order of [for k in x]. *)
Definition keys (h : heap) (x : pyval) : option (list pyval) :=
  match get_dict h x with
  | Some es => Some (map fst es)
  | None => None
  end.

(** A [for] loop whose body changes the store. *)
Fixpoint for_store {A} (body : heap -> A -> option heap) (l : list A)
    (h : heap) : option heap :=
  match l with
  | [] => Some h
  | a :: l' =>
      match body h a with
      | Some h' => for_store body l' h'
      | None => None
      end
  end.

(** *** [copy.deepcopy]

    Strings and integers are returned as they are.  A list or a dictionary
    that is in the memo is replaced by its copy; otherwise an empty copy is
    created and entered in the memo, and is filled with the copies of the
    elements.  The fuel bounds the depth of the recursion. *)

Fixpoint memo_get (l : nat) (memo : list (nat * nat)) : option nat :=
  match memo with
  | [] => None
  | (l0, l') :: memo' => if decide (l0 = l) then Some l' else memo_get l memo'
  end.

(** [for a in x: y.append(deepcopy(a, memo))] *)
Fixpoint copy_items
    (copy : heap -> list (nat * nat) -> pyval
            -> option (heap * list (nat * nat) * pyval))
    (y : pyval) (items : list pyval) (h : heap) (memo : list (nat * nat))
  : option (heap * list (nat * nat)) :=
  match items with
  | [] => Some (h, memo)
  | a :: items' =>
      match copy h memo a with
      | Some (h1, memo1, a') =>
          match append_item h1 y a' with
          | Some h2 => copy_items copy y items' h2 memo1
          | None => None
          end
      | None => None
      end
  end.

(** [for key, value in x.items(): y[deepcopy(key, memo)] = deepcopy(value,
    memo)]; the value is copied first, as the right-hand side of an
    assignment is evaluated first. *)
Fixpoint copy_entries
    (copy : heap -> list (nat * nat) -> pyval
            -> option (heap * list (nat * nat) * pyval))
    (y : pyval) (es : list (pyval * pyval)) (h : heap)
    (memo : list (nat * nat)) : option (heap * list (nat * nat)) :=
  match es with
  | [] => Some (h, memo)
  | (k, v) :: es' =>
      match copy h memo v with
      | Some (h1, memo1, v') =>
          match copy h1 memo1 k with
          | Some (h2, memo2, k') =>
              match set_entry h2 y k' v' with
              | Some h3 => copy_entries copy y es' h3 memo2
              | None => None
              end
          | None => None
          end
      | None => None
      end
  end.

Fixpoint deepcopy (fuel : nat) (h : heap) (memo : list (nat * nat))
    (x : pyval) : option (heap * list (nat * nat) * pyval) :=
  match x with
  | VStr _ | VInt _ => Some (h, memo, x)
  | VRef l =>
      match memo_get l memo with
      | Some l' => Some (h, memo, VRef l')
      | None =>
          match fuel with
          | O => None
          | S fuel' =>
              match h !! l with
              | Some (OList items) =>
                  let '(h0, y) := alloc h (OList []) in
                  match copy_items (deepcopy fuel') y items h0
                          ((l, length h) :: memo) with
                  | Some (h1, memo1) => Some (h1, memo1, y)
                  | None => None
                  end
              | Some (ODict es) =>
                  let '(h0, y) := alloc h (ODict []) in
                  match copy_entries (deepcopy fuel') y es h0
                          ((l, length h) :: memo) with
                  | Some (h1, memo1) => Some (h1, memo1, y)
                  | None => None
                  end
              | None => None
              end
          end
      end
  end.

(** *** [StonehengeState] in the store *)

(** A [StonehengeState] object: its attributes are assigned once, by
    [__init__]; [cur_board] is the address of the board dictionary. *)
Record state_object := StateObject {
  obj_p1_turn : bool;
  obj_cur_board : pyval;
  obj_p1_score : Z;
  obj_p2_score : Z;
  obj_length : Z }.

(** [scores[i] += 1] *)
Definition increment (h : heap) (scores : pyval) (i : nat) : option heap :=
  match get_item h scores i with
  | Some (VInt n) => set_item h scores i (VInt (n + 1))
  | _ => None
  end.

(** One iteration of the loop of [move_to_board]. *)
Definition move_to_board_store_step (scores states : pyval)
    (move cur_player : string) (h : heap) (cell : nat) : option heap :=
  match get_item h states 1 with
  | Some cs =>
      match get_item h cs cell with
      | Some c =>
          if bool_decide (c = VStr move) then
            match set_item h cs cell (VStr cur_player) with
            | Some h =>
                match get_item h states 0, get_list h cs with
                | Some t, Some items =>
                    let half :=
                      Qle_bool (Z.of_nat (length items) # 2)
                        (inject_Z
                           (Z.of_nat
                              (length
                                 (filter (fun x => x = VStr cur_player)
                                    items)))) in
                    if bool_decide (t = VStr "n") && half
                       && String.eqb cur_player "2"
                    then
                      match set_item h states 0 (VStr "2") with
                      | Some h => increment h scores 1
                      | None => None
                      end
                    else if bool_decide (t = VStr "n") && half
                    then
                      match set_item h states 0 (VStr "1") with
                      | Some h => increment h scores 0
                      | None => None
                      end
                    else Some h
                | _, _ => None
                end
            | None => None
            end
          else Some h
      | None => None
      end
  | None => None
  end.

Definition move_to_board_store (scores states : pyval)
    (move cur_player : string) (h : heap) : option heap :=
  match get_item h states 1 with
  | Some cs =>
      match get_list h cs with
      | Some items =>
          for_store (move_to_board_store_step scores states move cur_player)
            (seq 0 (length items)) h
      | None => None
      end
  | None => None
  end.

(** [StonehengeState.__init__]: [cur_board.copy()] is a new dictionary with
    the entries of [cur_board]. *)
Definition new_state_store (h : heap) (is_p1_turn : bool)
    (cur_board scores : pyval) (len : Z) : option (heap * state_object) :=
  match get_dict h cur_board with
  | Some es =>
      let '(h, b) := alloc h (ODict es) in
      match get_item h scores 0, get_item h scores 1 with
      | Some (VInt s1), Some (VInt s2) =>
          Some (h, StateObject is_p1_turn b s1 s2 len)
      | _, _ => None
      end
  | None => None
  end.

(** The body of the loop [for line in board[lines]] of [make_move]. *)
Definition move_line_store (board scores : pyval) (move cur_player : string)
    (lines : pyval) (h : heap) (line : pyval) : option heap :=
  match get_entry h board lines with
  | Some d =>
      match get_entry h d line with
      | Some states => move_to_board_store scores states move cur_player h
      | None => None
      end
  | None => None
  end.

(** The body of the loop [for lines in board] of [make_move]. *)
Definition move_lines_store (board scores : pyval) (move cur_player : string)
    (h : heap) (lines : pyval) : option heap :=
  match get_entry h board lines with
  | Some d =>
      match keys h d with
      | Some ks =>
          for_store (move_line_store board scores move cur_player lines) ks h
      | None => None
      end
  | None => None
  end.

(** [make_move] on the store.  The recursion of [deepcopy] is at most as
    deep as there are objects. *)
Definition make_move_store (h : heap) (self : state_object) (move : string)
  : option (heap * state_object) :=
  match deepcopy (S (length h)) h [] (obj_cur_board self) with
  | Some (h, _, board) =>
      let cur_player := if obj_p1_turn self then "1" else "2" in
      let '(h, scores) :=
        alloc h (OList [VInt (obj_p1_score self); VInt (obj_p2_score self)]) in
      match keys h board with
      | Some ks =>
          match for_store (move_lines_store board scores move cur_player)
                  ks h with
          | Some h =>
              new_state_store h (String.eqb cur_player "2") board scores
                (obj_length self)
          | None => None
          end
      | None => None
      end
  | None => None
  end.

(** *** Boards in the store *)

(** Where a ley-line lies: the address of the list [[tag, cells]] and the
    address of the list of its cells. *)
Record line_shape := LineShape { at_line : nat; at_cells : nat }.

(** Where a collection of ley-lines lies: the address of the dictionary and
    the places of its ley-lines. *)
Record lines_shape := LinesShape {
  at_lines : nat;
  line_shapes : list line_shape }.

Record board_shape := BoardShape {
  at_board : nat;
  rows_shape : lines_shape;
  left_shape : lines_shape;
  right_shape : lines_shape }.

Definition line_addresses (sh : line_shape) : list nat :=
  [at_line sh; at_cells sh].

Definition lines_addresses (sh : lines_shape) : list nat :=
  at_lines sh :: concat (map line_addresses (line_shapes sh)).

Definition inner_addresses (sh : board_shape) : list nat :=
  lines_addresses (rows_shape sh) ++ lines_addresses (left_shape sh)
  ++ lines_addresses (right_shape sh).

(** The addresses of the objects of a board. *)
Definition board_addresses (sh : board_shape) : list nat :=
  at_board sh :: inner_addresses sh.

(** The store [h] holds the ley-line [ln] at [sh]. *)
Definition holds_line (h : heap) (sh : line_shape) (ln : ley_line) : Prop :=
  h !! at_line sh = Some (OList [VStr (tag ln); VRef (at_cells sh)])
  /\ h !! at_cells sh = Some (OList (map VStr (cells ln))).

(** The entries of the dictionary of a collection: the keys are the
    indices from [i] on. *)
Fixpoint lines_entries (i : nat) (shs : list line_shape)
  : list (pyval * pyval) :=
  match shs with
  | [] => []
  | sh :: shs' =>
      (VInt (Z.of_nat i), VRef (at_line sh)) :: lines_entries (S i) shs'
  end.

Definition holds_lines (h : heap) (sh : lines_shape) (lns : list ley_line)
  : Prop :=
  h !! at_lines sh = Some (ODict (lines_entries 0 (line_shapes sh)))
  /\ Forall2 (holds_line h) (line_shapes sh) lns.

Definition board_entries (sh : board_shape) : list (pyval * pyval) :=
  [(VStr "rows", VRef (at_lines (rows_shape sh)));
   (VStr "left", VRef (at_lines (left_shape sh)));
   (VStr "right", VRef (at_lines (right_shape sh)))].

Definition holds_board (h : heap) (sh : board_shape) (b : board) : Prop :=
  h !! at_board sh = Some (ODict (board_entries sh))
  /\ holds_lines h (rows_shape sh) (rows b)
  /\ holds_lines h (left_shape sh) (left b)
  /\ holds_lines h (right_shape sh) (right b).

(** The state object [o] stands for the state [s]: its board lies at [sh],
    in objects that are all different. *)
Definition holds_state (h : heap) (o : state_object) (sh : board_shape)
    (s : StonehengeState) : Prop :=
  obj_cur_board o = VRef (at_board sh)
  /\ holds_board h sh (cur_board s)
  /\ NoDup (board_addresses sh)
  /\ obj_p1_turn o = p1_turn s
  /\ obj_p1_score o = p1_score s
  /\ obj_p2_score o = p2_score s
  /\ obj_length o = side s.

(** The fresh state of [game_1] in a store, as [StonehengeGame.__init__]
    lays it out: the three dictionaries first, each list of cells before its
    ley-line, and last the copy of the board dictionary that the state
    keeps. *)
Definition heap_1 : heap :=
  [ ODict [(VInt 0, VRef 4); (VInt 1, VRef 6)];
    ODict [(VInt 0, VRef 8); (VInt 1, VRef 10)];
    ODict [(VInt 0, VRef 12); (VInt 1, VRef 14)];
    OList [VStr "A"; VStr "B"]; OList [VStr "n"; VRef 3];
    OList [VStr "C"]; OList [VStr "n"; VRef 5];
    OList [VStr "A"]; OList [VStr "n"; VRef 7];
    OList [VStr "B"; VStr "C"]; OList [VStr "n"; VRef 9];
    OList [VStr "B"]; OList [VStr "n"; VRef 11];
    OList [VStr "A"; VStr "C"]; OList [VStr "n"; VRef 13];
    ODict [(VStr "rows", VRef 0); (VStr "left", VRef 1);
           (VStr "right", VRef 2)];
    ODict [(VStr "rows", VRef 0); (VStr "left", VRef 1);
           (VStr "right", VRef 2)] ].

Definition shape_1 : board_shape :=
  BoardShape 16
    (LinesShape 0 [LineShape 4 3; LineShape 6 5])
    (LinesShape 1 [LineShape 8 7; LineShape 10 9])
    (LinesShape 2 [LineShape 12 11; LineShape 14 13]).

Definition state_object_1 : state_object :=
  StateObject true (VRef 16) 0 0 1.

(** *** The layout of a deep copy

    [deepcopy] creates the copy of an object before the copies of its
    elements: the copy of a ley-line at [base] has its cells at [base + 1],
    and the copy of a collection at [base] has its ley-lines from
    [base + 1] on. *)

Definition line_objects (sh : line_shape) (ln : ley_line) : list pyobj :=
  [OList [VStr (tag ln); VRef (at_cells sh)]; OList (map VStr (cells ln))].

Fixpoint fresh_lines (base : nat) (lns : list ley_line) : list line_shape :=
  match lns with
  | [] => []
  | _ :: lns' => LineShape base (S base) :: fresh_lines (S (S base)) lns'
  end.

Fixpoint lines_objects (base : nat) (lns : list ley_line) : list pyobj :=
  match lns with
  | [] => []
  | ln :: lns' =>
      line_objects (LineShape base (S base)) ln
      ++ lines_objects (S (S base)) lns'
  end.

Definition fresh_collection (base : nat) (lns : list ley_line)
  : lines_shape :=
  LinesShape base (fresh_lines (S base) lns).

Definition collection_objects (base : nat) (lns : list ley_line)
  : list pyobj :=
  ODict (lines_entries 0 (fresh_lines (S base) lns))
  :: lines_objects (S base) lns.

Definition collection_size (lns : list ley_line) : nat :=
  S (2 * length lns).

Definition fresh_board (base : nat) (b : board) : board_shape :=
  let r := S base in
  let l := (r + collection_size (rows b))%nat in
  let t := (l + collection_size (left b))%nat in
  BoardShape base (fresh_collection r (rows b))
    (fresh_collection l (left b)) (fresh_collection t (right b)).

Definition board_objects (base : nat) (b : board) : list pyobj :=
  let r := S base in
  let l := (r + collection_size (rows b))%nat in
  let t := (l + collection_size (left b))%nat in
  ODict (board_entries (fresh_board base b))
  :: collection_objects r (rows b) ++ collection_objects l (left b)
  ++ collection_objects t (right b).

Definition board_size (b : board) : nat :=
  S (collection_size (rows b) + collection_size (left b)
     + collection_size (right b)).

(** The store holds the ley-line [ln] at [sh] and the list of the two
    scores [sc] at [ls]. *)
Definition line_state (h : heap) (ls : nat) (sh : line_shape)
    (sc : Z * Z) (ln : ley_line) : Prop :=
  holds_line h sh ln
  /\ h !! ls = Some (OList [VInt (fst sc); VInt (snd sc)]).

(** The stores [h] and [h'] have the same objects, those at the addresses
    [ws] apart. *)
Definition same_outside (ws : list nat) (h h' : heap) : Prop :=
  length h' = length h /\ forall l, l ∉ ws -> h' !! l = h !! l.

(** The memo holds no copy of the objects at [ls]. *)
Definition not_copied (memo : list (nat * nat)) (ls : list nat) : Prop :=
  Forall (fun l => memo_get l memo = None) ls.

(** ** The states of the doctests *)

(** The state [a] of the doctests of [get_possible_moves] and
    [make_move]. *)
Definition doctest_state : StonehengeState :=
  State false
    (Board [LeyLine "2" ["A"; "2"]; LeyLine "n" ["C"; "D"; "E"];
            LeyLine "n" ["F"; "G"; "H"; "1"]; LeyLine "n" ["J"; "K"; "2"]]
           [LeyLine "n" ["A"; "C"; "F"]; LeyLine "n" ["2"; "D"; "G"; "J"];
            LeyLine "n" ["E"; "H"; "K"]; LeyLine "1" ["1"; "2"]]
           [LeyLine "n" ["2"; "E"; "1"]; LeyLine "n" ["A"; "D"; "H"; "2"];
            LeyLine "n" ["C"; "G"; "K"]; LeyLine "n" ["F"; "J"]])
    1 1 3.

(** The state [a] of the doctest of [rough_outcome]. *)
Definition doctest_rough : StonehengeState :=
  State false
    (Board [LeyLine "1" ["1"; "B"]; LeyLine "n" ["C"; "D"; "E"];
            LeyLine "n" ["F"; "G"]]
           [LeyLine "1" ["1"; "C"]; LeyLine "n" ["B"; "D"; "F"];
            LeyLine "n" ["E"; "G"]]
           [LeyLine "n" ["B"; "E"]; LeyLine "n" ["1"; "D"; "G"];
            LeyLine "n" ["C"; "F"]])
    2 0 2.

(** ** The rest of [stonehenge.py] and [strategy.py] *)

(** *** [rough_outcome_strategy] *)

(** The loop [for move in current_state.get_possible_moves()]; the value is
    [best_move], which is [None] until a move has been kept. *)
Fixpoint rough_outcome_strategy_loop (current_state : StonehengeState)
    (moves : list string) (best_move : option string) (best_outcome : Z)
  : option string :=
  match moves with
  | [] => best_move
  | move :: moves' =>
      let new_state := make_move current_state move in
      let guessed_score := rough_outcome new_state * -1 in
      if best_outcome <? guessed_score
      then rough_outcome_strategy_loop current_state moves' (Some move)
             guessed_score
      else rough_outcome_strategy_loop current_state moves' best_move
             best_outcome
  end.

Definition rough_outcome_strategy (game : StonehengeGame) : option string :=
  rough_outcome_strategy_loop (current_state game)
    (get_possible_moves (current_state game)) None (-2).

(** *** [StonehengeGame.str_to_move] *)

(** The characters that [str.strip] removes, among the code points below
    256: the ASCII white space, the separators 28 to 31, the next-line
    character 133 and the no-break space 160. *)
Definition is_space (c : Ascii.ascii) : bool :=
  let n := Ascii.nat_of_ascii c in
  ((9 <=? n) && (n <=? 13) || (28 <=? n) && (n <=? 32)
   || (n =? 133) || (n =? 160))%nat.

Fixpoint lstrip (s : string) : string :=
  match s with
  | EmptyString => EmptyString
  | String c s' => if is_space c then lstrip s' else s
  end.

(** [rstrip] keeps a character when it is not white space or when some
    character after it is kept. *)
Fixpoint rstrip (s : string) : string :=
  match s with
  | EmptyString => EmptyString
  | String c s' =>
      match rstrip s' with
      | EmptyString => if is_space c then EmptyString
                       else String c EmptyString
      | rest => String c rest
      end
  end.

(** [string.strip()] *)
Definition strip (s : string) : string := rstrip (lstrip s).

(** The argument is a [str]: the test [isinstance(string, str)] holds. *)
Definition str_to_move (string : String.string) : String.string :=
  strip string.

(** The string [s] holds white space only. *)
Fixpoint blank (s : string) : bool :=
  match s with
  | EmptyString => true
  | String c s' => is_space c && blank s'
  end.

(** *** [StonehengeState.__str__] and [__repr__] *)

Definition val_ley_line (ley_line : ley_line) : string :=
  if String.eqb (tag ley_line) "n" then "@" else tag ley_line.

(** [n * s] for an [int] [n]: empty when [n] is not positive. *)
Fixpoint repeat_string (n : nat) (s : string) : string :=
  match n with
  | O => EmptyString
  | S n' => s +:+ repeat_string n' s
  end.

Definition times (n : Z) (s : string) : string :=
  repeat_string (Z.to_nat n) s.

Definition newline : string := String (Ascii.ascii_of_nat 10) EmptyString.

Definition space4 : string := times 4 " ".
Definition space7 : string := times 7 " ".

(** [for cell in cells: result += space7 + cell] *)
Fixpoint add_cells (result : string) (cs : list string) : string :=
  match cs with
  | [] => result
  | cell :: cs' => add_cells (result +:+ (space7 +:+ cell)) cs'
  end.

(** The loop [for i in range(self.length)] of [__str__]; [None] is the
    [KeyError] of a ley-line that the board does not have. *)
Fixpoint add_rows (b : board) (len : Z) (idxs : list nat) (result : string)
  : option string :=
  match idxs with
  | [] => Some result
  | i :: idxs' =>
      let result := result +:+ times (len - 1 - Z.of_nat i) space4 in
      match lookup_key (Z.of_nat i) (rows b) with
      | None => None
      | Some r =>
          let result := result +:+ val_ley_line r in
          let result := add_cells result (cells r) in
          let after :=
            if Z.of_nat i + 2 <=? len then
              match lookup_key (Z.of_nat i + 2) (left b) with
              | Some l => Some (result +:+ space7 +:+ val_ley_line l)
              | None => None
              end
            else Some result in
          match after with
          | Some result =>
              add_rows b len idxs' (result +:+ (newline +:+ newline))
          | None => None
          end
      end
  end.

(** The loop [while index > 0] of [__str__], [n] iterations left. *)
Fixpoint add_right (b : board) (n : nat) (index : Z) (result : string)
  : option string :=
  match n with
  | O => Some result
  | S n' =>
      match lookup_key index (right b) with
      | Some l =>
          add_right b n' (index - 1) (result +:+ (space7 +:+ val_ley_line l))
      | None => None
      end
  end.

Definition __str__ (s : StonehengeState) : option string :=
  let b := cur_board s in
  let len := side s in
  let result := times len space4 +:+ " " in
  match lookup_key 0 (left b), lookup_key 1 (left b) with
  | Some l0, Some l1 =>
      let result := result +:+ (space7 +:+ val_ley_line l0) in
      let result := result +:+ (space7 +:+ val_ley_line l1) in
      let result := result +:+ (newline +:+ newline) in
      match add_rows b len (seq 0 (Z.to_nat len)) result with
      | Some result =>
          let result := result +:+ space4 in
          match lookup_key len (rows b), lookup_key 0 (right b) with
          | Some r, Some t =>
              let result := result +:+ val_ley_line r in
              let result := add_cells result (cells r) in
              let result := result +:+ (space7 +:+ val_ley_line t) in
              let result :=
                result +:+ (newline +:+ newline +:+ times 2 space4 +:+ " ") in
              add_right b (Z.to_nat len) len result
          | _, _ => None
          end
      | None => None
      end
  | _, _ => None
  end.

(** ["P1's Turn: {}\nImage: \n{}".format(self.p1_turn, self.__str__())] *)
Definition __repr__ (s : StonehengeState) : option string :=
  match __str__ s with
  | Some image =>
      Some ("P1's Turn: " +:+ (if p1_turn s then "True" else "False")
            +:+ newline +:+ "Image: " +:+ newline +:+ image)
  | None => None
  end.

(** *** What the picture of a state shows *)

(** The characters of [s] that are not white space. *)
Fixpoint ink (s : string) : list Ascii.ascii :=
  match s with
  | EmptyString => []
  | String c s' => if is_space c then ink s' else c :: ink s'
  end.

(** [d[k]] where the key is known to be present. *)
Definition line_at (k : Z) (d : list ley_line) : ley_line :=
  default (LeyLine "n" []) (lookup_key k d).

Definition line_ink (l : ley_line) : list Ascii.ascii :=
  ink (val_ley_line l).

Definition cells_ink (l : ley_line) : list Ascii.ascii :=
  concat (map ink (cells l)).

(** What iteration [i] of the loop [for i in range(self.length)] of
    [__str__] writes, white space apart. *)
Definition row_ink (b : board) (len : Z) (i : nat) : list Ascii.ascii :=
  line_ink (line_at (Z.of_nat i) (rows b))
  ++ cells_ink (line_at (Z.of_nat i) (rows b))
  ++ (if Z.of_nat i + 2 <=? len
      then line_ink (line_at (Z.of_nat i + 2) (left b)) else []).

(** What the loop [while index > 0] of [__str__] writes, white space
    apart. *)
Fixpoint right_ink (b : board) (n : nat) (index : Z) : list Ascii.ascii :=
  match n with
  | O => []
  | S n' => line_ink (line_at index (right b)) ++ right_ink b n' (index - 1)
  end.

(** What [__str__] writes, white space apart. *)
Definition picture_ink (s : StonehengeState) : list Ascii.ascii :=
  let b := cur_board s in
  line_ink (line_at 0 (left b)) ++ line_ink (line_at 1 (left b))
  ++ concat (map (row_ink b (side s)) (seq 0 (Z.to_nat (side s))))
  ++ line_ink (line_at (side s) (rows b))
  ++ cells_ink (line_at (side s) (rows b))
  ++ line_ink (line_at 0 (right b))
  ++ right_ink b (Z.to_nat (side s)) (side s).

(** The cells of the state [s] are those of the game [g], each with what
    has been written in it. *)
Definition linked (g : StonehengeGame) (s : StonehengeState) : Prop :=
  exists written : string -> string,
    map cells (rows (cur_board s))
    = map (fun l => map written (cells l)) (game_rows g)
    /\ map cells (left (cur_board s))
       = map (fun l => map written (cells l)) (down_left g)
    /\ map cells (right (cur_board s))
       = map (fun l => map written (cells l)) (down_right g).

(** *** More about the states of a game *)

(** A ley-line that carries the tag of a player has at least half of its
    cells claimed by that player. *)
Definition line_owned (l : ley_line) : Prop :=
  (tag l = "1" -> Z.of_nat (length (cells l)) <= 2 * count "1" (cells l))
  /\ (tag l = "2" -> Z.of_nat (length (cells l)) <= 2 * count "2" (cells l)).

(** A cell holds one character: a capital letter, or the tag of a
    player. *)
Definition is_label (c : string) : bool :=
  match c with
  | String a EmptyString =>
      let n := Ascii.nat_of_ascii a in
      ((65 <=? n) && (n <=? 90) || (n =? 49) || (n =? 50))%nat
  | _ => false
  end.

(** A second invariant of the states of a game: each collection has
    [length + 1] ley-lines, the side length being positive; the diagonals
    show the unclaimed cells of the rows; the tagged ley-lines are
    [line_owned]; the cells are labels. *)
Definition shaped (s : StonehengeState) : Prop :=
  1 <= side s
  /\ Z.of_nat (length (rows (cur_board s))) = side s + 1
  /\ Z.of_nat (length (left (cur_board s))) = side s + 1
  /\ Z.of_nat (length (right (cur_board s))) = side s + 1
  /\ free_cells (left (cur_board s)) ≡ₚ free_cells (rows (cur_board s))
  /\ free_cells (right (cur_board s)) ≡ₚ free_cells (rows (cur_board s))
  /\ Forall line_owned (all_lines (cur_board s))
  /\ Forall (fun l => Forall (fun c => is_label c = true) (cells l))
       (all_lines (cur_board s)).

#[export] Instance line_owned_dec l : Decision (line_owned l).
Proof. unfold line_owned. apply _. Defined.

#[export] Instance shaped_dec s : Decision (shaped s).
Proof. unfold shaped. apply _. Defined.

(** All the cells of a collection, claimed or not. *)
Definition all_cells (ls : list ley_line) : list string :=
  concat (map cells ls).

(** The sequence of legal moves [moves] from the state [s]. *)
Fixpoint legal_play (s : StonehengeState) (moves : list string) : Prop :=
  match moves with
  | [] => True
  | move :: moves' =>
      move ∈ get_possible_moves s /\ legal_play (make_move s move) moves'
  end.

(** *** Sequences of moves on the store *)

(** [make_move] called on the state that the last call returned. *)
Fixpoint play_store (h : heap) (o : state_object) (moves : list string)
  : option (heap * state_object) :=
  match moves with
  | [] => Some (h, o)
  | move :: moves' =>
      match make_move_store h o move with
      | Some (h', o') => play_store h' o' moves'
      | None => None
      end
  end.

(** The state [a] of the doctest of [__str__]. *)
Definition doctest_str : StonehengeState :=
  State false
    (Board [LeyLine "2" ["A"; "2"]; LeyLine "n" ["C"; "D"; "E"];
            LeyLine "n" ["F"; "G"; "H"; "I"]; LeyLine "n" ["J"; "K"; "L"]]
           [LeyLine "n" ["A"; "C"; "F"]; LeyLine "n" ["2"; "D"; "G"; "J"];
            LeyLine "n" ["E"; "H"; "K"]; LeyLine "n" ["I"; "L"]]
           [LeyLine "n" ["2"; "E"; "I"]; LeyLine "n" ["A"; "D"; "H"; "L"];
            LeyLine "n" ["C"; "G"; "K"]; LeyLine "n" ["F"; "J"]])
    0 1 3.

(** * Properties *)

(** ** The doctests of the source *)

Example doctest_get_possible_moves :
  get_possible_moves doctest_state
  = ["A"; "C"; "D"; "E"; "F"; "G"; "H"; "J"; "K"].
Proof. reflexivity. Qed.

Example doctest_make_move :
  tags (left (cur_board (make_move doctest_state "G"))) !! 1%nat = Some "2"
  /\ p2_score (make_move doctest_state "G") = 2
  /\ p1_turn (make_move doctest_state "G") = true
  /\ tags (left (cur_board doctest_state)) !! 1%nat = Some "n"
  /\ p2_score doctest_state = 1.
Proof. repeat split. Qed.

Example doctest_move_to_board :
  snd (move_to_board (1, 0) (LeyLine "n" ["C"; "2"; "E"]) "E" "2")
  = LeyLine "2" ["C"; "2"; "2"].
Proof. reflexivity. Qed.

Example doctest_rough_outcome :
  rough_outcome doctest_rough = 0
  /\ rough_outcome (play doctest_rough ["G"]) = 0
  /\ rough_outcome (play doctest_rough ["G"; "D"]) = -1
  /\ rough_outcome (play doctest_rough ["G"; "D"; "F"]) = 1.
Proof. repeat split. Qed.

(** ** The threshold tests are comparisons of integers *)

Lemma reaches_spec score len : reaches score len = (3 * (len + 1) <=? 2 * score).
Proof.
  unfold reaches, half_ley_lines, Qle_bool. simpl.
  apply eq_true_iff_eq. rewrite !Z.leb_le. lia.
Qed.

Lemma below_spec score len : below score len = (2 * score <? 3 * (len + 1)).
Proof.
  unfold below. fold (reaches score len). rewrite reaches_spec.
  apply eq_true_iff_eq. rewrite negb_true_iff, Z.leb_gt, Z.ltb_lt. tauto.
Qed.

Lemma holds_half_spec p cs :
  holds_half p cs = (Z.of_nat (length cs) <=? 2 * count p cs).
Proof.
  unfold holds_half, Qle_bool. simpl.
  apply eq_true_iff_eq. rewrite !Z.leb_le. lia.
Qed.

(** ** [move_to_board] *)

Lemma count_app p cs1 cs2 : count p (cs1 ++ cs2) = count p cs1 + count p cs2.
Proof. unfold count. rewrite filter_app, length_app. lia. Qed.

Lemma count_cons p c cs :
  count p (c :: cs) = (if String.eqb c p then 1 else 0) + count p cs.
Proof.
  unfold count. rewrite filter_cons.
  destruct (String.eqb_spec c p); case_decide; try congruence; simpl; lia.
Qed.

Lemma count_nonneg p cs : 0 <= count p cs.
Proof. unfold count. lia. Qed.

Lemma count_le_length p cs : count p cs <= Z.of_nat (length cs).
Proof. unfold count. pose proof (length_filter (λ c, c = p) cs). lia. Qed.

Lemma captured_tag_not_n p : captured_tag p <> "n".
Proof. unfold captured_tag. destruct (String.eqb p "2"); discriminate. Qed.

Lemma captured_tag_cases p : captured_tag p = "1" \/ captured_tag p = "2".
Proof. unfold captured_tag. destruct (String.eqb p "2"); auto. Qed.

Lemma cells_upto_length move p l k :
  length (cells_upto move p l k) = length (cells l).
Proof.
  unfold cells_upto. rewrite length_app, length_map, <- length_app.
  by rewrite take_drop.
Qed.

Lemma cells_upto_lookup move p l k :
  cells_upto move p l k !! k = cells l !! k.
Proof.
  unfold cells_upto.
  destruct (decide (k < length (cells l))%nat) as [Hk|Hk].
  - rewrite lookup_app_r; rewrite length_map, length_take; [|lia].
    rewrite lookup_drop. f_equal. lia.
  - rewrite !lookup_ge_None_2; [done|lia|].
    rewrite length_app, length_map, length_take, length_drop. lia.
Qed.

Lemma cells_upto_S move p l k c :
  cells l !! k = Some c ->
  cells_upto move p l (S k)
  = <[k := claim move p c]> (cells_upto move p l k).
Proof.
  intros Hc. unfold cells_upto.
  pose proof (lookup_lt_Some _ _ _ Hc) as Hk.
  rewrite (take_S_r _ _ _ Hc), map_app, <- app_assoc. simpl.
  rewrite (drop_S _ _ _ Hc).
  rewrite insert_app_r_alt; rewrite length_map, length_take; [|lia].
  by replace (k - k `min` length (cells l))%nat with 0%nat by lia.
Qed.

Lemma count_insert_le p cs k :
  count p cs <= count p (<[k := p]> cs).
Proof.
  revert k. induction cs as [|c cs IH]; intros [|k]; simpl; try lia.
  - rewrite !count_cons, String.eqb_refl. destruct (String.eqb c p); lia.
  - rewrite !count_cons. specialize (IH k). lia.
Qed.

Lemma move_to_board_prefix move p scores l k :
  (k <= length (cells l))%nat ->
  fold_left (move_to_board_step move p) (seq 0 k) (scores, l)
  = (add_capture p scores (captured_upto move p l k),
     LeyLine (if captured_upto move p l k then captured_tag p else tag l)
             (cells_upto move p l k)).
Proof.
  induction k as [|k IH]; intros Hk.
  - simpl. unfold captured_upto, cells_upto. simpl. by destruct l.
  - rewrite seq_S, fold_left_app, IH by lia. simpl.
    destruct (cells l !! k) as [c|] eqn:Hc;
      [|apply lookup_ge_None in Hc; lia].
    rewrite cells_upto_lookup, Hc.
    assert (Hex : existsb (λ c, String.eqb c move) (take (S k) (cells l))
                  = existsb (λ c, String.eqb c move) (take k (cells l))
                    || String.eqb c move).
    { rewrite (take_S_r _ _ _ Hc), existsb_app. simpl. by rewrite orb_false_r. }
    pose proof (cells_upto_S move p l k c Hc) as HS.
    assert (HS' : captured_upto move p l (S k)
                  = (existsb (λ c, String.eqb c move) (take k (cells l))
                     || String.eqb c move)
                    && String.eqb (tag l) "n"
                    && holds_half p (<[k := claim move p c]>
                                       (cells_upto move p l k))).
    { unfold captured_upto. by rewrite Hex, HS. }
    rewrite HS', HS. unfold claim.
    destruct (String.eqb c move) eqn:Hm.
    + rewrite orb_true_r. simpl.
      destruct (captured_upto move p l k) eqn:Hcap.
      * simpl. 
        assert (String.eqb (captured_tag p) "n" = false) as ->.
        { apply String.eqb_neq, captured_tag_not_n. }
        simpl.
        unfold captured_upto in Hcap.
        apply andb_true_iff in Hcap as [Hcap Hh].
        apply andb_true_iff in Hcap as [_ ->]. simpl.
        assert (holds_half p (<[k:=p]> (cells_upto move p l k)) = true) as ->.
        { rewrite holds_half_spec in *. apply Z.leb_le in Hh. apply Z.leb_le.
          rewrite length_insert.
          pose proof (count_insert_le p (cells_upto move p l k) k). lia. }
        done.
      * simpl.
        destruct (String.eqb (tag l) "n"); simpl; [|done].
        destruct (holds_half p (<[k:=p]> (cells_upto move p l k))); simpl;
          [|done].
        unfold captured_tag, add_capture.
        by destruct (String.eqb p "2").
    + rewrite orb_false_r. fold (captured_upto move p l k).
      rewrite list_insert_id; [done|]. by rewrite cells_upto_lookup.
Qed.

Lemma move_to_board_spec scores l move p :
  move_to_board scores l move p
  = (add_capture p scores (captures move p l), line_after move p l).
Proof.
  unfold move_to_board. rewrite move_to_board_prefix by lia.
  unfold captured_upto, cells_upto, captures, line_after.
  by rewrite firstn_all, drop_all, app_nil_r.
Qed.

Lemma add_capture_fst p scores b :
  fst (add_capture p scores b)
  = fst scores + (if b && negb (String.eqb p "2") then 1 else 0).
Proof. unfold add_capture. destruct b, (String.eqb p "2"); simpl; lia. Qed.

Lemma add_capture_snd p scores b :
  snd (add_capture p scores b)
  = snd scores + (if b && String.eqb p "2" then 1 else 0).
Proof. unfold add_capture. destruct b, (String.eqb p "2"); simpl; lia. Qed.

Lemma captured_lines_cons move p l ls :
  captured_lines move p (l :: ls)
  = (if captures move p l then 1 else 0) + captured_lines move p ls.
Proof.
  unfold captured_lines. rewrite filter_cons.
  destruct (captures move p l); case_decide; try congruence; simpl; lia.
Qed.

Lemma captured_lines_app move p ls1 ls2 :
  captured_lines move p (ls1 ++ ls2)
  = captured_lines move p ls1 + captured_lines move p ls2.
Proof. unfold captured_lines. rewrite filter_app, length_app. lia. Qed.

Lemma captured_lines_nonneg move p ls : 0 <= captured_lines move p ls.
Proof. unfold captured_lines. lia. Qed.

Lemma move_to_lines_spec scores ls move p :
  move_to_lines scores ls move p
  = ((fst scores
      + (if String.eqb p "2" then 0 else captured_lines move p ls),
      snd scores
      + (if String.eqb p "2" then captured_lines move p ls else 0)),
     map (line_after move p) ls).
Proof.
  revert scores. induction ls as [|l ls IH]; intros scores; simpl.
  - unfold captured_lines. simpl. destruct scores, (String.eqb p "2");
      simpl; f_equal; f_equal; lia.
  - rewrite move_to_board_spec, IH, captured_lines_cons.
    rewrite add_capture_fst, add_capture_snd.
    destruct (captures move p l), (String.eqb p "2"); simpl;
      f_equal; f_equal; lia.
Qed.

Lemma make_move_spec s move :
  make_move s move
  = State (negb (p1_turn s))
      (Board (map (line_after move (mover s)) (rows (cur_board s)))
             (map (line_after move (mover s)) (left (cur_board s)))
             (map (line_after move (mover s)) (right (cur_board s))))
      (p1_score s
       + (if p1_turn s
          then captured_lines move (mover s) (all_lines (cur_board s))
          else 0))
      (p2_score s
       + (if p1_turn s then 0
          else captured_lines move (mover s) (all_lines (cur_board s))))
      (side s).
Proof.
  unfold make_move, mover, all_lines, new_state.
  rewrite !move_to_lines_spec, !captured_lines_app.
  destruct (p1_turn s); simpl; f_equal; lia.
Qed.

(** ** The invariant of the states of a game *)

Lemma unclaimed_spec c : unclaimed c = true <-> c <> "1" /\ c <> "2".
Proof.
  unfold unclaimed. rewrite andb_true_iff, !negb_true_iff.
  by rewrite !String.eqb_neq.
Qed.

Lemma mover_cases s : mover s = "1" \/ mover s = "2".
Proof. unfold mover. destruct (p1_turn s); auto. Qed.

Lemma mover_claimed s : unclaimed (mover s) = false.
Proof. destruct (mover_cases s) as [-> | ->]; reflexivity. Qed.

Lemma claim_absent move p cs :
  existsb (fun c => String.eqb c move) cs = false ->
  map (claim move p) cs = cs.
Proof.
  induction cs as [|c cs IH]; simpl; [done|].
  intros [Hc Hcs]%orb_false_iff. unfold claim at 1. rewrite Hc.
  by rewrite IH.
Qed.

Lemma count_claim_other q move p cs :
  q <> p -> q <> move -> count q (map (claim move p) cs) = count q cs.
Proof.
  intros Hp Hm. induction cs as [|c cs IH]; simpl; [done|].
  rewrite !count_cons, IH. unfold claim.
  destruct (String.eqb_spec c move) as [->|];
    repeat match goal with |- context [String.eqb ?a ?b] =>
             destruct (String.eqb_spec a b) end; congruence.
Qed.

Lemma filter_unclaimed_claim move p cs :
  unclaimed p = false ->
  filter (fun c => unclaimed c = true) (map (claim move p) cs)
  = filter (fun c => c <> move) (filter (fun c => unclaimed c = true) cs).
Proof.
  intros Hp. induction cs as [|c cs IH]; simpl; [done|].
  rewrite !filter_cons, IH. unfold claim.
  destruct (String.eqb_spec c move) as [->|Hne].
  - rewrite decide_False by congruence.
    destruct (decide (unclaimed move = true)); [|done].
    rewrite filter_cons. by rewrite decide_False by tauto.
  - destruct (decide (unclaimed c = true)); [|done].
    rewrite filter_cons. by rewrite decide_True.
Qed.

Lemma free_cells_after move p rs :
  unclaimed p = false ->
  free_cells (map (line_after move p) rs)
  = filter (fun c => c <> move) (free_cells rs).
Proof.
  intros Hp. unfold free_cells.
  induction rs as [|r rs IH]; simpl; [done|].
  by rewrite filter_app, IH, filter_unclaimed_claim.
Qed.

Lemma line_ok_after move p l :
  p = "1" \/ p = "2" -> unclaimed move = true ->
  line_ok l -> line_ok (line_after move p l).
Proof.
  intros Hp [Hm1 Hm2]%unclaimed_spec [Htag Hn]. unfold line_after.
  destruct (captures move p l) eqn:Hcap; split; simpl.
  - destruct (captured_tag_cases p); auto.
  - intros H. by apply captured_tag_not_n in H.
  - done.
  - intros Ht. specialize (Hn Ht). rewrite length_map.
    unfold captures in Hcap. rewrite Ht in Hcap. simpl in Hcap.
    rewrite andb_true_r in Hcap.
    apply andb_false_iff in Hcap as [Hex | Hh].
    + by rewrite (claim_absent _ _ _ Hex).
    + rewrite holds_half_spec, length_map in Hh. apply Z.leb_gt in Hh.
      destruct Hp as [-> | ->].
      * split; [lia|]. rewrite count_claim_other; [tauto|done|congruence].
      * split; [|lia]. rewrite count_claim_other; [tauto|done|congruence].
Qed.

Lemma tagged_cons p l ls :
  tagged p (l :: ls) = (if String.eqb (tag l) p then 1 else 0) + tagged p ls.
Proof.
  unfold tagged. rewrite filter_cons.
  destruct (String.eqb_spec (tag l) p); case_decide; try congruence;
    simpl; lia.
Qed.

Lemma tagged_after q move p ls :
  q = "1" \/ q = "2" -> p = "1" \/ p = "2" ->
  tagged q (map (line_after move p) ls)
  = tagged q ls + (if String.eqb p q then captured_lines move p ls else 0).
Proof.
  intros Hq Hp. induction ls as [|l ls IH]; simpl.
  - unfold tagged, captured_lines. simpl. by destruct (String.eqb p q).
  - rewrite !tagged_cons, IH, captured_lines_cons. unfold line_after at 1.
    simpl. destruct (captures move p l) eqn:Hcap.
    + unfold captures in Hcap.
      apply andb_true_iff in Hcap as [[_ Hn%String.eqb_eq]%andb_true_iff _].
      rewrite Hn.
      destruct Hq as [-> | ->], Hp as [-> | ->]; simpl; lia.
    + destruct (String.eqb p q); lia.
Qed.

Lemma all_lines_after move p b :
  all_lines (Board (map (line_after move p) (rows b))
                   (map (line_after move p) (left b))
                   (map (line_after move p) (right b)))
  = map (line_after move p) (all_lines b).
Proof. unfold all_lines. simpl. by rewrite !map_app. Qed.

Lemma legal_move_free s move :
  move ∈ get_possible_moves s -> move ∈ free_cells (rows (cur_board s)).
Proof.
  unfold get_possible_moves.
  destruct (_ || _); [by intros ?%elem_of_nil|done].
Qed.

Lemma free_cells_unclaimed c rs : c ∈ free_cells rs -> unclaimed c = true.
Proof.
  unfold free_cells. induction rs as [|r rs IH]; simpl.
  - by intros ?%elem_of_nil.
  - intros [Hc | Hc]%elem_of_app; [|auto].
    by apply list_elem_of_filter in Hc as [? _].
Qed.

Lemma legal_move_unclaimed s move :
  move ∈ get_possible_moves s -> unclaimed move = true.
Proof. intros H%legal_move_free. by eapply free_cells_unclaimed. Qed.

Lemma consistent_make_move s move :
  consistent s -> move ∈ get_possible_moves s ->
  consistent (make_move s move).
Proof.
  intros (Hok & H1 & H2 & Hlen & Hviews & Hnd) Hmove.
  pose proof (legal_move_unclaimed _ _ Hmove) as Hm.
  pose proof (mover_cases s) as Hp. pose proof (mover_claimed s) as Hpc.
  rewrite make_move_spec. unfold consistent. simpl.
  rewrite all_lines_after, free_cells_after by done.
  split_and!.
  - rewrite Forall_fmap. eapply Forall_impl; [exact Hok|].
    intros l Hl. by apply line_ok_after.
  - rewrite tagged_after, H1 by auto. unfold mover.
    by destruct (p1_turn s).
  - rewrite tagged_after, H2 by auto. unfold mover.
    by destruct (p1_turn s).
  - by rewrite length_map.
  - rewrite Forall_fmap. eapply Forall_impl; [exact Hviews|].
    intros l Hl. simpl. rewrite Forall_fmap.
    eapply Forall_impl; [exact Hl|]. intros c Hc. simpl. intros Hu.
    unfold claim in *. destruct (String.eqb_spec c move) as [->|Hne].
    + congruence.
    + apply list_elem_of_filter. auto.
  - by apply NoDup_filter.
Qed.

(** ** The games that [StonehengeGame.__init__] creates *)

Lemma build_rows_S k len rs index_letter num_cells :
  build_rows (S k) len rs index_letter num_cells
  = match take_letters (Z.to_nat num_cells) index_letter [] with
    | Some (cs, index_letter') =>
        build_rows k len (rs ++ [LeyLine "n" cs]) index_letter'
          (if len <? num_cells then num_cells - 1 else num_cells + 1)
    | None => None
    end.
Proof. reflexivity. Qed.

(** From side length 6 on the alphabet is too short: the sixth row asks for
    the twenty-seventh letter. *)
Lemma build_rows_alphabet len :
  6 <= len -> build_rows (Z.to_nat (len + 1)) len [] 0 2 = None.
Proof.
  intros Hlen.
  replace (Z.to_nat (len + 1))
    with (S (S (S (S (S (S (Z.to_nat (len - 5)))))))) by lia.
  do 5 (rewrite build_rows_S;
        match goal with |- context [take_letters ?n ?i ?l] =>
          let v := eval vm_compute in (take_letters n i l) in
          change (take_letters n i l) with v
        end; cbv iota beta;
        match goal with |- context [len <? ?c] =>
          rewrite (proj2 (Z.ltb_ge len c)) by lia
        end; cbv iota;
        match goal with |- context [build_rows _ _ _ _ ?c] =>
          let v := eval vm_compute in c in change c with v
        end).
  rewrite build_rows_S. reflexivity.
Qed.

Lemma new_game_side len is_p1_turn g :
  new_game len is_p1_turn = Some g -> 1 <= len <= 5.
Proof.
  intros Hg.
  destruct (Z_lt_le_dec len 0) as [Hneg|Hpos].
  - exfalso. unfold new_game in Hg.
    replace (Z.to_nat (len + 1)) with 0%nat in Hg by lia. simpl in Hg.
    unfold lookup_key in Hg. rewrite (proj2 (Z.ltb_lt len 0)) in Hg by lia.
    discriminate.
  - destruct (Z_lt_le_dec len 6) as [Hsmall|Hbig].
    + assert (len = 0 \/ 1 <= len <= 5) as [-> | ?] by lia; [|done].
      vm_compute in Hg. discriminate.
    + unfold new_game in Hg. rewrite build_rows_alphabet in Hg by done.
      discriminate.
Qed.

Lemma new_game_consistent len is_p1_turn g :
  new_game len is_p1_turn = Some g ->
  consistent (current_state g)
  /\ side (current_state g) = len /\ game_side g = len.
Proof.
  intros Hg. pose proof (new_game_side _ _ _ Hg) as Hlen.
  assert (len = 1 \/ len = 2 \/ len = 3 \/ len = 4 \/ len = 5)
    as [-> | [-> | [-> | [-> | ->]]]] by lia;
    destruct is_p1_turn; vm_compute in Hg; injection Hg as <-;
    (split; [|done]);
    apply (bool_decide_unpack _); vm_compute; exact I.
Qed.

Lemma reachable_consistent len is_p1_turn g s :
  new_game len is_p1_turn = Some g -> reachable g s ->
  consistent s /\ side s = len.
Proof.
  intros Hg Hs. destruct (new_game_consistent _ _ _ Hg) as (H0 & Hside & _).
  induction Hs as [|s move _ [IH1 IH2] Hmove]; [done|].
  split; [by apply consistent_make_move|].
  by rewrite make_move_spec.
Qed.

Lemma reachable_trans g s s' :
  reachable g s -> reachable (set_current_state g s) s' -> reachable g s'.
Proof.
  intros Hs Hs'. induction Hs' as [|s' move _ IH Hmove]; [done|].
  by apply reachable_move.
Qed.

(** ** Terminal agreement *)

Lemma count_claimed cs :
  Forall (fun c => unclaimed c = false) cs ->
  count "1" cs + count "2" cs = Z.of_nat (length cs).
Proof.
  induction 1 as [|c cs Hc _ IH]; [done|].
  rewrite !count_cons. simpl length. unfold unclaimed in Hc.
  destruct (String.eqb_spec c "1") as [->|]; simpl in *; [lia|].
  destruct (String.eqb_spec c "2") as [->|]; simpl in *; [lia|done].
Qed.

Lemma claimed_line_captured l :
  line_ok l -> Forall (fun c => unclaimed c = false) (cells l) ->
  tag l = "1" \/ tag l = "2".
Proof.
  intros [[Hn | Htag] Hhalf] Hcs; [|done].
  specialize (Hhalf Hn). apply count_claimed in Hcs. lia.
Qed.

Lemma tagged_all ls :
  Forall (fun l => tag l = "1" \/ tag l = "2") ls ->
  tagged "1" ls + tagged "2" ls = Z.of_nat (length ls).
Proof.
  induction 1 as [|l ls Hl _ IH]; [done|].
  rewrite !tagged_cons. simpl length. destruct Hl as [-> | ->]; simpl; lia.
Qed.

(** When no cell is left, every ley-line has been captured, so that one of
    the players has half of them. *)
Lemma no_free_cell_over s :
  consistent s -> free_cells (rows (cur_board s)) = [] ->
  reaches (p1_score s) (side s) || reaches (p2_score s) (side s) = true.
Proof.
  intros (Hok & H1 & H2 & Hlen & Hviews & _) Hfree.
  assert (Hall : Forall (fun l => tag l = "1" \/ tag l = "2")
                   (all_lines (cur_board s))).
  { apply Forall_forall. intros l Hl.
    apply claimed_line_captured; [by eapply Forall_forall in Hok|].
    apply Forall_forall. intros c Hc.
    destruct (unclaimed c) eqn:Hu; [|done].
    rewrite Forall_forall in Hviews. specialize (Hviews l Hl).
    rewrite Forall_forall in Hviews. specialize (Hviews c Hc Hu).
    rewrite Hfree in Hviews. by apply elem_of_nil in Hviews. }
  apply tagged_all in Hall. rewrite !reaches_spec.
  apply orb_true_iff. rewrite !Z.leb_le. lia.
Qed.

Lemma get_possible_moves_over s :
  reaches (p1_score s) (side s) || reaches (p2_score s) (side s) = true ->
  get_possible_moves s = [].
Proof. unfold get_possible_moves. by intros ->. Qed.

Lemma get_possible_moves_not_over s :
  reaches (p1_score s) (side s) || reaches (p2_score s) (side s) = false ->
  get_possible_moves s = free_cells (rows (cur_board s)).
Proof. unfold get_possible_moves. by intros ->. Qed.

Lemma consistent_moves_over s :
  consistent s ->
  get_possible_moves s = [] <->
  reaches (p1_score s) (side s) || reaches (p2_score s) (side s) = true.
Proof.
  intros Hs. split; [|apply get_possible_moves_over].
  intros Hm.
  destruct (reaches (p1_score s) (side s) || reaches (p2_score s) (side s))
    eqn:Hover; [done|].
  rewrite get_possible_moves_not_over in Hm by done.
  by rewrite no_free_cell_over in Hover.
Qed.

(** C3. In every state of a game of side length [len], [is_over] holds
    exactly when [get_possible_moves] is empty; it holds exactly when one of
    the scores is at least the rational [3 * (len + 1) / 2], that is, at
    least the integer ceiling of it; and a score that reaches this threshold
    ends the game whatever cells are still unclaimed (the last part puts no
    condition on the cells). *)
Theorem terminal_agreement len is_p1_turn g s :
  new_game len is_p1_turn = Some g -> reachable g s ->
  (is_over g s = true <-> get_possible_moves s = [])
  /\ (is_over g s = true <->
      (3 * (len + 1) # 2 <= inject_Z (p1_score s))%Q
      \/ (3 * (len + 1) # 2 <= inject_Z (p2_score s))%Q)
  /\ (is_over g s = true <->
      (3 * (len + 1) + 1) / 2 <= p1_score s
      \/ (3 * (len + 1) + 1) / 2 <= p2_score s)
  /\ ((3 * (len + 1) + 1) / 2 <= p1_score s
      \/ (3 * (len + 1) + 1) / 2 <= p2_score s ->
      is_over g s = true /\ get_possible_moves s = []).
Proof.
  intros Hg Hs.
  destruct (reachable_consistent _ _ _ _ Hg Hs) as [Hcons Hside].
  destruct (new_game_consistent _ _ _ Hg) as (_ & _ & Hgside).
  assert (Hover : is_over g s
                  = reaches (p1_score s) (side s)
                    || reaches (p2_score s) (side s)).
  { unfold is_over. by rewrite Hgside, Hside. }
  assert (Hint : is_over g s = true <->
                 (3 * (len + 1) + 1) / 2 <= p1_score s
                 \/ (3 * (len + 1) + 1) / 2 <= p2_score s).
  { rewrite Hover, Hside, orb_true_iff, !reaches_spec, !Z.leb_le.
    pose proof (Z.div_mod (3 * (len + 1) + 1) 2).
    pose proof (Z.mod_pos_bound (3 * (len + 1) + 1) 2). lia. }
  split_and!.
  - rewrite Hover. symmetry. by apply consistent_moves_over.
  - rewrite Hover, Hside, orb_true_iff. unfold reaches, half_ley_lines.
    by rewrite !Qle_bool_iff.
  - done.
  - intros Hscore. apply Hint in Hscore. split; [done|].
    apply get_possible_moves_over. by rewrite <- Hover.
Qed.

Lemma new_game_1 : new_game 1 true = Some game_1.
Proof. reflexivity. Qed.

Lemma new_game_2 : new_game 2 true = Some game_2.
Proof. reflexivity. Qed.

Lemma reachable_play g moves :
  (forall k move, moves !! k = Some move ->
     move ∈ get_possible_moves (play (current_state g) (take k moves))) ->
  reachable g (play (current_state g) moves).
Proof.
  induction moves as [|move moves IH] using rev_ind; intros H.
  - apply reachable_start.
  - unfold play. rewrite fold_left_app. simpl. apply reachable_move.
    + apply IH. intros k m Hk. specialize (H k m).
      rewrite lookup_app_l in H by (by eapply lookup_lt_Some).
      rewrite take_app_le in H by (apply Nat.lt_le_incl; by eapply lookup_lt_Some).
      auto.
    + specialize (H (length moves) move).
      rewrite lookup_app_r, Nat.sub_diag, take_app_length in H by lia.
      by apply H.
Qed.

Lemma terminal_agreement_witness :
  let s := make_move (current_state game_1) "A" in
  is_over game_1 s = true /\ get_possible_moves s = []
  /\ free_cells (rows (cur_board s)) = ["B"; "C"].
Proof.
  assert (Hs : reachable game_1 (make_move (current_state game_1) "A")).
  { apply reachable_move; [apply reachable_start|]. apply list_elem_of_here. }
  destruct (terminal_agreement 1 true game_1 _ new_game_1 Hs)
    as (_ & _ & _ & H4).
  destruct H4 as [H5 H6]; [left; vm_compute; discriminate|].
  split; [exact H5|]. split; [exact H6|reflexivity].
Defined.

(** ** The first move on the smallest board *)

(** C4, as the source has it. On the fresh board of side length 1 with
    player 1 to move, the move ["A"] captures three ley-lines for player 1:
    the row [A, B], the left diagonal [A] and the right diagonal [A, C].
    Player 1 then has score 3, which is the threshold for side length 1: the
    state is over and has no possible move. *)
Theorem first_move_side_1 :
  new_game 1 true = Some game_1
  /\ make_move (current_state game_1) "A"
     = State false
         (Board [LeyLine "1" ["1"; "B"]; LeyLine "n" ["C"]]
                [LeyLine "1" ["1"]; LeyLine "n" ["B"; "C"]]
                [LeyLine "n" ["B"]; LeyLine "1" ["1"; "C"]])
         3 0 1
  /\ is_over game_1 (make_move (current_state game_1) "A") = true
  /\ get_possible_moves (make_move (current_state game_1) "A") = [].
Proof. repeat split. Qed.

(** C4, as the spec has it, fails: after ["A"] the score of player 1 is not
    2 and the state is over. *)
Lemma first_move_side_1_not_two :
  ~ (p1_score (make_move (current_state game_1) "A") = 2
     /\ is_over game_1 (make_move (current_state game_1) "A") = false).
Proof. intros (H & _). vm_compute in H. discriminate. Qed.

(** ** Labels that name no cell *)

Lemma line_after_absent move p l :
  move ∉ cells l -> line_after move p l = l.
Proof.
  intros Hm.
  assert (Hex : existsb (fun c => String.eqb c move) (cells l) = false).
  { apply not_true_iff_false. intros (c & Hc & ->%String.eqb_eq)%existsb_exists.
    by apply Hm, list_elem_of_In. }
  unfold line_after, captures. rewrite Hex, claim_absent by done.
  by destruct l.
Qed.

Lemma lines_after_absent move p ls :
  Forall (fun l => move ∉ cells l) ls ->
  map (line_after move p) ls = ls
  /\ captured_lines move p ls = 0.
Proof.
  induction 1 as [|l ls Hl _ [IH1 IH2]]; [done|].
  simpl. rewrite captured_lines_cons, IH1, IH2, line_after_absent by done.
  split; [done|]. unfold captures.
  assert (existsb (fun c => String.eqb c move) (cells l) = false) as ->; [|done].
  apply not_true_iff_false. intros (c & Hc & ->%String.eqb_eq)%existsb_exists.
  by apply Hl, list_elem_of_In.
Qed.

(** C5, as the source has it. [make_move] never raises; given a label that
    is written in no cell of the board (so that it names no unclaimed cell)
    it returns a state with the board and the scores it started from, in
    which the turn has passed to the other player. *)
Theorem make_move_unknown_label s move :
  ~ on_board move (cur_board s) ->
  call_make_move s move
  = Returns (State (negb (p1_turn s)) (cur_board s)
                   (p1_score s) (p2_score s) (side s)).
Proof.
  intros Habs%not_Exists_Forall; [|intros l; apply _].
  unfold call_make_move. f_equal. rewrite make_move_spec.
  pose proof (lines_after_absent move (mover s) _ Habs) as [Hl Hc].
  unfold all_lines in *.
  apply Forall_app in Habs as [Hr Habs]. apply Forall_app in Habs as [Hd Hdr].
  rewrite (proj1 (lines_after_absent move (mover s) _ Hr)).
  rewrite (proj1 (lines_after_absent move (mover s) _ Hd)).
  rewrite (proj1 (lines_after_absent move (mover s) _ Hdr)).
  rewrite Hc. destruct (cur_board s), (p1_turn s); simpl; f_equal; lia.
Qed.

Lemma make_move_unknown_label_witness :
  call_make_move (current_state game_1) "Z"
  = Returns (State false board_1 0 0 1).
Proof.
  apply (make_move_unknown_label (current_state game_1) "Z").
  apply (bool_decide_unpack _). vm_compute. exact I.
Defined.

(** C5, as the spec has it, fails: ["Z"] names no cell of the fresh board of
    side length 1, and [make_move] does not raise on it. *)
Lemma make_move_unknown_label_returns :
  ~ (forall s move,
       move ∉ free_cells (rows (cur_board s)) ->
       exists e, call_make_move s move = Raises e).
Proof.
  intros H. destruct (H (current_state game_1) "Z") as [e He].
  - apply (bool_decide_unpack _). vm_compute. exact I.
  - discriminate.
Qed.

(** ** Captures are final *)

Lemma line_after_captured move p l :
  tag l <> "n" -> tag (line_after move p l) = tag l.
Proof.
  intros Hn. unfold line_after, captures.
  rewrite (proj2 (String.eqb_neq _ _) Hn). simpl.
  by rewrite andb_false_r.
Qed.

Lemma tags_after move p ls i t :
  t <> "n" -> tags ls !! i = Some t ->
  tags (map (line_after move p) ls) !! i = Some t.
Proof.
  unfold tags. intros Ht. rewrite !list_lookup_fmap.
  destruct (ls !! i) as [l|]; [|done]. cbn [fmap option_fmap option_map].
  intros [= <-]. by rewrite line_after_captured.
Qed.

(** C7. A ley-line that is tagged as captured by player 1 or by player 2
    keeps its tag through every sequence of calls of [make_move] that
    follows, whatever the state and the labels played (the states of a game
    and its legal moves among them): this holds for the rows, the left
    diagonals and the right diagonals. *)
Theorem capture_is_final s moves i t :
  t = "1" \/ t = "2" ->
  (tags (rows (cur_board s)) !! i = Some t ->
   tags (rows (cur_board (play s moves))) !! i = Some t)
  /\ (tags (left (cur_board s)) !! i = Some t ->
      tags (left (cur_board (play s moves))) !! i = Some t)
  /\ (tags (right (cur_board s)) !! i = Some t ->
      tags (right (cur_board (play s moves))) !! i = Some t).
Proof.
  intros Ht. assert (t <> "n") as Hn by (destruct Ht; congruence).
  revert s. induction moves as [|move moves IH]; intros s; [done|].
  simpl. specialize (IH (make_move s move)). unfold play in *.
  destruct IH as (IH1 & IH2 & IH3). rewrite make_move_spec in *. simpl in *.
  split_and!; intros H; [apply IH1|apply IH2|apply IH3];
    by apply tags_after.
Qed.

Lemma capture_is_final_witness :
  tags (rows (cur_board (play (current_state game_2) ["A"; "C"; "D"; "E"])))
    !! 0%nat = Some "1".
Proof.
  apply (capture_is_final (play (current_state game_2) ["A"]) ["C"; "D"; "E"]
           0 "1"); [by left|reflexivity].
Defined.

(** ** The moves shrink by one *)

Lemma filter_ne_length (l : list string) x :
  NoDup l -> x ∈ l -> S (length (filter (fun c => c <> x) l)) = length l.
Proof.
  induction 1 as [|y l Hy Hnd IH]; [by intros ?%elem_of_nil|].
  rewrite filter_cons. intros [->|Hx]%elem_of_cons.
  - rewrite decide_False by tauto. simpl. f_equal.
    clear IH. induction l as [|z l IH]; [done|].
    apply not_elem_of_cons in Hy as [Hz Hy]. apply NoDup_cons in Hnd as [_ Hnd].
    rewrite filter_cons, decide_True by done. simpl. f_equal. auto.
  - rewrite decide_True by (intros ->; done). simpl. f_equal. auto.
Qed.

(** C8. In a state of a game, a legal move leads to a state that either is
    not over, and then has exactly one possible move less, or is over, and
    then has no possible move. *)
Theorem moves_shrink_by_one len is_p1_turn g s move :
  new_game len is_p1_turn = Some g -> reachable g s ->
  move ∈ get_possible_moves s ->
  (is_over g (make_move s move) = false ->
   Z.of_nat (length (get_possible_moves (make_move s move)))
   = Z.of_nat (length (get_possible_moves s)) - 1)
  /\ (is_over g (make_move s move) = true ->
      length (get_possible_moves (make_move s move)) = 0%nat).
Proof.
  intros Hg Hs Hmove.
  destruct (reachable_consistent _ _ _ _ Hg Hs) as [Hcons Hside].
  destruct (new_game_consistent _ _ _ Hg) as (_ & _ & Hgside).
  assert (Hside' : side (make_move s move) = len)
    by (by rewrite make_move_spec).
  unfold is_over. rewrite Hgside, <- Hside'. split; intros Hover.
  - rewrite get_possible_moves_not_over by done.
    pose proof (legal_move_free _ _ Hmove) as Hfree.
    assert (get_possible_moves s = free_cells (rows (cur_board s))) as ->.
    { unfold get_possible_moves in *.
      destruct (_ || _); [by apply elem_of_nil in Hmove|done]. }
    rewrite make_move_spec. simpl.
    rewrite free_cells_after by apply mover_claimed.
    destruct Hcons as (_ & _ & _ & _ & _ & Hnd).
    pose proof (filter_ne_length _ _ Hnd Hfree). lia.
  - by rewrite get_possible_moves_over.
Qed.

Lemma moves_shrink_by_one_witness :
  Z.of_nat (length (get_possible_moves (make_move (current_state game_2) "D")))
  = Z.of_nat (length (get_possible_moves (current_state game_2))) - 1
  /\ length (get_possible_moves (make_move (current_state game_1) "A"))
     = 0%nat.
Proof.
  split.
  - apply (moves_shrink_by_one 2 true game_2 (current_state game_2) "D"
             new_game_2 (reachable_start _)); [|reflexivity].
    apply (bool_decide_unpack _). vm_compute. exact I.
  - apply (moves_shrink_by_one 1 true game_1 (current_state game_1) "A"
             new_game_1 (reachable_start _)); [|reflexivity].
    apply (bool_decide_unpack _). vm_compute. exact I.
Defined.

(** ** The heuristic *)

Lemma rough_outcome_loop_bounds s moves other_win :
  -1 <= rough_outcome_loop s moves other_win <= 1.
Proof.
  revert other_win. induction moves as [|move moves IH]; intros other_win;
    simpl.
  - unfold LOSE, DRAW. destruct other_win; lia.
  - repeat case_match; auto. unfold WIN. lia.
Qed.

(** C9. [rough_outcome] returns a value between -1 and 1 in every state
    (the states of a game among them), and returns -1 when there is no
    possible move. *)
Theorem rough_outcome_bounds s :
  -1 <= rough_outcome s <= 1
  /\ (get_possible_moves s = [] -> rough_outcome s = -1).
Proof.
  unfold rough_outcome. split.
  - destruct (get_possible_moves s); [unfold LOSE; lia|].
    apply rough_outcome_loop_bounds.
  - by intros ->.
Qed.

Lemma rough_outcome_bounds_witness :
  rough_outcome (make_move (current_state game_1) "A") = -1.
Proof.
  apply (rough_outcome_bounds (make_move (current_state game_1) "A")).
  reflexivity.
Defined.

(** ** The score of a state that is over *)

Lemma is_over_set g s s' :
  is_over (set_current_state g s') s = is_over g s.
Proof. reflexivity. Qed.

Lemma leaf_score_over g s :
  is_over g s = true -> leaf_score (set_current_state g s) = -1.
Proof.
  intros Hover. unfold leaf_score, is_winner. simpl.
  rewrite !is_over_set, Hover. unfold get_current_player_name.
  by destruct (p1_turn s).
Qed.

(** C10. When a state is over and is the current state of the game, exactly
    one of [is_winner('p1')] and [is_winner('p2')] holds, and it is the one
    of the player who is not to move; then [max_score] returns -1 and the
    iterative evaluator assigns the score -1, so that neither takes its
    branch for a draw.  This holds for every state that is over, the states
    of a game among them. *)
Theorem terminal_score_is_loss g s fuel :
  is_over g s = true ->
  is_winner (set_current_state g s) "p1"
  = negb (is_winner (set_current_state g s) "p2")
  /\ is_winner (set_current_state g s) (if p1_turn s then "p2" else "p1")
     = true
  /\ is_winner (set_current_state g s) (get_current_player_name s) = false
  /\ max_score (S fuel) s g = Some (-1, set_current_state g s)
  /\ leaf_score (set_current_state g s) = -1.
Proof.
  intros Hover. simpl. unfold bind, put_state, get_game, leaf_score, is_winner.
  simpl. rewrite !is_over_set, Hover. unfold get_current_player_name.
  by destruct (p1_turn s).
Qed.

Lemma terminal_score_is_loss_witness :
  max_score 1 (make_move (current_state game_1) "A") game_1
  = Some (-1, set_current_state game_1
                (make_move (current_state game_1) "A"))
  /\ leaf_score (set_current_state game_1
                   (make_move (current_state game_1) "A")) = -1.
Proof.
  destruct (terminal_score_is_loss game_1
              (make_move (current_state game_1) "A") 0 eq_refl)
    as (_ & _ & _ & H1 & H2).
  split; [exact H1|exact H2].
Defined.

(** ** Lists of scores *)

Lemma maximum_fold l x : x <= fold_left Z.max l x
  /\ (forall y, y ∈ l -> y <= fold_left Z.max l x)
  /\ (fold_left Z.max l x = x \/ fold_left Z.max l x ∈ l).
Proof.
  revert x. induction l as [|y l IH]; intros x; simpl.
  - split_and!; [lia| by intros ? ?%elem_of_nil | by left].
  - destruct (IH (Z.max x y)) as (H1 & H2 & H3). split_and!.
    + lia.
    + intros z [->|Hz]%elem_of_cons; [lia|auto].
    + destruct H3 as [H3|H3].
      * rewrite H3. destruct (Z.max_spec x y) as [[_ ->]|[_ ->]];
          [right; left|by left].
      * right. by right.
Qed.

Lemma maximum_spec l m :
  maximum l = Some m -> m ∈ l /\ forall y, y ∈ l -> y <= m.
Proof.
  destruct l as [|x l]; [done|]. simpl. intros [= <-].
  destruct (maximum_fold l x) as (H1 & H2 & H3). split.
  - destruct H3 as [-> | H3]; [left|by right].
  - intros y [->|Hy]%elem_of_cons; auto.
Qed.

Lemma maximum_defined l : l <> [] -> exists m, maximum l = Some m.
Proof. destruct l; [done|]. simpl. eauto. Qed.

Lemma index_of_spec v l :
  v ∈ l -> exists i, index_of v l = Some i /\ l !! i = Some v.
Proof.
  induction l as [|x l IH]; [by intros ?%elem_of_nil|].
  simpl. destruct (Z.eqb_spec x v) as [->|Hne].
  - exists 0%nat. done.
  - intros [->|Hv]%elem_of_cons; [done|].
    destruct (IH Hv) as (i & -> & Hi). exists (S i). done.
Qed.

(** The maximum is not changed by the [-1] that the iterative evaluator
    appends, as no score is below -1. *)
Lemma maximum_default l m :
  maximum l = Some m -> (forall y, y ∈ l -> -1 <= y) ->
  maximum (l ++ [-1]) = Some m.
Proof.
  intros Hm Hl. destruct (maximum_spec _ _ Hm) as [Hin Hmax].
  destruct l as [|x l]; [done|]. simpl in *.
  rewrite fold_left_app. simpl. injection Hm as ->.
  f_equal. specialize (Hl _ Hin). lia.
Qed.

Lemma map_option_ext {A B} (f h : A -> option B) l :
  (forall a, a ∈ l -> f a = h a) -> map_option f l = map_option h l.
Proof.
  induction l as [|a l IH]; intros H; simpl; [done|].
  rewrite H by left. rewrite IH; [done|]. intros; apply H. by right.
Qed.

Lemma map_option_fmap {A B C} (f : A -> option B) (k : B -> C) l :
  map_option (fun a => k <$> f a) l = map k <$> map_option f l.
Proof.
  induction l as [|a l IH]; simpl; [done|].
  rewrite IH. by destruct (f a), (map_option f l).
Qed.

Lemma map_option_length {A B} (f : A -> option B) l bs :
  map_option f l = Some bs -> length bs = length l.
Proof.
  revert bs. induction l as [|a l IH]; intros bs; simpl.
  - by intros [= <-].
  - destruct (f a); [|done]. destruct (map_option f l); [|done].
    intros [= <-]. simpl. f_equal. auto.
Qed.

Lemma map_option_lookup {A B} (f : A -> option B) l bs i a :
  map_option f l = Some bs -> l !! i = Some a ->
  exists b, bs !! i = Some b /\ f a = Some b.
Proof.
  revert bs i. induction l as [|a' l IH]; intros bs i; simpl; [done|].
  destruct (f a') as [b'|] eqn:Hb; [|done].
  destruct (map_option f l) as [bs'|]; [|done].
  intros [= <-]. destruct i as [|i]; simpl.
  - intros [= <-]. eauto.
  - intros Hi. by eapply IH.
Qed.

Lemma map_option_defined {A B} (f : A -> option B) l :
  (forall a, a ∈ l -> is_Some (f a)) -> is_Some (map_option f l).
Proof.
  induction l as [|a l IH]; intros H; simpl; [done|].
  destruct (H a) as [b ->]; [left|].
  destruct IH as [bs ->]; [|done]. intros; apply H. by right.
Qed.

Lemma map_option_elem {A B} (f : A -> option B) l bs b :
  map_option f l = Some bs -> b ∈ bs -> exists a, a ∈ l /\ f a = Some b.
Proof.
  revert bs. induction l as [|a l IH]; intros bs; simpl.
  - intros [= <-] ?%elem_of_nil. done.
  - destruct (f a) as [b'|] eqn:Hb; [|done].
    destruct (map_option f l) as [bs'|]; [|done].
    intros [= <-] [->|Hin]%elem_of_cons.
    + exists a. split; [left|done].
    + destruct (IH _ eq_refl Hin) as (a' & ? & ?). exists a'.
      split; [by right|done].
Qed.

(** ** The game object through the evaluators *)

Lemma same_game_refl g : same_game g g.
Proof. exists (current_state g). by destruct g. Qed.

Lemma same_game_trans g1 g2 g3 :
  same_game g1 g2 -> same_game g2 g3 -> same_game g1 g3.
Proof. intros [s1 ->] [s2 ->]. by exists s2. Qed.

Lemma same_game_set g s : same_game g (set_current_state g s).
Proof. by exists s. Qed.

Lemma same_game_side g g' : same_game g g' -> game_side g' = game_side g.
Proof. by intros [s ->]. Qed.

Lemma same_game_restore g g' :
  same_game g g' -> set_current_state g' (current_state g) = g.
Proof. intros [s ->]. by destruct g. Qed.

(** A list comprehension over calls that compute [h] and only assign
    [current_state] computes the list of the [h]. *)
Lemma for_each_spec {A B} (f : A -> M B) (h : A -> option B) l g :
  (forall a g', a ∈ l -> same_game g g' ->
     match f a g' with
     | Some (b, g'') => h a = Some b /\ same_game g g''
     | None => h a = None
     end) ->
  match for_each f l g with
  | Some (bs, g') => map_option h l = Some bs /\ same_game g g'
  | None => map_option h l = None
  end.
Proof.
  revert g. induction l as [|a l IH]; intros g H; simpl.
  - split; [done|apply same_game_refl].
  - unfold bind. specialize (H a g (list_elem_of_here _ _) (same_game_refl g)) as Ha.
    destruct (f a g) as [[b g1]|]; [|by rewrite Ha].
    destruct Ha as [-> Hg1].
    specialize (IH g1). destruct (for_each f l g1) as [[bs g2]|].
    + destruct IH as [-> Hg2].
      * intros a' g' Ha' Hg'.
        specialize (H a' g' (list_elem_of_further _ _ _ Ha')
                      (same_game_trans _ _ _ Hg1 Hg')).
        destruct (f a' g') as [[b' g'']|]; [|done].
        destruct H as [? [s ->]]. split; [done|].
        destruct Hg1 as [s1 ->]. by exists s.
      * split; [done|]. by eapply same_game_trans.
    + rewrite IH; [done|].
      intros a' g' Ha' Hg'.
      specialize (H a' g' (list_elem_of_further _ _ _ Ha')
                    (same_game_trans _ _ _ Hg1 Hg')).
      destruct (f a' g') as [[b' g'']|]; [|done].
      destruct H as [? [s ->]]. split; [done|].
      destruct Hg1 as [s1 ->]. by exists s.
Qed.

(** ** [max_score] computes the negamax value *)

Lemma over_terminal_value s : over s = true -> terminal_value s = -1.
Proof.
  unfold terminal_value, winner, get_current_player_name. intros ->.
  by destruct (p1_turn s).
Qed.

Lemma is_over_over g s : game_side g = side s -> is_over g s = over s.
Proof. unfold is_over, over. by intros ->. Qed.

Lemma make_move_side s move : side (make_move s move) = side s.
Proof. by rewrite make_move_spec. Qed.

Lemma opp_mul v : -1 * v = - v.
Proof. lia. Qed.

Lemma max_score_negamax fuel s g :
  game_side g = side s ->
  match max_score fuel s g with
  | Some (v, g') => negamax_upto fuel s = Some v /\ same_game g g'
  | None => negamax_upto fuel s = None
  end.
Proof.
  revert s g. induction fuel as [|fuel IH]; intros s g Hside; [done|].
  cbn [max_score negamax_upto]. unfold bind at 1 2. unfold put_state, get_game.
  rewrite is_over_set, (is_over_over _ _ Hside).
  destruct (over s) eqn:Hover.
  - rewrite (over_terminal_value _ Hover). unfold is_winner. simpl.
    rewrite is_over_set, (is_over_over _ _ Hside), Hover.
    unfold get_current_player_name.
    destruct (p1_turn s); simpl; (split; [done|apply same_game_set]).
  - unfold bind.
    assert (Hcall : forall a g1,
      a ∈ get_possible_moves s -> same_game (set_current_state g s) g1 ->
      match (v <- max_score fuel (make_move s a) ;; ret (-1 * v)) g1 with
      | Some (b, g2) =>
          (fun v => -1 * v) <$> negamax_upto fuel (make_move s a) = Some b
          /\ same_game (set_current_state g s) g2
      | None => (fun v => -1 * v) <$> negamax_upto fuel (make_move s a) = None
      end).
    { intros a g1 _ Hg1. unfold bind.
      specialize (IH (make_move s a) g1).
      rewrite make_move_side, (same_game_side _ _ Hg1) in IH.
      specialize (IH Hside).
      destruct (max_score fuel (make_move s a) g1) as [[v g2]|].
      - destruct IH as [-> Hg2]. split; [done|]. by eapply same_game_trans.
      - by rewrite IH. }
    pose proof (for_each_spec _ _ _ _ Hcall) as Hfor.
    rewrite map_option_fmap in Hfor.
    destruct (for_each _ _ _) as [[scores g']|].
    + destruct Hfor as [Hscores Hg'].
      destruct (map_option _ _) as [vs|]; [|done].
      injection Hscores as <-.
      rewrite (map_ext _ Z.opp) by (intros; lia).
      unfold lift. destruct (maximum _); [|done].
      split; [done|]. eapply same_game_trans; [apply same_game_set|done].
    + by destruct (map_option _ _).
Qed.

(** ** The negamax value is well defined *)

Lemma filter_ne_shorter (l : list string) x :
  x ∈ l -> (length (filter (fun c => c <> x) l) < length l)%nat.
Proof.
  induction l as [|y l IH]; [by intros ?%elem_of_nil|].
  rewrite filter_cons. intros Hx.
  destruct (decide (y <> x)) as [Hne|Heq].
  - simpl. apply elem_of_cons in Hx as [->|Hx]; [done|].
    specialize (IH Hx). lia.
  - simpl. pose proof (length_filter (fun c => c <> x) l). lia.
Qed.

Lemma over_moves s : over s = false ->
  get_possible_moves s = free_cells (rows (cur_board s)).
Proof. apply get_possible_moves_not_over. Qed.

Lemma plies_left_make_move s move :
  move ∈ get_possible_moves s ->
  (plies_left (make_move s move) < plies_left s)%nat.
Proof.
  intros Hmove. pose proof (legal_move_free _ _ Hmove) as Hfree.
  unfold plies_left. rewrite make_move_spec. simpl.
  rewrite free_cells_after by apply mover_claimed.
  by apply filter_ne_shorter.
Qed.

(** The value does not depend on the depth of the search, once the depth
    exceeds the number of plies that are left. *)
Lemma negamax_upto_stable n s depth depth' :
  (plies_left s <= n)%nat ->
  (plies_left s < depth)%nat -> (plies_left s < depth')%nat ->
  negamax_upto depth s = negamax_upto depth' s.
Proof.
  revert s depth depth'. induction n as [|n IH]; intros s depth depth' Hn Hd Hd';
    (destruct depth as [|depth]; [lia|]);
    (destruct depth' as [|depth']; [lia|]); simpl;
    (destruct (over s) eqn:Hover; [done|]).
  - rewrite over_moves by done. unfold plies_left in Hn.
    destruct (free_cells _); [done|simpl in Hn; lia].
  - erewrite map_option_ext; [done|]. intros m Hm. simpl.
    pose proof (plies_left_make_move _ _ Hm). apply IH; lia.
Qed.

Lemma negamax_enough s depth :
  (plies_left s < depth)%nat -> negamax_upto depth s = negamax s.
Proof.
  intros. unfold negamax. apply (negamax_upto_stable (plies_left s)); lia.
Qed.

Lemma negamax_terminal s : over s = true -> negamax s = Some (terminal_value s).
Proof. unfold negamax. simpl. by intros ->. Qed.

Lemma negamax_step s :
  over s = false ->
  negamax s
  = match map_option (fun m => negamax (make_move s m))
            (get_possible_moves s) with
    | Some vs => maximum (map (fun v => - v) vs)
    | None => None
    end.
Proof.
  intros Hover. unfold negamax at 1. simpl. rewrite Hover.
  erewrite map_option_ext; [done|]. intros m Hm. simpl.
  apply negamax_enough. by apply plies_left_make_move.
Qed.

Lemma negamax_upto_range depth s v :
  negamax_upto depth s = Some v -> -1 <= v <= 1.
Proof.
  revert s v. induction depth as [|depth IH]; intros s v; [done|]. simpl.
  destruct (over s) eqn:Hover.
  - intros [= <-]. rewrite over_terminal_value by done. lia.
  - destruct (map_option _ _) as [vs|] eqn:Hvs; [|done].
    intros [Hin _]%maximum_spec.
    apply list_elem_of_fmap in Hin as (v' & -> & Hin).
    destruct (map_option_elem _ _ _ _ Hvs Hin) as (m & _ & Hm).
    apply IH in Hm. lia.
Qed.

Lemma negamax_range s v : negamax s = Some v -> -1 <= v <= 1.
Proof. apply negamax_upto_range. Qed.

(** In the states of a game the value is defined: a state that is not over
    has a move. *)
Lemma negamax_defined n s :
  (plies_left s <= n)%nat -> consistent s -> is_Some (negamax s).
Proof.
  revert s. induction n as [|n IH]; intros s Hn Hs;
    (destruct (over s) eqn:Hover; [by rewrite negamax_terminal|]);
    pose proof (proj1 (consistent_moves_over s Hs)) as Hmoves;
    fold (over s) in Hmoves; rewrite negamax_step by done.
  - rewrite over_moves in * by done. unfold plies_left in Hn.
    destruct (free_cells _); [|simpl in Hn; lia].
    by rewrite Hmoves in Hover.
  - destruct (map_option_defined (fun m => negamax (make_move s m))
                (get_possible_moves s)) as [vs Hvs].
    { intros m Hm. apply IH; [|by apply consistent_make_move].
      pose proof (plies_left_make_move _ _ Hm). lia. }
    rewrite Hvs. apply maximum_defined.
    apply map_option_length in Hvs.
    destruct vs; [|done]. simpl in Hvs.
    destruct (get_possible_moves s); [|done].
    by rewrite Hmoves in Hover.
Qed.

(** ** The recursive evaluator *)

Lemma best_move_spec scores moves :
  scores <> [] -> length scores = length moves ->
  exists index move m,
    best_move scores moves = Some move
    /\ moves !! index = Some move /\ scores !! index = Some m
    /\ forall y, y ∈ scores -> y <= m.
Proof.
  intros Hne Hlen. destruct (maximum_defined _ Hne) as [m Hm].
  destruct (maximum_spec _ _ Hm) as [Hin Hmax].
  destruct (index_of_spec _ _ Hin) as (i & Hi & Hlook).
  destruct (lookup_lt_is_Some_2 moves i) as [move Hmove].
  { rewrite <- Hlen. by eapply lookup_lt_Some. }
  exists i, move, m. unfold best_move. by rewrite Hm, Hi.
Qed.

(** The game object of a state of a game. *)
Lemma reachable_game_consistent g :
  reachable_game g ->
  consistent (current_state g) /\ game_side g = side (current_state g).
Proof.
  intros (len & b & g0 & s & Hg0 & Hs & ->).
  destruct (reachable_consistent _ _ _ _ Hg0 Hs) as [Hcons Hside].
  destruct (new_game_consistent _ _ _ Hg0) as (_ & _ & Hgside).
  simpl. split; [done|congruence].
Qed.

(** The values of the states the moves lead to, in a state of a game that
    is not over: there is a move, and each value is defined. *)
Lemma children_values s :
  consistent s -> over s = false ->
  exists vs,
    map_option (fun m => negamax (make_move s m)) (get_possible_moves s)
    = Some vs
    /\ vs <> [].
Proof.
  intros Hs Hover.
  destruct (map_option_defined (fun m => negamax (make_move s m))
              (get_possible_moves s)) as [vs Hvs].
  { intros m Hm. eapply negamax_defined; [done|].
    by apply consistent_make_move. }
  exists vs. split; [done|]. intros ->.
  apply map_option_length in Hvs. simpl in Hvs.
  destruct (get_possible_moves s) eqn:Hmoves; [|done].
  apply consistent_moves_over in Hmoves; [|done].
  fold (over s) in Hmoves. congruence.
Qed.

Lemma minimax_recursive_spec g fuel vs :
  game_side g = side (current_state g) ->
  (plies_left (current_state g) <= fuel)%nat ->
  map_option (fun m => negamax (make_move (current_state g) m))
    (get_possible_moves (current_state g)) = Some vs ->
  minimax_recursive fuel g
  = (fun move => (move, g))
    <$> best_move (map (fun v => -1 * v) vs)
          (get_possible_moves (current_state g)).
Proof.
  intros Hside Hfuel Hvs. unfold minimax_recursive, bind at 1, get_game.
  set (s := current_state g) in *.
  assert (Hcall : forall a g1,
    a ∈ get_possible_moves s -> same_game g g1 ->
    match (v <- max_score fuel (make_move s a) ;; ret (-1 * v)) g1 with
    | Some (b, g2) =>
        (fun v => -1 * v) <$> negamax (make_move s a) = Some b
        /\ same_game g g2
    | None => (fun v => -1 * v) <$> negamax (make_move s a) = None
    end).
  { intros a g1 Ha Hg1. unfold bind.
    pose proof (max_score_negamax fuel (make_move s a) g1) as H.
    rewrite make_move_side, (same_game_side _ _ Hg1) in H.
    specialize (H Hside).
    rewrite negamax_enough in H
      by (pose proof (plies_left_make_move _ _ Ha); lia).
    destruct (max_score fuel (make_move s a) g1) as [[v g2]|].
    - destruct H as [-> Hg2]. split; [done|]. by eapply same_game_trans.
    - by rewrite H. }
  pose proof (for_each_spec _ _ _ _ Hcall) as Hfor.
  rewrite map_option_fmap, Hvs in Hfor. unfold bind.
  destruct (for_each _ _ _) as [[scores g']|]; [|done].
  destruct Hfor as [[= <-] Hg']. unfold best_move, lift.
  destruct (maximum _) as [m|]; [|done].
  destruct (index_of _ _) as [i|]; [|done]. unfold put_state.
  destruct (get_possible_moves s !! i); [|done]. simpl.
  subst s. by rewrite (same_game_restore _ _ Hg').
Qed.

(** C2, with the recurrence of the source. In a game object whose state is
    a state of a game and is not over, [minimax_recursive] returns, once the
    fuel covers the plies that are left, a legal move whose negated value is
    the greatest among the legal moves, and leaves the game object as it
    was.  The value is the negamax value [negamax]: the terminal score of a
    state that is over, and otherwise the greatest of the negated values of
    the states that the moves lead to. *)
Theorem minimax_recursive_optimal g :
  reachable_game g -> is_over g (current_state g) = false ->
  (exists move v,
     (forall fuel, (plies_left (current_state g) <= fuel)%nat ->
        minimax_recursive fuel g = Some (move, g))
     /\ move ∈ get_possible_moves (current_state g)
     /\ negamax (make_move (current_state g) move) = Some v
     /\ forall move', move' ∈ get_possible_moves (current_state g) ->
          exists v', negamax (make_move (current_state g) move') = Some v'
                     /\ - v' <= - v)
  /\ (forall s, over s = true -> negamax s = Some (terminal_value s))
  /\ (forall s, over s = false ->
        negamax s
        = match map_option (fun m => negamax (make_move s m))
                  (get_possible_moves s) with
          | Some vs => maximum (map (fun v => - v) vs)
          | None => None
          end).
Proof.
  intros Hg Hover. split; [|split; [apply negamax_terminal|apply negamax_step]].
  destruct (reachable_game_consistent _ Hg) as [Hcons Hside].
  rewrite is_over_over in Hover by done.
  destruct (children_values _ Hcons Hover) as (vs & Hvs & Hne).
  destruct (best_move_spec (map (fun v => -1 * v) vs)
              (get_possible_moves (current_state g)))
    as (i & move & m & Hbest & Hmove & Hm & Hmax).
  { by destruct vs. }
  { rewrite length_map. by eapply map_option_length. }
  rewrite list_lookup_fmap in Hm.
  destruct (map_option_lookup _ _ _ _ _ Hvs Hmove) as (v & Hv & Hval).
  rewrite Hv in Hm. injection Hm as <-.
  exists move, v. split_and!.
  - intros fuel Hfuel.
    by rewrite (minimax_recursive_spec _ _ _ Hside Hfuel Hvs), Hbest.
  - by eapply list_elem_of_lookup_2.
  - done.
  - intros move' [j Hj]%list_elem_of_lookup.
    destruct (map_option_lookup _ _ _ _ _ Hvs Hj) as (v' & Hv' & Hval').
    exists v'. split; [done|].
    specialize (Hmax (-1 * v')). rewrite <- !opp_mul. apply Hmax.
    apply list_elem_of_fmap. exists v'. split; [done|].
    by eapply list_elem_of_lookup_2.
Qed.

Lemma reachable_game_2 : reachable_game game_2.
Proof.
  exists 2, true, game_2, (current_state game_2).
  split; [reflexivity|]. split; [apply reachable_start|reflexivity].
Qed.

Lemma reachable_game_2_ABD : reachable_game game_2_ABD.
Proof.
  exists 2, true, game_2, state_2_ABD.
  split; [reflexivity|]. split; [|reflexivity].
  apply reachable_play. intros [|[|[|k]]] move; simpl;
    [intros [= <-]..|done]; apply (bool_decide_unpack _); vm_compute; exact I.
Qed.

Lemma minimax_recursive_optimal_witness :
  exists move v,
    minimax_recursive 7 game_2 = Some (move, game_2)
    /\ move ∈ get_possible_moves (current_state game_2)
    /\ negamax (make_move (current_state game_2) move) = Some v.
Proof.
  destruct (minimax_recursive_optimal game_2 reachable_game_2 eq_refl)
    as [(move & v & H1 & H2 & H3 & _) _].
  exists move, v. split; [|split; [exact H2|exact H3]].
  apply H1. vm_compute. lia.
Defined.

(** C2, with the recurrence as the spec writes it, fails. In
    [state_2_ABD] every move of player 2 leads to a state of negamax value
    1, and [minimax_recursive] returns the first one, ["C"].  With the
    negation outside the maximum the state after ["C"] has value 1 and the
    state after ["F"] has value -1, so that ["C"] would not be a best
    move. *)
Lemma minimax_recursive_not_literal :
  reachable_game game_2_ABD
  /\ is_over game_2_ABD (current_state game_2_ABD) = false
  /\ (forall fuel, (plies_left (current_state game_2_ABD) <= fuel)%nat ->
        minimax_recursive fuel game_2_ABD = Some ("C", game_2_ABD))
  /\ "F" ∈ get_possible_moves (current_state game_2_ABD)
  /\ literal_negamax (make_move (current_state game_2_ABD) "C") = Some 1
  /\ literal_negamax (make_move (current_state game_2_ABD) "F") = Some (-1)
  /\ ~ (forall move', move' ∈ get_possible_moves (current_state game_2_ABD) ->
          exists v v',
            literal_negamax (make_move (current_state game_2_ABD) "C")
            = Some v
            /\ literal_negamax (make_move (current_state game_2_ABD) move')
               = Some v'
            /\ - v' <= - v).
Proof.
  assert (HF : "F" ∈ get_possible_moves (current_state game_2_ABD))
    by (apply (bool_decide_unpack _); vm_compute; exact I).
  split_and!; [apply reachable_game_2_ABD|reflexivity| |done|
               by vm_compute|by vm_compute|].
  - intros fuel Hfuel.
    rewrite (minimax_recursive_spec _ _ [1; 1; 1; 1]); [done..|].
    by vm_compute.
  - intros H. destruct (H "F" HF) as (v & v' & Hv & Hv' & Hle).
    vm_compute in Hv, Hv'. injection Hv as <-. injection Hv' as <-. lia.
Qed.

(** ** The iterative evaluator *)

Lemma process_loop_S fuel g (a : arena) tree process :
  process_loop (S fuel) g a (Stack.add tree process)
  = match a !! tree with
    | None => None
    | Some t =>
        let game := set_current_state g (value t) in
        if is_over game (current_state game) then
          match set_score a tree (leaf_score game) with
          | Some a' => process_loop fuel game a' process
          | None => None
          end
        else if bool_decide (children t = []) then
          match expand a tree (current_state game)
                  (get_possible_moves (current_state game)) with
          | Some a' =>
              match a' !! tree with
              | Some t' =>
                  process_loop fuel game a'
                    (fold_left (fun p child => Stack.add child p)
                       (children t') (Stack.add tree process))
              | None => None
              end
          | None => None
          end
        else
          match negated_scores a (children t) with
          | Some vs =>
              match maximum (vs ++ [-1]) with
              | Some v =>
                  match set_score a tree v with
                  | Some a' => process_loop fuel game a' process
                  | None => None
                  end
              | None => None
              end
          | None => None
          end
    end.
Proof. reflexivity. Qed.

Lemma process_loop_empty fuel g (a : arena) :
  process_loop (S fuel) g a Stack.empty = Some (g, a).
Proof. reflexivity. Qed.

Lemma stack_add_all {A} (cs : list A) (process : Stack.t A) :
  fold_left (fun p child => Stack.add child p) cs process
  = rev cs ++ process.
Proof.
  revert process. induction cs as [|c cs IH]; intros process; simpl; [done|].
  by rewrite IH, <- app_assoc.
Qed.

Lemma expand_spec (a : arena) tree s cs sc state moves :
  a !! tree = Some (MkTree s cs sc) ->
  expand a tree state moves
  = Some (<[tree := MkTree s (cs ++ seq (length a) (length moves)) sc]>
            (a ++ map (fun m => fresh_tree (make_move state m)) moves)).
Proof.
  revert a cs. induction moves as [|move moves IH]; intros a cs Ha; simpl.
  - rewrite !app_nil_r. by rewrite list_insert_id.
  - pose proof (lookup_lt_Some _ _ _ Ha) as Hlt.
    unfold add_child. rewrite Ha. simpl.
    erewrite IH; cycle 1.
    { apply list_lookup_insert_eq. rewrite length_app. lia. }
    f_equal. rewrite length_insert, length_app. simpl.
    rewrite insert_app_l by (rewrite length_insert, length_app; simpl; lia).
    rewrite list_insert_insert_eq.
    rewrite <- insert_app_l by (rewrite length_app; simpl; lia).
    rewrite <- !app_assoc. simpl.
    by replace (length a + 1)%nat with (S (length a)) by lia.
Qed.

Lemma negated_scores_seq (a : arena) vs base :
  (forall i v, vs !! i = Some v ->
     exists t, a !! (base + i)%nat = Some t /\ score t = Some v) ->
  negated_scores a (seq base (length vs)) = Some (map (fun v => -1 * v) vs).
Proof.
  revert base. induction vs as [|v vs IH]; intros base H; [done|].
  cbn [length seq negated_scores].
  destruct (H 0%nat v eq_refl) as (t & Ht & Hv).
  rewrite Nat.add_0_r in Ht. rewrite Ht, Hv, IH; [done|].
  intros i v' Hi. specialize (H (S i) v' Hi).
  by replace (S base + i)%nat with (base + S i)%nat by lia.
Qed.

Lemma map_option_app {A B} (f : A -> option B) l1 l2 :
  map_option f (l1 ++ l2)
  = match map_option f l1, map_option f l2 with
    | Some bs1, Some bs2 => Some (bs1 ++ bs2)
    | _, _ => None
    end.
Proof.
  induction l1 as [|a l1 IH]; simpl.
  - by destruct (map_option f l2).
  - rewrite IH. destruct (f a), (map_option f l1), (map_option f l2); done.
Qed.

Lemma lookup_map {A B} (f : A -> B) (l : list A) i :
  map f l !! i = f <$> (l !! i).
Proof. exact (list_lookup_fmap f l i). Qed.

(** The children of an expanded tree lie on the stack with the last one on
    top; the loop settles them one after the other. *)
Lemma settles_children depth :
  settles depth ->
  forall sts vs g (a : arena) base process,
    map_option (negamax_upto depth) sts = Some vs ->
    Forall (fun st => game_side g = side st) sts ->
    (forall i st, sts !! i = Some st ->
       a !! (base + i)%nat = Some (fresh_tree st)) ->
    exists k (a' : arena) g',
      (forall fuel,
         process_loop (k + fuel) g a (rev (seq base (length sts)) ++ process)
         = process_loop fuel g' a' process)
      /\ same_game g g'
      /\ (length a <= length a')%nat
      /\ (forall j, (j < length a)%nat ->
            ~ (base <= j < base + length sts)%nat -> a' !! j = a !! j)
      /\ (forall i v, vs !! i = Some v ->
            exists t, a' !! (base + i)%nat = Some t /\ score t = Some v).
Proof.
  intros Hdepth sts.
  induction sts as [|st sts IH] using rev_ind;
    intros vs g a base process Hvs Hside Hfresh.
  - injection Hvs as <-. exists 0%nat, a, g.
    split_and!; [done|apply same_game_refl|done|done|done].
  - rewrite map_option_app in Hvs. simpl in Hvs.
    destruct (map_option (negamax_upto depth) sts) as [vs1|] eqn:Hvs1;
      [|done].
    destruct (negamax_upto depth st) as [v|] eqn:Hv; [|done].
    injection Hvs as <-.
    apply Forall_app in Hside as [Hside Hside1].
    rewrite Forall_singleton in Hside1.
    pose proof (map_option_length _ _ _ Hvs1) as Hlen.
    assert (Hst : a !! (base + length sts)%nat = Some (fresh_tree st)).
    { apply Hfresh. by rewrite lookup_app_r, Nat.sub_diag by lia. }
    pose proof (lookup_lt_Some _ _ _ Hst) as Hlt.
    destruct (Hdepth st v g a (base + length sts)%nat
                (rev (seq base (length sts)) ++ process) Hv Hside1 Hst)
      as (k1 & a1 & g1 & cs1 & Hrun1 & Hg1 & Hnode1 & Hlen1 & Hsame1 & _).
    destruct (IH vs1 g1 a1 base process eq_refl) as
      (k2 & a2 & g2 & Hrun2 & Hg2 & Hlen2 & Hsame2 & Hscores2).
    { eapply Forall_impl; [exact Hside|]. intros st' <-.
      by apply same_game_side. }
    { intros i st' Hi. pose proof (lookup_lt_Some _ _ _ Hi).
      rewrite Hsame1; [|lia|lia].
      apply Hfresh. by rewrite lookup_app_l. }
    exists (k1 + k2)%nat, a2, g2. split_and!.
    + intros fuel. rewrite length_app. simpl.
      replace (length sts + 1)%nat with (S (length sts)) by lia.
      rewrite seq_S, rev_unit. simpl.
      rewrite <- Nat.add_assoc. unfold Stack.add in Hrun1.
      by rewrite Hrun1, Hrun2.
    + by eapply same_game_trans.
    + lia.
    + intros j Hj Hout. rewrite length_app in Hout. simpl in Hout.
      rewrite Hsame2; [|lia|lia]. apply Hsame1; lia.
    + intros i v' Hi.
      destruct (decide (i < length vs1)%nat) as [Hlt'|Hge].
      * rewrite lookup_app_l in Hi by done. by apply Hscores2.
      * rewrite lookup_app_r in Hi by lia.
        destruct (i - length vs1)%nat as [|n] eqn:Hn; [|done].
        injection Hi as <-.
        replace i with (length sts) by lia.
        rewrite Hsame2; [|lia|lia]. rewrite Hnode1. eauto.
Qed.

Lemma settles_all depth : settles depth.
Proof.
  induction depth as [|depth IH];
    intros s v g a tree process Hv Hside Htree; [done|].
  pose proof (lookup_lt_Some _ _ _ Htree) as Hlt.
  cbn [negamax_upto] in Hv. destruct (over s) eqn:Hover.
  - injection Hv as <-. rewrite over_terminal_value by done.
    exists 1%nat, (<[tree := MkTree s [] (Some (-1))]> a),
      (set_current_state g s), [].
    split_and!.
    + intros fuel. cbn [Nat.add]. rewrite process_loop_S, Htree.
      cbn [value fresh_tree current_state set_current_state].
      rewrite is_over_set, (is_over_over _ _ Hside), Hover.
      rewrite leaf_score_over by (by rewrite is_over_over).
      unfold set_score. by rewrite Htree.
    + apply same_game_set.
    + by apply list_lookup_insert_eq.
    + by rewrite length_insert.
    + intros j _ Hj. by apply list_lookup_insert_ne.
    + done.
  - destruct (map_option _ _) as [vs|] eqn:Hvs; [|done].
    set (moves := get_possible_moves s) in *.
    set (base := length a).
    set (a1 := <[tree := MkTree s (seq base (length moves)) None]>
                 (a ++ map (fun m => fresh_tree (make_move s m)) moves)).
    assert (Hne : moves <> []).
    { intros Hnil. rewrite Hnil in Hvs. by injection Hvs as <-. }
    destruct (settles_children depth IH (map (make_move s) moves) vs
                (set_current_state g s) a1 base (Stack.add tree process))
      as (k2 & a2 & g2 & Hrun2 & Hg2 & Hlen2 & Hsame2 & Hscores2).
    { rewrite <- Hvs. clear. induction moves as [|m moves IHm]; [done|].
      simpl. by rewrite IHm. }
    { apply Forall_fmap, Forall_forall. intros m _. simpl.
      by rewrite make_move_side. }
    { intros i st Hi. unfold a1.
      rewrite list_lookup_insert_ne by (unfold base; lia).
      rewrite lookup_app_r by (unfold base; lia).
      replace (base + i - length a)%nat with i by (unfold base; lia).
      rewrite lookup_map in Hi. rewrite lookup_map.
      destruct (moves !! i); [|done]. by injection Hi as <-. }
    rewrite length_map in Hrun2, Hsame2.
    assert (Hlen1 : length a1 = (length a + length moves)%nat).
    { unfold a1. by rewrite length_insert, length_app, length_map. }
    assert (Htree2 : a2 !! tree
                     = Some (MkTree s (seq base (length moves)) None)).
    { rewrite Hsame2; [|lia|unfold base; lia].
      unfold a1. apply list_lookup_insert_eq. rewrite length_app. lia. }
    assert (Hneg : negated_scores a2 (seq base (length moves))
                   = Some (map (fun v => -1 * v) vs)).
    { rewrite <- (map_option_length _ _ _ Hvs).
      by apply negated_scores_seq. }
    exists (S (k2 + 1)), (<[tree := MkTree s (seq base (length moves))
                                      (Some v)]> a2),
      (set_current_state g2 s), (seq base (length moves)).
    split_and!.
    + intros fuel. cbn [Nat.add]. rewrite process_loop_S, Htree.
      cbn [value children fresh_tree current_state set_current_state].
      rewrite is_over_set, (is_over_over _ _ Hside), Hover.
      rewrite bool_decide_eq_true_2 by done.
      rewrite (expand_spec _ _ s [] None) by done. fold moves base.
      cbn [app]. subst a1.
      rewrite list_lookup_insert_eq by (rewrite length_app; lia).
      cbn [children]. rewrite stack_add_all.
      rewrite <- Nat.add_assoc, Hrun2. cbn [Nat.add].
      rewrite process_loop_S, Htree2.
      cbn [value children current_state set_current_state].
      rewrite is_over_set.
      rewrite (is_over_over g2 s)
        by (rewrite (same_game_side _ _ Hg2); exact Hside).
      rewrite Hover.
      rewrite bool_decide_eq_false_2; cycle 1.
      { destruct moves; [done|]. simpl. done. }
      rewrite Hneg.
      assert (Hmax : maximum (map (fun v => -1 * v) vs ++ [-1]) = Some v).
      { apply maximum_default.
        - exact Hv.
        - intros y (v' & -> & Hin)%list_elem_of_fmap.
          destruct (map_option_elem _ _ _ _ Hvs Hin) as (m & _ & Hm).
          apply negamax_upto_range in Hm. lia. }
      rewrite Hmax. unfold set_score. rewrite Htree2. cbn [value children].
      destruct Hg2 as [s2 ->]. done.
    + destruct Hg2 as [s2 ->]. by exists s.
    + apply list_lookup_insert_eq. lia.
    + rewrite length_insert. lia.
    + intros j Hj Hjt. rewrite list_lookup_insert_ne by done.
      rewrite Hsame2; [|lia|unfold base; lia].
      unfold a1. rewrite list_lookup_insert_ne by done.
      by rewrite lookup_app_l.
    + intros _. exists vs. split; [done|].
      rewrite <- (map_option_length _ _ _ Hvs).
      apply negated_scores_seq.
      intros i v' Hi. destruct (Hscores2 i v' Hi) as (t & Ht & Hsc).
      exists t. split; [|done].
      by rewrite list_lookup_insert_ne by (unfold base; lia).
Qed.

Lemma minimax_iterative_spec g v vs :
  game_side g = side (current_state g) ->
  over (current_state g) = false ->
  negamax (current_state g) = Some v ->
  map_option (fun m => negamax (make_move (current_state g) m))
    (get_possible_moves (current_state g)) = Some vs ->
  exists k, forall fuel, (k <= fuel)%nat ->
    minimax_iterative fuel g
    = (fun move => (move, g))
      <$> best_move (map (fun v => -1 * v) vs)
            (get_possible_moves (current_state g)).
Proof.
  intros Hside Hover Hv Hvs. set (s := current_state g) in *.
  destruct (settles_all (S (plies_left s)) s v g [fresh_tree s] 0%nat
              Stack.empty Hv Hside eq_refl)
    as (k & a' & g' & cs & Hrun & Hg' & Hroot & _ & _ & Hchildren).
  destruct (Hchildren Hover) as (vs' & Hvs' & Hneg).
  assert (vs' = vs) as ->.
  { cbn [pred] in Hvs'.
    erewrite map_option_ext in Hvs'; [rewrite Hvs in Hvs'; congruence|].
    intros m Hm. simpl.
    apply negamax_enough. by apply plies_left_make_move. }
  exists (S k). intros fuel Hfuel.
  replace fuel with (k + S (fuel - S k))%nat by lia.
  unfold minimax_iterative. fold s. unfold fresh_tree in Hrun.
  rewrite Hrun, process_loop_empty, Hroot. cbn [children]. rewrite Hneg.
  unfold best_move. destruct (maximum _) as [m|]; [|done].
  destruct (index_of _ _) as [i|]; [|done].
  destruct (get_possible_moves s !! i); [|done]. simpl.
  subst s. by rewrite (same_game_restore _ _ Hg').
Qed.

(** C1. In a game object whose state is a state of a game and is not over,
    [minimax_recursive] and [minimax_iterative] both return a move, once
    their fuel is large enough, and leave the game object as it was; the
    states the two moves lead to have the same negamax value; the two moves
    are in fact the same. *)
Theorem minimax_equivalence g :
  reachable_game g -> is_over g (current_state g) = false ->
  exists move_r move_i v,
    (forall fuel, (plies_left (current_state g) <= fuel)%nat ->
       minimax_recursive fuel g = Some (move_r, g))
    /\ (exists k, forall fuel, (k <= fuel)%nat ->
          minimax_iterative fuel g = Some (move_i, g))
    /\ negamax (make_move (current_state g) move_r) = Some v
    /\ negamax (make_move (current_state g) move_i) = Some v
    /\ move_r = move_i.
Proof.
  intros Hg Hover.
  destruct (reachable_game_consistent _ Hg) as [Hcons Hside].
  rewrite is_over_over in Hover by done.
  destruct (children_values _ Hcons Hover) as (vs & Hvs & Hne).
  destruct (negamax_defined _ _ (Nat.le_refl _) Hcons) as [v0 Hv0].
  destruct (best_move_spec (map (fun v => -1 * v) vs)
              (get_possible_moves (current_state g)))
    as (i & move & m & Hbest & Hmove & Hm & _).
  { by destruct vs. }
  { rewrite length_map. by eapply map_option_length. }
  destruct (map_option_lookup _ _ _ _ _ Hvs Hmove) as (v & _ & Hval).
  destruct (minimax_iterative_spec g v0 vs Hside Hover Hv0 Hvs) as [k Hk].
  exists move, move, v. split_and!; [|exists k|done..].
  - intros fuel Hfuel.
    by rewrite (minimax_recursive_spec _ _ _ Hside Hfuel Hvs), Hbest.
  - intros fuel Hfuel. by rewrite Hk, Hbest.
Qed.

Lemma minimax_equivalence_witness :
  exists move,
    minimax_recursive 7 game_2 = Some (move, game_2)
    /\ exists k, forall fuel, (k <= fuel)%nat ->
         minimax_iterative fuel game_2 = Some (move, game_2).
Proof.
  destruct (minimax_equivalence game_2 reachable_game_2 eq_refl)
    as (move_r & move_i & v & Hr & Hi & _ & _ & Heq).
  exists move_r. split.
  - apply Hr. vm_compute. lia.
  - rewrite Heq. exact Hi.
Defined.

(** ** The store: deep copies *)

Lemma insert_last (h : heap) o o' rest :
  <[length h := o']> (h ++ o :: rest) = h ++ o' :: rest.
Proof.
  rewrite insert_app_r_alt by lia. by rewrite Nat.sub_diag.
Qed.

Lemma lookup_last (h : heap) o rest : (h ++ o :: rest) !! length h = Some o.
Proof. by rewrite lookup_app_r, Nat.sub_diag by lia. Qed.

Lemma lookup_old (h ext : heap) l o :
  h !! l = Some o -> (h ++ ext) !! l = Some o.
Proof. intros H. rewrite lookup_app_l; [done|]. by eapply lookup_lt_Some. Qed.

Lemma memo_get_cons l l0 l' memo :
  l0 <> l -> memo_get l ((l0, l') :: memo) = memo_get l memo.
Proof. intros H. simpl. by rewrite decide_False. Qed.

(** The elements of a list of strings are copied as they are. *)
Lemma copy_items_strings copy (h : heap) memo done cs rest :
  (forall h memo s, copy h memo (VStr s) = Some (h, memo, VStr s)) ->
  copy_items copy (VRef (length h)) (map VStr cs)
    (h ++ OList done :: rest) memo
  = Some (h ++ OList (done ++ map VStr cs) :: rest, memo).
Proof.
  intros Hcopy. revert done. induction cs as [|c cs IH]; intros done; simpl.
  - by rewrite app_nil_r.
  - rewrite Hcopy. unfold append_item. rewrite lookup_last, insert_last.
    rewrite IH. by rewrite <- app_assoc.
Qed.

Lemma deepcopy_string fuel h memo s :
  deepcopy fuel h memo (VStr s) = Some (h, memo, VStr s).
Proof. by destruct fuel. Qed.

Lemma deepcopy_int fuel h memo n :
  deepcopy fuel h memo (VInt n) = Some (h, memo, VInt n).
Proof. by destruct fuel. Qed.

Lemma deepcopy_list fuel (h : heap) memo l items :
  memo_get l memo = None -> h !! l = Some (OList items) ->
  deepcopy (S fuel) h memo (VRef l)
  = match copy_items (deepcopy fuel) (VRef (length h)) items
            (h ++ [OList []]) ((l, length h) :: memo) with
    | Some (h1, memo1) => Some (h1, memo1, VRef (length h))
    | None => None
    end.
Proof. intros Hmemo Hl. simpl. by rewrite Hmemo, Hl. Qed.

Lemma deepcopy_dict fuel (h : heap) memo l es :
  memo_get l memo = None -> h !! l = Some (ODict es) ->
  deepcopy (S fuel) h memo (VRef l)
  = match copy_entries (deepcopy fuel) (VRef (length h)) es
            (h ++ [ODict []]) ((l, length h) :: memo) with
    | Some (h1, memo1) => Some (h1, memo1, VRef (length h))
    | None => None
    end.
Proof. intros Hmemo Hl. simpl. by rewrite Hmemo, Hl. Qed.

Lemma copy_items_cons copy y a items h memo :
  copy_items copy y (a :: items) h memo
  = match copy h memo a with
    | Some (h1, memo1, a') =>
        match append_item h1 y a' with
        | Some h2 => copy_items copy y items h2 memo1
        | None => None
        end
    | None => None
    end.
Proof. reflexivity. Qed.

Lemma copy_entries_cons copy y k v es h memo :
  copy_entries copy y ((k, v) :: es) h memo
  = match copy h memo v with
    | Some (h1, memo1, v') =>
        match copy h1 memo1 k with
        | Some (h2, memo2, k') =>
            match set_entry h2 y k' v' with
            | Some h3 => copy_entries copy y es h3 memo2
            | None => None
            end
        | None => None
        end
    | None => None
    end.
Proof. reflexivity. Qed.

Lemma deepcopy_cells fuel (h : heap) memo lc cs :
  h !! lc = Some (OList (map VStr cs)) ->
  memo_get lc memo = None ->
  deepcopy (S fuel) h memo (VRef lc)
  = Some (h ++ [OList (map VStr cs)], (lc, length h) :: memo,
          VRef (length h)).
Proof.
  intros Hlc Hmemo. rewrite (deepcopy_list _ _ _ _ _ Hmemo Hlc).
  rewrite (copy_items_strings _ h _ [] cs []); [done|].
  intros. apply deepcopy_string.
Qed.

Lemma deepcopy_line fuel (h : heap) memo sh ln :
  holds_line h sh ln ->
  not_copied memo (line_addresses sh) ->
  at_line sh <> at_cells sh ->
  deepcopy (S (S fuel)) h memo (VRef (at_line sh))
  = Some (h ++ line_objects (LineShape (length h) (S (length h))) ln,
          (at_cells sh, S (length h)) :: (at_line sh, length h) :: memo,
          VRef (length h)).
Proof.
  intros [Hline Hcells] Hmemo Hne.
  apply Forall_cons in Hmemo as [Hm1 Hm2].
  apply Forall_cons in Hm2 as [Hm2 _].
  rewrite (deepcopy_list _ _ _ _ _ Hm1 Hline).
  rewrite copy_items_cons, deepcopy_string. unfold append_item at 1.
  rewrite lookup_last, insert_last.
  rewrite copy_items_cons.
  rewrite (deepcopy_cells fuel _ _ _ (cells ln)); cycle 1.
  { by apply lookup_old. }
  { by rewrite memo_get_cons. }
  rewrite length_app. simpl length.
  replace (length h + 1)%nat with (S (length h)) by lia.
  rewrite <- app_assoc. unfold append_item. simpl app.
  by rewrite lookup_last, insert_last.
Qed.

Lemma put_entry_new k v es :
  Forall (fun e => fst e <> k) es -> put_entry k v es = es ++ [(k, v)].
Proof.
  induction 1 as [|[k' v'] es Hk _ IH]; simpl; [done|].
  simpl in Hk. by rewrite decide_False, IH.
Qed.

Lemma holds_line_old (h ext : heap) sh ln :
  holds_line h sh ln -> holds_line (h ++ ext) sh ln.
Proof. intros [H1 H2]. split; by apply lookup_old. Qed.

Lemma holds_line_frame (h h' : heap) sh ln :
  holds_line h sh ln ->
  (forall l, l ∈ line_addresses sh -> h' !! l = h !! l) ->
  holds_line h' sh ln.
Proof.
  intros [H1 H2] Hsame. split.
  - rewrite Hsame; [done|]. left.
  - rewrite Hsame; [done|]. right; left.
Qed.

Lemma line_addresses_cons sh shs :
  concat (map line_addresses (sh :: shs))
  = line_addresses sh ++ concat (map line_addresses shs).
Proof. reflexivity. Qed.

Lemma holds_line_all_frame (h h' : heap) shs lns :
  Forall2 (holds_line h) shs lns ->
  (forall l, l ∈ concat (map line_addresses shs) -> h' !! l = h !! l) ->
  Forall2 (holds_line h') shs lns.
Proof.
  induction 1 as [|sh ln shs lns Hh _ IH]; intros Hsame; constructor.
  - eapply holds_line_frame; [done|]. intros l Hl. apply Hsame.
    rewrite line_addresses_cons. apply elem_of_app. by left.
  - apply IH. intros l Hl. apply Hsame.
    rewrite line_addresses_cons. apply elem_of_app. by right.
Qed.

Lemma holds_lines_frame (h h' : heap) sh lns :
  holds_lines h sh lns ->
  (forall l, l ∈ lines_addresses sh -> h' !! l = h !! l) ->
  holds_lines h' sh lns.
Proof.
  intros [H1 H2] Hsame. split.
  - rewrite Hsame; [done|]. left.
  - eapply holds_line_all_frame; [done|].
    intros l Hl. apply Hsame. by right.
Qed.

Lemma holds_lines_old (h ext : heap) sh lns :
  holds_lines h sh lns -> holds_lines (h ++ ext) sh lns.
Proof.
  intros H. eapply holds_lines_frame; [done|]. intros l Hl.
  apply lookup_app_l. destruct H as [H1 H2].
  apply elem_of_cons in Hl as [->|Hl]; [by eapply lookup_lt_Some|].
  clear H1. induction H2 as [|sh' ln shs lns [Ha Hb] _ IH];
    [by apply elem_of_nil in Hl|].
  rewrite line_addresses_cons in Hl. apply elem_of_app in Hl as [Hl|Hl]; [|auto].
  apply elem_of_cons in Hl as [->|Hl]; [by eapply lookup_lt_Some|].
  apply elem_of_cons in Hl as [->|Hl]; [by eapply lookup_lt_Some|].
  by apply elem_of_nil in Hl.
Qed.

(** The loop that copies the entries of a collection: [es_done] are the
    entries of the copy so far and [objs] the ley-lines copied so far. *)
Lemma copy_lines fuel (hp : heap) shs lns :
  Forall2 (holds_line hp) shs lns ->
  forall es_done objs i memo,
    NoDup (concat (map line_addresses shs)) ->
    not_copied memo (concat (map line_addresses shs)) ->
    Forall (fun e => forall j, (i <= j)%nat -> fst e <> VInt (Z.of_nat j))
      es_done ->
    exists memo',
      copy_entries (deepcopy (S (S fuel))) (VRef (length hp))
        (lines_entries i shs) (hp ++ ODict es_done :: objs) memo
      = Some (hp ++ ODict (es_done
                           ++ lines_entries i
                                (fresh_lines (S (length hp + length objs))
                                   lns))
                 :: objs ++ lines_objects (S (length hp + length objs)) lns,
              memo')
      /\ forall l, l ∉ concat (map line_addresses shs) ->
           memo_get l memo' = memo_get l memo.
Proof.
  induction 1 as [|sh ln shs lns Hh _ IH];
    intros es_done objs i memo Hnd Hmemo Hkeys.
  - exists memo. simpl. by rewrite !app_nil_r.
  - rewrite line_addresses_cons in Hnd, Hmemo.
    apply NoDup_app in Hnd as (Hnd1 & Hdisj & Hnd2).
    apply Forall_app in Hmemo as [Hm1 Hm2].
    assert (Hne : at_line sh <> at_cells sh).
    { apply NoDup_cons in Hnd1 as [Hn _]. intros Heq. apply Hn.
      rewrite Heq. left. }
    set (hc := hp ++ ODict es_done :: objs).
    assert (Hlen : length hc = S (length hp + length objs)).
    { unfold hc. rewrite length_app. simpl. lia. }
    cbn [lines_entries]. rewrite copy_entries_cons.
    rewrite (deepcopy_line fuel hc memo sh ln); [|by apply holds_line_old|done..].
    rewrite deepcopy_int. rewrite Hlen.
    unfold set_entry, hc. rewrite <- app_assoc. cbn [app].
    rewrite lookup_last, insert_last.
    rewrite put_entry_new; cycle 1.
    { eapply Forall_impl; [exact Hkeys|]. intros e He. by apply He. }
    set (base := S (length hp + length objs)).
    destruct (IH (es_done ++ [(VInt (Z.of_nat i), VRef base)])
                (objs ++ line_objects (LineShape base (S base)) ln) (S i)
                ((at_cells sh, S base) :: (at_line sh, base) :: memo))
      as (memo' & Hrun & Hmemo'); [done| | |].
    { unfold not_copied in *. rewrite Forall_forall in Hm2.
      apply Forall_forall. intros l Hl.
      rewrite !memo_get_cons; [by apply Hm2| |].
      - intros <-. apply (Hdisj (at_line sh)); [left|done].
      - intros <-. apply (Hdisj (at_cells sh)); [right; left|done]. }
    { apply Forall_app. split.
      - eapply Forall_impl; [exact Hkeys|]. intros e He j Hj. apply He. lia.
      - constructor; [|constructor]. simpl. intros j Hj [= Heq]. lia. }
    exists memo'. split.
    + rewrite Hrun. rewrite length_app. cbn [line_objects length].
      replace (S (length hp + (length objs + 2))) with (S (S base))
        by (unfold base; lia).
      cbn [fresh_lines lines_entries lines_objects].
      by rewrite <- !app_assoc.
    + intros l Hl. rewrite Hmemo'; cycle 1.
      { intros Hin. apply Hl. rewrite line_addresses_cons.
        apply elem_of_app. by right. }
      rewrite !memo_get_cons; [done| |].
      * intros <-. apply Hl. rewrite line_addresses_cons.
        apply elem_of_app. left. left.
      * intros <-. apply Hl. rewrite line_addresses_cons.
        apply elem_of_app. left. right. left.
Qed.

Lemma deepcopy_collection fuel (h : heap) memo sh lns :
  holds_lines h sh lns ->
  NoDup (lines_addresses sh) ->
  not_copied memo (lines_addresses sh) ->
  exists memo',
    deepcopy (S (S (S fuel))) h memo (VRef (at_lines sh))
    = Some (h ++ collection_objects (length h) lns, memo', VRef (length h))
    /\ forall l, l ∉ lines_addresses sh -> memo_get l memo' = memo_get l memo.
Proof.
  intros [Hdict Hlines] Hnd Hmemo.
  apply NoDup_cons in Hnd as [Hfirst Hnd].
  apply Forall_cons in Hmemo as [Hm1 Hm2].
  rewrite (deepcopy_dict _ _ _ _ _ Hm1 Hdict).
  destruct (copy_lines fuel h _ _ Hlines [] [] 0%nat
              ((at_lines sh, length h) :: memo) Hnd)
    as (memo' & Hrun & Hmemo'); [|done|].
  { unfold not_copied in *. rewrite Forall_forall in Hm2.
    apply Forall_forall. intros l Hl.
    rewrite memo_get_cons; [by apply Hm2|]. by intros <-. }
  exists memo'. split.
  - rewrite Hrun. simpl. rewrite Nat.add_0_r. done.
  - intros l Hl. rewrite Hmemo'; cycle 1.
    { intros Hin. apply Hl. by right. }
    apply memo_get_cons. intros <-. apply Hl. left.
Qed.

Lemma lines_objects_length base lns :
  length (lines_objects base lns) = (2 * length lns)%nat.
Proof.
  revert base. induction lns as [|ln lns IH]; intros base; [done|].
  simpl. rewrite IH. lia.
Qed.

Lemma collection_objects_length base lns :
  length (collection_objects base lns) = collection_size lns.
Proof.
  unfold collection_objects, collection_size. simpl.
  by rewrite lines_objects_length.
Qed.

Lemma fresh_lines_addresses base lns :
  concat (map line_addresses (fresh_lines base lns))
  = seq base (2 * length lns).
Proof.
  revert base. induction lns as [|ln lns IH]; intros base; [done|].
  cbn [fresh_lines]. rewrite line_addresses_cons, IH.
  replace (2 * length (ln :: lns))%nat with (S (S (2 * length lns)))
    by (simpl; lia).
  done.
Qed.

Lemma fresh_collection_addresses base lns :
  lines_addresses (fresh_collection base lns)
  = seq base (collection_size lns).
Proof.
  unfold lines_addresses, fresh_collection, collection_size. simpl at_lines.
  cbn [line_shapes]. by rewrite fresh_lines_addresses.
Qed.

Lemma fresh_board_addresses base b :
  board_addresses (fresh_board base b) = seq base (board_size b).
Proof.
  unfold board_addresses, inner_addresses, fresh_board, board_size.
  cbn [at_board rows_shape left_shape right_shape].
  rewrite !fresh_collection_addresses.
  cbn [seq]. f_equal. rewrite !seq_app. rewrite <- app_assoc.
  do 2 f_equal. f_equal. lia.
Qed.

Lemma board_objects_length base b :
  length (board_objects base b) = board_size b.
Proof.
  unfold board_objects, board_size. cbn [length].
  rewrite !length_app, !collection_objects_length. lia.
Qed.

(** A store that ends with the objects of a deep copy holds the copy. *)
Lemma holds_fresh_lines (pre post : heap) lns :
  Forall2 (holds_line (pre ++ lines_objects (length pre) lns ++ post))
    (fresh_lines (length pre) lns) lns.
Proof.
  revert pre. induction lns as [|ln lns IH]; intros pre; simpl; [done|].
  constructor.
  - split; simpl.
    + apply lookup_last.
    + rewrite lookup_app_r by lia.
      by replace (S (length pre) - length pre)%nat with 1%nat by lia.
  - specialize (IH (pre ++ line_objects
                      (LineShape (length pre) (S (length pre))) ln)).
    rewrite length_app in IH. simpl in IH.
    replace (length pre + 2)%nat with (S (S (length pre))) in IH by lia.
    by rewrite <- app_assoc in IH.
Qed.

Lemma holds_fresh_collection (pre post : heap) lns :
  holds_lines (pre ++ collection_objects (length pre) lns ++ post)
    (fresh_collection (length pre) lns) lns.
Proof.
  split; simpl.
  - apply lookup_last.
  - pose proof (holds_fresh_lines (pre ++ [ODict (lines_entries 0
        (fresh_lines (S (length pre)) lns))]) post lns) as H.
    rewrite length_app in H. simpl in H.
    replace (length pre + 1)%nat with (S (length pre)) in H by lia.
    by rewrite <- app_assoc in H.
Qed.

Lemma not_copied_after memo memo' (visited ls : list nat) :
  (forall l, l ∉ visited -> memo_get l memo' = memo_get l memo) ->
  not_copied memo ls ->
  (forall l, l ∈ ls -> l ∉ visited) ->
  not_copied memo' ls.
Proof.
  unfold not_copied. rewrite !Forall_forall. intros Hmemo Hls Hdisj l Hl.
  rewrite Hmemo; auto.
Qed.

Lemma deepcopy_board fuel (h : heap) sh b :
  holds_board h sh b ->
  NoDup (board_addresses sh) ->
  exists memo,
    deepcopy (S (S (S (S fuel)))) h [] (VRef (at_board sh))
    = Some (h ++ board_objects (length h) b, memo, VRef (length h)).
Proof.
  intros (Hdict & Hr & Hl & Ht) Hnd.
  apply NoDup_cons in Hnd as [Hroot Hnd]. unfold inner_addresses in *.
  apply NoDup_app in Hnd as (Hndr & Hdisj1 & Hnd).
  apply NoDup_app in Hnd as (Hndl & Hdisj2 & Hndt).
  rewrite (deepcopy_dict _ h [] _ _ eq_refl Hdict).
  unfold board_entries. rewrite copy_entries_cons.
  (* the rows *)
  destruct (deepcopy_collection fuel (h ++ [ODict []])
              [(at_board sh, length h)] (rows_shape sh) (rows b))
    as (memo1 & -> & Hmemo1); [by apply holds_lines_old|done| |].
  { apply Forall_forall. intros l Hin. apply memo_get_cons.
    intros <-. apply Hroot. apply elem_of_app. by left. }
  rewrite deepcopy_string. unfold set_entry at 1.
  rewrite <- app_assoc. cbn [app]. rewrite lookup_last, insert_last.
  cbn [put_entry]. rewrite length_app. cbn [length].
  replace (length h + 1)%nat with (S (length h)) by lia.
  set (r := S (length h)).
  set (h1 := h ++ _ :: collection_objects r (rows b)).
  assert (Hlen1 : length h1 = (r + collection_size (rows b))%nat).
  { unfold h1, r. rewrite length_app. cbn [length].
    rewrite collection_objects_length. lia. }
  (* the left diagonals *)
  rewrite copy_entries_cons.
  destruct (deepcopy_collection fuel h1 memo1 (left_shape sh) (left b))
    as (memo2 & -> & Hmemo2); [by apply holds_lines_old|done| |].
  { eapply not_copied_after; [exact Hmemo1| |].
    - apply Forall_forall. intros l Hin. apply memo_get_cons.
      intros <-. apply Hroot. apply elem_of_app. right.
      apply elem_of_app. by left.
    - intros l Hin Hin'. apply (Hdisj1 l Hin'). apply elem_of_app. by left. }
  rewrite deepcopy_string. unfold set_entry at 1. rewrite Hlen1.
  unfold h1. rewrite <- app_assoc. cbn [app].
  rewrite lookup_last, insert_last.
  cbn [put_entry]. rewrite decide_False by done. cbn [put_entry].
  set (l := (r + collection_size (rows b))%nat).
  set (h2 := h ++ _ :: collection_objects r (rows b)
                  ++ collection_objects l (left b)).
  assert (Hlen2 : length h2 = (l + collection_size (left b))%nat).
  { unfold h2, l, r. rewrite length_app. cbn [length].
    rewrite length_app, !collection_objects_length. lia. }
  (* the right diagonals *)
  rewrite copy_entries_cons.
  destruct (deepcopy_collection fuel h2 memo2 (right_shape sh) (right b))
    as (memo3 & -> & Hmemo3); [by apply holds_lines_old|done| |].
  { eapply not_copied_after; [exact Hmemo2| |].
    - eapply not_copied_after; [exact Hmemo1| |].
      + apply Forall_forall. intros a Hin. apply memo_get_cons.
        intros <-. apply Hroot. apply elem_of_app. right.
        apply elem_of_app. by right.
      + intros a Hin Hin'. apply (Hdisj1 a Hin'). apply elem_of_app.
        by right.
    - intros a Hin Hin'. by apply (Hdisj2 a Hin'). }
  rewrite deepcopy_string. unfold set_entry. rewrite Hlen2.
  unfold h2. rewrite <- !app_assoc. cbn [app].
  rewrite lookup_last, insert_last.
  cbn [put_entry]. rewrite !decide_False by done. cbn [put_entry].
  exists memo3. cbn [copy_entries].
  unfold board_objects, fresh_board, board_entries. cbn [at_lines
    rows_shape left_shape right_shape fresh_collection].
  fold r. fold l. by rewrite <- !app_assoc.
Qed.

Lemma holds_fresh_board (pre post : heap) b :
  holds_board (pre ++ board_objects (length pre) b ++ post)
    (fresh_board (length pre) b) b.
Proof.
  unfold board_objects. cbn zeta.
  set (r := S (length pre)).
  set (l := (r + collection_size (rows b))%nat).
  set (t := (l + collection_size (left b))%nat).
  split_and!.
  - apply lookup_last.
  - pose proof (holds_fresh_collection (pre ++ [ODict (board_entries
        (fresh_board (length pre) b))])
        (collection_objects l (left b) ++ collection_objects t (right b)
         ++ post) (rows b)) as H.
    rewrite length_app in H. cbn [length] in H.
    replace (length pre + 1)%nat with r in H by (unfold r; lia).
    rewrite <- ?app_assoc in H. cbn [app] in H.
    rewrite <- ?app_assoc in H.
    unfold fresh_board. cbn [rows_shape]. fold r.
    cbn [app]. rewrite <- ?app_assoc. exact H.
  - pose proof (holds_fresh_collection (pre ++ ODict (board_entries
        (fresh_board (length pre) b)) :: collection_objects r (rows b))
        (collection_objects t (right b) ++ post) (left b)) as H.
    rewrite length_app in H. cbn [length] in H.
    rewrite collection_objects_length in H.
    replace (length pre + S (collection_size (rows b)))%nat with l in H
      by (unfold l, r; lia).
    rewrite <- ?app_assoc in H. cbn [app] in H.
    rewrite <- ?app_assoc in H.
    unfold fresh_board. cbn [left_shape]. fold r. fold l.
    cbn [app]. rewrite <- ?app_assoc. exact H.
  - pose proof (holds_fresh_collection (pre ++ ODict (board_entries
        (fresh_board (length pre) b)) :: collection_objects r (rows b)
        ++ collection_objects l (left b)) post (right b)) as H.
    rewrite length_app in H. cbn [length] in H.
    rewrite length_app, !collection_objects_length in H.
    replace (length pre + S (collection_size (rows b)
                             + collection_size (left b)))%nat with t in H
      by (unfold t, l, r; lia).
    rewrite <- ?app_assoc in H. cbn [app] in H.
    rewrite <- ?app_assoc in H.
    unfold fresh_board. cbn [right_shape]. fold r. fold l. fold t.
    cbn [app]. rewrite <- ?app_assoc. exact H.
Qed.

(** ** The store: [move_to_board] *)

Lemma same_outside_refl ws h : same_outside ws h h.
Proof. by split. Qed.

Lemma same_outside_trans ws1 ws2 ws h1 h2 h3 :
  same_outside ws1 h1 h2 -> same_outside ws2 h2 h3 ->
  (forall l, l ∈ ws1 -> l ∈ ws) -> (forall l, l ∈ ws2 -> l ∈ ws) ->
  same_outside ws h1 h3.
Proof.
  intros [Hl1 H1] [Hl2 H2] Hs1 Hs2. split; [congruence|].
  intros l Hl. rewrite H2, H1; auto.
Qed.

Lemma same_outside_insert ws (h : heap) l o :
  l ∈ ws -> same_outside ws h (<[l := o]> h).
Proof.
  intros Hl. split; [by rewrite length_insert|].
  intros l' Hl'. apply list_lookup_insert_ne. by intros ->.
Qed.

Lemma count_strings p cs :
  Z.of_nat (length (filter (fun x => x = VStr p) (map VStr cs))) = count p cs.
Proof.
  unfold count. f_equal. induction cs as [|c cs IH]; [done|].
  cbn [map]. rewrite !filter_cons.
  destruct (decide (c = p)) as [->|Hne].
  - rewrite decide_True by done. simpl. by rewrite IH.
  - rewrite decide_False by congruence. done.
Qed.

Lemma map_insert_string cs i p :
  <[i := VStr p]> (map VStr cs) = map VStr (<[i := p]> cs).
Proof. symmetry. apply (list_fmap_insert VStr). Qed.

Lemma string_eq_decide (c move : string) :
  bool_decide (VStr c = VStr move) = String.eqb c move.
Proof.
  destruct (String.eqb_spec c move) as [->|Hne].
  - by apply bool_decide_eq_true_2.
  - apply bool_decide_eq_false_2. congruence.
Qed.

Lemma move_to_board_store_step_spec (h : heap) ls sh sc ln move p cell :
  line_state h ls sh sc ln ->
  at_line sh <> at_cells sh -> ls <> at_line sh -> ls <> at_cells sh ->
  (cell < length (cells ln))%nat ->
  exists h',
    move_to_board_store_step (VRef ls) (VRef (at_line sh)) move p h cell
    = Some h'
    /\ line_state h' ls sh
         (fst (move_to_board_step move p (sc, ln) cell))
         (snd (move_to_board_step move p (sc, ln) cell))
    /\ same_outside (ls :: line_addresses sh) h h'.
Proof.
  intros [[Hline Hcells] Hscores] Hne Hls1 Hls2 Hcell.
  pose proof (lookup_lt_Some _ _ _ Hline) as Hlt1.
  pose proof (lookup_lt_Some _ _ _ Hcells) as Hlt2.
  pose proof (lookup_lt_Some _ _ _ Hscores) as Hlt3.
  destruct (lookup_lt_is_Some_2 (cells ln) cell Hcell) as [c Hc].
  unfold move_to_board_store_step, move_to_board_step.
  unfold get_item at 1, get_list at 1. rewrite Hline. cbn [lookup list_lookup].
  unfold get_item at 1, get_list at 1. rewrite Hcells, lookup_map, Hc.
  cbn [fmap option_fmap option_map]. rewrite string_eq_decide.
  destruct (String.eqb c move) eqn:Hmove; cycle 1.
  { exists h. split; [done|]. split; [by split|apply same_outside_refl]. }
  unfold set_item at 1. rewrite Hcells, length_map.
  rewrite decide_True by done. rewrite map_insert_string.
  set (cs := <[cell := p]> (cells ln)).
  set (h1 := <[at_cells sh := OList (map VStr cs)]> h).
  assert (H1line : h1 !! at_line sh
                   = Some (OList [VStr (tag ln); VRef (at_cells sh)])).
  { unfold h1. by rewrite list_lookup_insert_ne. }
  assert (H1cells : h1 !! at_cells sh = Some (OList (map VStr cs))).
  { unfold h1. by apply list_lookup_insert_eq. }
  assert (H1scores : h1 !! ls
                     = Some (OList [VInt (fst sc); VInt (snd sc)])).
  { unfold h1. by rewrite list_lookup_insert_ne. }
  assert (Hsame1 : same_outside (ls :: line_addresses sh) h h1).
  { apply same_outside_insert. right; right; left. }
  unfold get_item at 1, get_list at 1 2. rewrite H1line, H1cells.
  cbn [lookup list_lookup]. rewrite string_eq_decide, length_map, count_strings.
  fold (holds_half p cs).
  destruct (String.eqb (tag ln) "n" && holds_half p cs
            && String.eqb p "2") eqn:Hc1.
  - unfold set_item at 1. rewrite H1line. cbn [length].
    rewrite decide_True by lia. cbn [insert list_insert].
    set (h2 := <[at_line sh := _]> h1).
    unfold increment, get_item, get_list.
    assert (h2 !! ls = Some (OList [VInt (fst sc); VInt (snd sc)])) as ->.
    { unfold h2. by rewrite list_lookup_insert_ne. }
    cbn [lookup list_lookup]. unfold set_item.
    assert (h2 !! ls = Some (OList [VInt (fst sc); VInt (snd sc)])) as ->.
    { unfold h2. by rewrite list_lookup_insert_ne. }
    cbn [length]. rewrite decide_True by lia. cbn [insert list_insert].
    eexists. split; [done|]. cbn [fst snd]. split; [split; [split|]|].
    + rewrite list_lookup_insert_ne by done.
      unfold h2, h1. apply list_lookup_insert_eq. by rewrite !length_insert.
    + rewrite list_lookup_insert_ne by done.
      unfold h2. by rewrite list_lookup_insert_ne.
    + apply list_lookup_insert_eq. unfold h2, h1. by rewrite !length_insert.
    + eapply same_outside_trans; [exact Hsame1| |done|done].
      eapply same_outside_trans; [apply (same_outside_insert [at_line sh]);
        left|apply (same_outside_insert [ls]); left| |].
      * intros l ->%list_elem_of_singleton. right; left.
      * intros l ->%list_elem_of_singleton. left.
  - destruct (String.eqb (tag ln) "n" && holds_half p cs) eqn:Hc2.
    + unfold set_item at 1. rewrite H1line. cbn [length].
      rewrite decide_True by lia. cbn [insert list_insert].
      set (h2 := <[at_line sh := _]> h1).
      unfold increment, get_item, get_list.
      assert (h2 !! ls = Some (OList [VInt (fst sc); VInt (snd sc)])) as ->.
      { unfold h2. by rewrite list_lookup_insert_ne. }
      cbn [lookup list_lookup]. unfold set_item.
      assert (h2 !! ls = Some (OList [VInt (fst sc); VInt (snd sc)])) as ->.
      { unfold h2. by rewrite list_lookup_insert_ne. }
      cbn [length]. rewrite decide_True by lia. cbn [insert list_insert].
      eexists. split; [done|]. cbn [fst snd]. split; [split; [split|]|].
      * rewrite list_lookup_insert_ne by done.
        unfold h2, h1. apply list_lookup_insert_eq. by rewrite !length_insert.
      * rewrite list_lookup_insert_ne by done.
        unfold h2. by rewrite list_lookup_insert_ne.
      * apply list_lookup_insert_eq. unfold h2, h1. by rewrite !length_insert.
      * eapply same_outside_trans; [exact Hsame1| |done|done].
        eapply same_outside_trans; [apply (same_outside_insert [at_line sh]);
          left|apply (same_outside_insert [ls]); left| |].
        -- intros l ->%list_elem_of_singleton. right; left.
        -- intros l ->%list_elem_of_singleton. left.
    + exists h1. split; [done|]. cbn [fst snd]. split; [|done].
      split; [split|]; done.
Qed.

Lemma move_to_board_step_length move p acc cell :
  length (cells (snd (move_to_board_step move p acc cell)))
  = length (cells (snd acc)).
Proof.
  destruct acc as [sc ln]. unfold move_to_board_step. simpl.
  destruct (cells ln !! cell); [|done].
  destruct (String.eqb _ move); [|done].
  repeat case_match; simpl; by rewrite length_insert.
Qed.

Lemma move_to_board_store_loop (h : heap) ls sh move p idxs :
  at_line sh <> at_cells sh -> ls <> at_line sh -> ls <> at_cells sh ->
  forall h acc,
    line_state h ls sh (fst acc) (snd acc) ->
    Forall (fun i => (i < length (cells (snd acc)))%nat) idxs ->
    exists h',
      for_store (move_to_board_store_step (VRef ls) (VRef (at_line sh))
                   move p) idxs h = Some h'
      /\ line_state h' ls sh
           (fst (fold_left (move_to_board_step move p) idxs acc))
           (snd (fold_left (move_to_board_step move p) idxs acc))
      /\ same_outside (ls :: line_addresses sh) h h'.
Proof.
  intros Hne Hls1 Hls2. clear h.
  induction idxs as [|i idxs IH]; intros h acc Hstate Hidxs.
  - exists h. split; [done|]. split; [done|apply same_outside_refl].
  - apply Forall_cons in Hidxs as [Hi Hidxs]. destruct acc as [sc ln].
    destruct (move_to_board_store_step_spec h ls sh sc ln move p i)
      as (h1 & Hstep & Hstate1 & Hsame1); [done..|].
    destruct (IH h1 (move_to_board_step move p (sc, ln) i))
      as (h2 & Hrun & Hstate2 & Hsame2); [done| |].
    { eapply Forall_impl; [exact Hidxs|]. intros j Hj.
      by rewrite move_to_board_step_length. }
    exists h2. cbn [for_store fold_left]. rewrite Hstep.
    split; [done|]. split; [done|].
    by eapply same_outside_trans.
Qed.

Lemma move_to_board_store_spec (h : heap) ls sh sc ln move p :
  line_state h ls sh sc ln ->
  at_line sh <> at_cells sh -> ls <> at_line sh -> ls <> at_cells sh ->
  exists h',
    move_to_board_store (VRef ls) (VRef (at_line sh)) move p h = Some h'
    /\ line_state h' ls sh (fst (move_to_board sc ln move p))
         (snd (move_to_board sc ln move p))
    /\ same_outside (ls :: line_addresses sh) h h'.
Proof.
  intros Hstate Hne Hls1 Hls2. pose proof Hstate as [[Hline Hcells] _].
  unfold move_to_board_store, get_item, get_list. rewrite Hline.
  cbn [lookup list_lookup]. rewrite Hcells, length_map.
  apply (move_to_board_store_loop h ls sh move p _ Hne Hls1 Hls2 h (sc, ln));
    [done|].
  apply Forall_forall. intros i Hi%elem_of_seq. simpl. lia.
Qed.

(** ** The store: the loops of [make_move] *)

Lemma find_entry_lines done sh rest j :
  find_entry (VInt (Z.of_nat (j + length done)))
    (lines_entries j (done ++ sh :: rest))
  = Some (VRef (at_line sh)).
Proof.
  revert j. induction done as [|d done IH]; intros j; simpl.
  - rewrite Nat.add_0_r. by rewrite decide_True.
  - rewrite decide_False by (intros [= Heq]; lia).
    specialize (IH (S j)).
    by replace (S j + length done)%nat with (j + S (length done))%nat in IH
      by lia.
Qed.

Lemma move_to_lines_cons sc ln lns move p :
  move_to_lines sc (ln :: lns) move p
  = (fst (move_to_lines (fst (move_to_board sc ln move p)) lns move p),
     snd (move_to_board sc ln move p)
     :: snd (move_to_lines (fst (move_to_board sc ln move p)) lns move p)).
Proof.
  simpl. destruct (move_to_board sc ln move p) as [sc1 l'].
  simpl. by destruct (move_to_lines sc1 lns move p).
Qed.

Lemma move_line_loop rb ls dl key es_b move p shs :
  find_entry key es_b = Some (VRef dl) ->
  forall lns shs_done (h : heap) sc,
    h !! rb = Some (ODict es_b) ->
    h !! dl = Some (ODict (lines_entries 0 (shs_done ++ shs))) ->
    Forall2 (holds_line h) shs lns ->
    h !! ls = Some (OList [VInt (fst sc); VInt (snd sc)]) ->
    NoDup (ls :: concat (map line_addresses shs)) ->
    rb ∉ ls :: concat (map line_addresses shs) ->
    dl ∉ ls :: concat (map line_addresses shs) ->
    exists h',
      for_store (move_line_store (VRef rb) (VRef ls) move p key)
        (map fst (lines_entries (length shs_done) shs)) h = Some h'
      /\ Forall2 (holds_line h') shs (snd (move_to_lines sc lns move p))
      /\ h' !! ls
         = Some (OList [VInt (fst (fst (move_to_lines sc lns move p)));
                        VInt (snd (fst (move_to_lines sc lns move p)))])
      /\ same_outside (ls :: concat (map line_addresses shs)) h h'.
Proof.
  intros Hkey. induction shs as [|sh shs IH];
    intros lns shs_done h sc Hrb Hdl Hlines Hls Hnd Hrbw Hdlw.
  - apply Forall2_nil_inv_l in Hlines as ->. exists h. simpl.
    split_and!; [done|constructor|by destruct sc|apply same_outside_refl].
  - apply Forall2_cons_inv_l in Hlines as (ln & lns' & Hline & Hlines & ->).
    rewrite line_addresses_cons in *.
    apply NoDup_cons in Hnd as [Hls_out Hnd].
    apply NoDup_app in Hnd as (Hnd1 & Hdisj & Hnd2).
    apply NoDup_cons in Hnd1 as [Hne _].
    assert (Hne' : at_line sh <> at_cells sh).
    { intros Heq. apply Hne. rewrite Heq. left. }
    assert (Hls1 : ls <> at_line sh).
    { intros ->. apply Hls_out. apply elem_of_app. left. left. }
    assert (Hls2 : ls <> at_cells sh).
    { intros ->. apply Hls_out. apply elem_of_app. left. right. left. }
    destruct (move_to_board_store_spec h ls sh sc ln move p)
      as (h1 & Hrun1 & [Hline1 Hsc1] & Hsame1); [by split|done..|].
    destruct Hsame1 as [Hlen1 Hsame1].
    assert (Hrest : forall l, l ∈ concat (map line_addresses shs) ->
                      l ∉ ls :: line_addresses sh).
    { intros l Hl [->|Hin]%elem_of_cons.
      - apply Hls_out. apply elem_of_app. by right.
      - by apply (Hdisj l). }
    destruct (IH lns' (shs_done ++ [sh]) h1
                (fst (move_to_board sc ln move p)))
      as (h2 & Hrun2 & Hlines2 & Hsc2 & Hsame2).
    + rewrite Hsame1; [done|]. intros [->|Hin]%elem_of_cons.
      * apply Hrbw. left.
      * apply Hrbw. right. apply elem_of_app. by left.
    + rewrite <- app_assoc. cbn [app]. rewrite Hsame1; [done|].
      intros [->|Hin]%elem_of_cons.
      * apply Hdlw. left.
      * apply Hdlw. right. apply elem_of_app. by left.
    + eapply holds_line_all_frame; [exact Hlines|].
      intros l Hl. apply Hsame1. by apply Hrest.
    + done.
    + constructor; [|done]. intros Hin. apply Hls_out.
      apply elem_of_app. by right.
    + intros [->|Hin]%elem_of_cons.
      * apply Hrbw. left.
      * apply Hrbw. right. apply elem_of_app. by right.
    + intros [->|Hin]%elem_of_cons.
      * apply Hdlw. left.
      * apply Hdlw. right. apply elem_of_app. by right.
    + exists h2. rewrite move_to_lines_cons. cbn [fst snd].
      destruct Hsame2 as [Hlen2 Hsame2]. split_and!.
      * cbn [lines_entries map fst for_store].
        unfold move_line_store at 1, get_entry, get_dict.
        rewrite Hrb, Hkey, Hdl.
        pose proof (find_entry_lines shs_done sh shs 0) as Hfind.
        cbn [Nat.add] in Hfind. rewrite Hfind, Hrun1.
        rewrite length_app in Hrun2. cbn [length] in Hrun2.
        by replace (length shs_done + 1)%nat with (S (length shs_done))
          in Hrun2 by lia.
      * constructor; [|done].
        eapply holds_line_frame; [exact Hline1|].
        intros l Hl. apply Hsame2.
        intros [->|Hin]%elem_of_cons.
        -- apply Hls_out. apply elem_of_app. by left.
        -- by apply (Hdisj l).
      * done.
      * split; [congruence|]. intros l Hl.
        rewrite Hsame2, Hsame1; [done| |].
        -- intros [->|Hin]%elem_of_cons; apply Hl; [left|].
           right. apply elem_of_app. by left.
        -- intros [->|Hin]%elem_of_cons; apply Hl; [left|].
           right. apply elem_of_app. by right.
Qed.

Lemma lines_entries_keys i shs :
  map fst (lines_entries i shs)
  = map (fun j => VInt (Z.of_nat j)) (seq i (length shs)).
Proof.
  revert i. induction shs as [|sh shs IH]; intros i; [done|].
  simpl. by rewrite IH.
Qed.

Lemma move_lines_store_spec rb ls key es_b move p sh lns (h : heap) sc :
  find_entry key es_b = Some (VRef (at_lines sh)) ->
  h !! rb = Some (ODict es_b) ->
  holds_lines h sh lns ->
  h !! ls = Some (OList [VInt (fst sc); VInt (snd sc)]) ->
  NoDup (ls :: lines_addresses sh) ->
  rb ∉ ls :: lines_addresses sh ->
  exists h',
    move_lines_store (VRef rb) (VRef ls) move p h key = Some h'
    /\ holds_lines h' sh (snd (move_to_lines sc lns move p))
    /\ h' !! ls
       = Some (OList [VInt (fst (fst (move_to_lines sc lns move p)));
                      VInt (snd (fst (move_to_lines sc lns move p)))])
    /\ same_outside (ls :: lines_addresses sh) h h'.
Proof.
  intros Hkey Hrb [Hdict Hlines] Hls Hnd Hrbw.
  unfold lines_addresses in *.
  apply NoDup_cons in Hnd as [Hls_out Hnd].
  apply NoDup_cons in Hnd as [Hdl_out Hnd].
  destruct (move_line_loop rb ls (at_lines sh) key es_b move p
              (line_shapes sh) Hkey lns [] h sc)
    as (h' & Hrun & Hlines' & Hsc' & [Hlen Hsame]); [done..| | | |].
  { constructor; [|done]. intros Hin. apply Hls_out. by right. }
  { intros [->|Hin]%elem_of_cons; apply Hrbw; [left|by right; right]. }
  { intros [<-|Hin]%elem_of_cons; [apply Hls_out; left|done]. }
  exists h'. split_and!.
  - unfold move_lines_store, get_entry, keys, get_dict.
    rewrite Hrb, Hkey, Hdict. exact Hrun.
  - split; [|done]. rewrite Hsame; [done|].
    intros [<-|Hin]%elem_of_cons; [apply Hls_out; left|done].
  - done.
  - split; [done|]. intros l Hl. apply Hsame.
    intros [->|Hin]%elem_of_cons; apply Hl; [left|by right; right].
Qed.

Lemma make_move_lines s move :
  make_move s move
  = let p := mover s in
    let r := move_to_lines (p1_score s, p2_score s) (rows (cur_board s))
               move p in
    let l := move_to_lines (fst r) (left (cur_board s)) move p in
    let t := move_to_lines (fst l) (right (cur_board s)) move p in
    State (String.eqb p "2") (Board (snd r) (snd l) (snd t))
      (fst (fst t)) (snd (fst t)) (side s).
Proof.
  unfold make_move, mover, new_state. cbn zeta.
  destruct (move_to_lines _ (rows _) _ _) as [sc1 rs]. cbn [fst snd].
  destruct (move_to_lines _ (left _) _ _) as [sc2 dl]. cbn [fst snd].
  by destruct (move_to_lines _ (right _) _ _) as [sc3 dr].
Qed.

(** ** The store: [make_move] *)

Lemma fresh_board_range n b l :
  l ∈ board_addresses (fresh_board n b) -> (n <= l < n + board_size b)%nat.
Proof. rewrite fresh_board_addresses. by intros ?%elem_of_seq. Qed.

Lemma fresh_board_nodup n b : NoDup (board_addresses (fresh_board n b)).
Proof. rewrite fresh_board_addresses. apply NoDup_seq. Qed.

Lemma board_addresses_parts sh ls :
  NoDup (ls :: board_addresses sh) ->
  NoDup (ls :: lines_addresses (rows_shape sh))
  /\ NoDup (ls :: lines_addresses (left_shape sh))
  /\ NoDup (ls :: lines_addresses (right_shape sh))
  /\ at_board sh <> ls
  /\ (at_board sh ∉ inner_addresses sh)
  /\ (forall l, l ∈ lines_addresses (rows_shape sh) ->
        (l ∉ lines_addresses (left_shape sh))
        /\ (l ∉ lines_addresses (right_shape sh)))
  /\ (forall l, l ∈ lines_addresses (left_shape sh) ->
        l ∉ lines_addresses (right_shape sh)).
Proof.
  unfold board_addresses, inner_addresses.
  intros [Hls Hnd]%NoDup_cons. apply NoDup_cons in Hnd as [Hroot Hnd].
  apply NoDup_app in Hnd as (Hr & Hdisj1 & Hnd).
  apply NoDup_app in Hnd as (Hl & Hdisj2 & Ht).
  apply not_elem_of_cons in Hls as [Hne Hls].
  apply not_elem_of_app in Hls as [Hlsr Hls].
  apply not_elem_of_app in Hls as [Hlsl Hlst].
  split_and!; [by constructor..|congruence|done| |done].
  intros l Hin. specialize (Hdisj1 l Hin).
  by apply not_elem_of_app in Hdisj1.
Qed.

Lemma collection_in_board sh l :
  l ∈ lines_addresses (rows_shape sh)
  \/ l ∈ lines_addresses (left_shape sh)
  \/ l ∈ lines_addresses (right_shape sh) ->
  l ∈ board_addresses sh.
Proof.
  unfold board_addresses, inner_addresses. intros H.
  apply elem_of_cons. right. rewrite !elem_of_app. tauto.
Qed.

Lemma board_root_apart sh ls :
  NoDup (ls :: board_addresses sh) ->
  (at_board sh ∉ ls :: lines_addresses (rows_shape sh))
  /\ (at_board sh ∉ ls :: lines_addresses (left_shape sh))
  /\ (at_board sh ∉ ls :: lines_addresses (right_shape sh)).
Proof.
  unfold board_addresses, inner_addresses.
  intros [Hls Hnd]%NoDup_cons. apply NoDup_cons in Hnd as [Hroot _].
  apply not_elem_of_cons in Hls as [Hls _].
  apply not_elem_of_app in Hroot as [Hr Hroot].
  apply not_elem_of_app in Hroot as [Hl Ht].
  split_and!; apply not_elem_of_cons; (split; [congruence|done]).
Qed.

Lemma holds_board_frame (h h' : heap) sh b :
  holds_board h sh b ->
  (forall l, l ∈ board_addresses sh -> h' !! l = h !! l) ->
  holds_board h' sh b.
Proof.
  intros (Hd & Hr & Hl & Ht) Hsame. split_and!.
  - rewrite Hsame; [done|]. left.
  - eapply holds_lines_frame; [done|]. intros l Hin. apply Hsame.
    apply collection_in_board. tauto.
  - eapply holds_lines_frame; [done|]. intros l Hin. apply Hsame.
    apply collection_in_board. tauto.
  - eapply holds_lines_frame; [done|]. intros l Hin. apply Hsame.
    apply collection_in_board. tauto.
Qed.

Lemma holds_lines_bound (h : heap) sh lns l :
  holds_lines h sh lns -> l ∈ lines_addresses sh -> (l < length h)%nat.
Proof.
  intros [Hd Hlines] [->|Hl]%elem_of_cons; [by eapply lookup_lt_Some|].
  clear Hd. induction Hlines as [|sh' ln shs lns' [Ha Hb] _ IH];
    [by apply elem_of_nil in Hl|].
  rewrite line_addresses_cons in Hl.
  apply elem_of_app in Hl as [Hl|Hl]; [|by apply IH].
  unfold line_addresses in Hl.
  apply elem_of_cons in Hl as [->|Hl]; [by eapply lookup_lt_Some|].
  apply list_elem_of_singleton in Hl as ->. by eapply lookup_lt_Some.
Qed.

Lemma holds_board_bound (h : heap) sh b l :
  holds_board h sh b -> l ∈ board_addresses sh -> (l < length h)%nat.
Proof.
  intros (Hd & Hr & Hl & Ht) [->|Hin]%elem_of_cons;
    [by eapply lookup_lt_Some|].
  unfold inner_addresses in Hin.
  apply elem_of_app in Hin as [Hin|Hin];
    [exact (holds_lines_bound _ _ _ _ Hr Hin)|].
  apply elem_of_app in Hin as [Hin|Hin];
    [exact (holds_lines_bound _ _ _ _ Hl Hin)
    |exact (holds_lines_bound _ _ _ _ Ht Hin)].
Qed.

(** A board lies in at least four objects. *)
Lemma holds_board_four (h : heap) sh b :
  holds_board h sh b -> NoDup (board_addresses sh) -> (3 < length h)%nat.
Proof.
  intros Hb Hnd.
  assert (Hin : forall l, l = at_board sh \/ l = at_lines (rows_shape sh)
                  \/ l = at_lines (left_shape sh)
                  \/ l = at_lines (right_shape sh) ->
                  (l < length h)%nat).
  { intros l Hl. apply (holds_board_bound h sh b l Hb).
    destruct Hl as [->|Hl]; [left|]. apply collection_in_board.
    destruct Hl as [-> | [-> | ->]]; [left|right; left|right; right]; left. }
  pose proof (Hin _ (or_introl eq_refl)) as H0.
  pose proof (Hin _ (or_intror (or_introl eq_refl))) as H1.
  pose proof (Hin _ (or_intror (or_intror (or_introl eq_refl)))) as H2.
  pose proof (Hin _ (or_intror (or_intror (or_intror eq_refl)))) as H3.
  unfold board_addresses, inner_addresses, lines_addresses in Hnd.
  apply NoDup_cons in Hnd as [Hroot Hnd].
  apply NoDup_app in Hnd as (_ & Hdisj1 & Hnd).
  apply NoDup_app in Hnd as (_ & Hdisj2 & _).
  apply not_elem_of_app in Hroot as [Hr Hroot].
  apply not_elem_of_app in Hroot as [Hl Ht].
  apply not_elem_of_cons in Hr as [Hr _].
  apply not_elem_of_cons in Hl as [Hl _].
  apply not_elem_of_cons in Ht as [Ht _].
  specialize (Hdisj1 _ (list_elem_of_here _ _)).
  apply not_elem_of_app in Hdisj1 as [Hrl Hrt].
  apply not_elem_of_cons in Hrl as [Hrl _].
  apply not_elem_of_cons in Hrt as [Hrt _].
  specialize (Hdisj2 _ (list_elem_of_here _ _)).
  apply not_elem_of_cons in Hdisj2 as [Hlt _].
  lia.
Qed.

(** [make_move] on the store refines [make_move]: from a store that holds
    the state [s] it returns, and the store it leaves holds the state
    [make_move s move] in objects that did not exist before, while the
    objects that existed are as they were. *)
Lemma make_move_store_spec (h : heap) o sh s move :
  holds_state h o sh s ->
  exists h' o' sh',
    make_move_store h o move = Some (h', o')
    /\ holds_state h' o' sh' (make_move s move)
    /\ (forall l, (l < length h)%nat -> h' !! l = h !! l)
    /\ (forall l, l ∈ board_addresses sh' -> (length h <= l)%nat).
Proof.
  intros (Hcur & Hboard & Hnd & Hturn & Hp1 & Hp2 & Hside).
  set (b := cur_board s) in *. set (n := length h).
  set (p := mover s).
  set (sh1 := fresh_board n b).
  set (ls := (n + board_size b)%nat).
  (* the deep copy *)
  pose proof (holds_board_four h sh b Hboard Hnd) as Hfour.
  destruct (deepcopy_board (length h - 3) h sh b Hboard Hnd)
    as [memo Hcopy].
  unfold make_move_store. rewrite Hcur.
  replace (S (length h)) with (S (S (S (S (length h - 3))))) by lia.
  rewrite Hcopy. fold n. cbn [alloc].
  rewrite length_app, board_objects_length.
  change (length h + board_size b)%nat with ls.
  rewrite <- app_assoc. rewrite Hturn, Hp1, Hp2. fold (mover s). fold p.
  set (h2 := h ++ board_objects n b
               ++ [OList [VInt (p1_score s); VInt (p2_score s)]]).
  assert (Hlen2 : length h2 = S ls).
  { unfold h2, ls, n. rewrite !length_app, board_objects_length.
    cbn [length]. lia. }
  assert (Hb2 : holds_board h2 sh1 b) by apply holds_fresh_board.
  assert (Hls2 : h2 !! ls
                 = Some (OList [VInt (p1_score s); VInt (p2_score s)])).
  { unfold h2. rewrite app_assoc.
    replace ls with (length (h ++ board_objects n b))
      by (rewrite length_app, board_objects_length; done).
    apply lookup_last. }
  assert (Hnd1 : NoDup (ls :: board_addresses sh1)).
  { constructor; [|apply fresh_board_nodup].
    intros Hin%fresh_board_range. unfold ls in Hin. lia. }
  destruct (board_addresses_parts _ _ Hnd1)
    as (Hndr & Hndl & Hndt & Hroot_ls & Hroot & Hdisj1 & Hdisj2).
  pose proof (board_root_apart _ _ Hnd1) as Hapart.
  cbn [at_board sh1 fresh_board] in Hapart. fold sh1 in Hapart.
  destruct Hb2 as (Hd2 & Hr2 & Hl2 & Ht2).
  cbn [at_board sh1 fresh_board] in Hd2.
  unfold keys, get_dict. rewrite Hd2. cbn [map fst board_entries for_store].
  (* the rows *)
  destruct (move_lines_store_spec n ls (VStr "rows") (board_entries sh1)
              move p (rows_shape sh1) (rows b) h2
              (p1_score s, p2_score s))
    as (h3 & -> & Hr3 & Hls3 & [Hlen3 Hsame3]); [done..|apply Hapart|].
  set (r := move_to_lines (p1_score s, p2_score s) (rows b) move p) in *.
  assert (Hd3 : h3 !! n = Some (ODict (board_entries sh1))).
  { rewrite Hsame3; [done|]. apply Hapart. }
  assert (Hl3 : holds_lines h3 (left_shape sh1) (left b)).
  { eapply holds_lines_frame; [exact Hl2|]. intros l Hin. apply Hsame3.
    apply NoDup_cons in Hndl as [Hndl _].
    intros [->|Hin']%elem_of_cons; [done|].
    by destruct (Hdisj1 l Hin'). }
  assert (Ht3 : holds_lines h3 (right_shape sh1) (right b)).
  { eapply holds_lines_frame; [exact Ht2|]. intros l Hin. apply Hsame3.
    apply NoDup_cons in Hndt as [Hndt _].
    intros [->|Hin']%elem_of_cons; [done|].
    by destruct (Hdisj1 l Hin'). }
  (* the left diagonals *)
  destruct (move_lines_store_spec n ls (VStr "left") (board_entries sh1)
              move p (left_shape sh1) (left b) h3 (fst r))
    as (h4 & -> & Hl4 & Hls4 & [Hlen4 Hsame4]); [done..|apply Hapart|].
  set (l := move_to_lines (fst r) (left b) move p) in *.
  assert (Hd4 : h4 !! n = Some (ODict (board_entries sh1))).
  { rewrite Hsame4; [done|]. apply Hapart. }
  assert (Hr4 : holds_lines h4 (rows_shape sh1) (snd r)).
  { eapply holds_lines_frame; [exact Hr3|]. intros a Hin. apply Hsame4.
    apply NoDup_cons in Hndr as [Hndr _].
    intros [->|Hin']%elem_of_cons; [done|].
    by destruct (Hdisj1 a Hin). }
  assert (Ht4 : holds_lines h4 (right_shape sh1) (right b)).
  { eapply holds_lines_frame; [exact Ht3|]. intros a Hin. apply Hsame4.
    apply NoDup_cons in Hndt as [Hndt _].
    intros [->|Hin']%elem_of_cons; [done|].
    by apply (Hdisj2 a Hin'). }
  (* the right diagonals *)
  destruct (move_lines_store_spec n ls (VStr "right") (board_entries sh1)
              move p (right_shape sh1) (right b) h4 (fst l))
    as (h5 & -> & Ht5 & Hls5 & [Hlen5 Hsame5]); [done..|apply Hapart|].
  set (t := move_to_lines (fst l) (right b) move p) in *.
  assert (Hd5 : h5 !! n = Some (ODict (board_entries sh1))).
  { rewrite Hsame5; [done|]. apply Hapart. }
  assert (Hr5 : holds_lines h5 (rows_shape sh1) (snd r)).
  { eapply holds_lines_frame; [exact Hr4|]. intros a Hin. apply Hsame5.
    apply NoDup_cons in Hndr as [Hndr _].
    intros [->|Hin']%elem_of_cons; [done|].
    by destruct (Hdisj1 a Hin). }
  assert (Hl5 : holds_lines h5 (left_shape sh1) (snd l)).
  { eapply holds_lines_frame; [exact Hl4|]. intros a Hin. apply Hsame5.
    apply NoDup_cons in Hndl as [Hndl _].
    intros [->|Hin']%elem_of_cons; [done|].
    by apply (Hdisj2 a Hin). }
  assert (Hlen5' : length h5 = S ls) by congruence.
  (* the new state *)
  unfold new_state_store, get_dict. rewrite Hd5. cbn [alloc].
  unfold get_item, get_list. rewrite (lookup_old _ _ _ _ Hls5).
  cbn [lookup list_lookup]. rewrite Hlen5'.
  set (sh2 := BoardShape (S ls) (rows_shape sh1) (left_shape sh1)
                (right_shape sh1)).
  eexists _, _, sh2. split; [reflexivity|].
  assert (Hinner : forall a, a ∈ inner_addresses sh2 ->
                     (n < a < ls)%nat).
  { intros a Hin.
    assert (a ∈ board_addresses sh1) as Hin'%fresh_board_range
      by (by right).
    assert (a <> n).
    { intros ->. by apply Hroot. }
    unfold ls. lia. }
  split_and!.
  - rewrite make_move_lines. fold b p r l t.
    unfold holds_state. cbn [obj_cur_board obj_p1_turn obj_p1_score
      obj_p2_score obj_length cur_board p1_turn p1_score p2_score side].
    split_and!; try done.
    + split_and!.
      * cbn [at_board sh2]. rewrite <- Hlen5'. apply lookup_last.
      * by apply holds_lines_old.
      * by apply holds_lines_old.
      * by apply holds_lines_old.
    + constructor.
      * intros Hin%Hinner. unfold sh2 in Hin. cbn [at_board] in Hin. lia.
      * pose proof (fresh_board_nodup n b) as H.
        by apply NoDup_cons in H as [_ H].
  - intros a Ha. rewrite lookup_app_l by lia.
    assert (Hout : forall ws : list nat,
               (forall x, x ∈ ws -> (n <= x)%nat) -> a ∉ ws).
    { intros ws Hws Hin%Hws. unfold n in Hin. lia. }
    rewrite Hsame5, Hsame4, Hsame3.
    + unfold h2. by rewrite lookup_app_l.
    + apply Hout. intros x [->|Hin]%elem_of_cons; [unfold ls; lia|].
      assert (x ∈ board_addresses sh1) as Hx%fresh_board_range; [|lia].
      apply collection_in_board. tauto.
    + apply Hout. intros x [->|Hin]%elem_of_cons; [unfold ls; lia|].
      assert (x ∈ board_addresses sh1) as Hx%fresh_board_range; [|lia].
      apply collection_in_board. tauto.
    + apply Hout. intros x [->|Hin]%elem_of_cons; [unfold ls; lia|].
      assert (x ∈ board_addresses sh1) as Hx%fresh_board_range; [|lia].
      apply collection_in_board. tauto.
  - intros a [->|Hin%Hinner]%elem_of_cons.
    + cbn [at_board sh2]. unfold ls, n. lia.
    + unfold n in *. lia.
Qed.

(** C6. Let a store hold the state [s] in the state object [o], with the
    board at [sh].  Then [make_move] returns; the store it leaves still
    holds [s] in [o] at [sh], every object that existed being as it was,
    so that the board and the scores of [s] are unchanged; it holds the new
    state [make_move s move] in objects that did not exist before, none of
    which is an object of the board of [s]; and whatever is later written
    into an object of the new board, the store still holds [s] in [o]. *)
Theorem make_move_leaves_state (h : heap) o sh s move :
  holds_state h o sh s ->
  exists h' o' sh',
    make_move_store h o move = Some (h', o')
    /\ holds_state h' o' sh' (make_move s move)
    /\ holds_state h' o sh s
    /\ (forall l, (l < length h)%nat -> h' !! l = h !! l)
    /\ (forall l, l ∈ board_addresses sh' ->
          (l ∉ board_addresses sh) /\ (length h <= l)%nat)
    /\ (forall l obj, l ∈ board_addresses sh' ->
          holds_state (<[l := obj]> h') o sh s).
Proof.
  intros Hs.
  destruct (make_move_store_spec h o sh s move Hs)
    as (h' & o' & sh' & Hrun & Hs' & Hframe & Hfresh).
  destruct Hs as (Hcur & Hboard & Hnd & Hrest).
  assert (Hold : forall l, l ∈ board_addresses sh -> (l < length h)%nat).
  { intros l Hl. by eapply holds_board_bound. }
  exists h', o', sh'. split_and!; [done|done| |done| |].
  - split; [done|]. split; [|by split].
    eapply holds_board_frame; [exact Hboard|]. intros l Hl.
    apply Hframe. by apply Hold.
  - intros l Hl. specialize (Hfresh l Hl). split; [|done].
    intros Hin%Hold. lia.
  - intros l obj Hl. specialize (Hfresh l Hl).
    split; [done|]. split; [|by split].
    eapply holds_board_frame; [exact Hboard|]. intros a Ha.
    specialize (Hold a Ha).
    rewrite list_lookup_insert_ne by lia. by apply Hframe.
Qed.

Lemma holds_state_1 :
  holds_state heap_1 state_object_1 shape_1 (current_state game_1).
Proof.
  split_and!; try reflexivity.
  - unfold holds_board, holds_lines. simpl.
    repeat (split || constructor).
  - apply (bool_decide_unpack _). vm_compute. exact I.
Qed.

Lemma make_move_leaves_state_witness :
  exists h' o' sh',
    make_move_store heap_1 state_object_1 "A" = Some (h', o')
    /\ holds_state h' o' sh' (make_move (current_state game_1) "A")
    /\ holds_state h' state_object_1 shape_1 (current_state game_1).
Proof.
  destruct (make_move_leaves_state heap_1 state_object_1 shape_1
              (current_state game_1) "A" holds_state_1)
    as (h' & o' & sh' & H1 & H2 & H3 & _).
  exists h', o', sh'. split; [exact H1|]. split; [exact H2|exact H3].
Defined.

(** * Further properties *)

(** ** [StonehengeGame.__init__] *)

Lemma side_cases len : 1 <= len <= 5 ->
  len = 1 \/ len = 2 \/ len = 3 \/ len = 4 \/ len = 5.
Proof. lia. Qed.

Ltac each_game H :=
  let Hs := fresh in
  pose proof (new_game_side _ _ _ H) as Hs;
  apply side_cases in Hs;
  destruct Hs as [-> | [-> | [-> | [-> | ->]]]];
  match type of H with new_game _ ?t = _ => destruct t end;
  vm_compute in H; injection H as <-.

(** X1. [StonehengeGame.__init__] returns a game exactly when the side
    length it reads is one of 1, 2, 3, 4 and 5: on any other integer the
    constructor ends in an exception. *)
Theorem new_game_defined len is_p1_turn :
  is_Some (new_game len is_p1_turn) <-> 1 <= len <= 5.
Proof.
  split.
  - intros [g H]. by eapply new_game_side.
  - intros H. apply side_cases in H.
    destruct H as [-> | [-> | [-> | [-> | ->]]]]; destruct is_p1_turn;
      vm_compute; eauto.
Qed.

(** X2. In a game that [StonehengeGame.__init__] has created with side
    length [len], the state holds the three collections of the game, the
    scores 0 and 0 and the side length; the rows have 2, 3, ..., [len] + 1
    cells and the last one [len] cells; read row by row, the cells are the
    first [(len * len + 5 * len) / 2] capital letters in alphabetical
    order; every ley-line is tagged ['n']; and the legal moves are all the
    cells, in that order. *)
Theorem new_game_rows len is_p1_turn g :
  new_game len is_p1_turn = Some g ->
  game_side g = len
  /\ current_state g
     = State is_p1_turn (Board (game_rows g) (down_left g) (down_right g))
         0 0 len
  /\ map (fun r => Z.of_nat (length (cells r))) (game_rows g)
     = map (fun i => Z.of_nat i + 2) (seq 0 (Z.to_nat len)) ++ [len]
  /\ all_cells (game_rows g)
     = take (Z.to_nat ((len * len + 5 * len) / 2))
         (map (fun a => String a EmptyString) (String.list_ascii_of_string letters))
  /\ Forall (fun l => tag l = "n") (game_rows g ++ down_left g ++ down_right g)
  /\ get_possible_moves (current_state g) = all_cells (game_rows g).
Proof.
  intros H. each_game H; vm_compute; repeat split; repeat constructor.
Qed.

Lemma new_game_rows_witness :
  all_cells (game_rows game_2) = ["A"; "B"; "C"; "D"; "E"; "F"; "G"]
  /\ get_possible_moves (current_state game_2) = all_cells (game_rows game_2).
Proof.
  destruct (new_game_rows 2 true game_2 new_game_2)
    as (_ & _ & _ & H4 & _ & H6).
  split; [exact H4|exact H6].
Defined.

(** X3. In a game that [StonehengeGame.__init__] has created, there are as
    many down-left and down-right ley-lines as rows; no label is written in
    two cells of the rows; the cells of the down-left ley-lines, and those
    of the down-right ley-lines, are the cells of the rows in another
    order, so that every cell lies on exactly one ley-line of each
    direction; and the ley-lines of each direction have the same lengths as
    the rows, up to their order. *)
Theorem new_game_diagonals len is_p1_turn g :
  new_game len is_p1_turn = Some g ->
  length (down_left g) = length (game_rows g)
  /\ length (down_right g) = length (game_rows g)
  /\ NoDup (all_cells (game_rows g))
  /\ all_cells (down_left g) ≡ₚ all_cells (game_rows g)
  /\ all_cells (down_right g) ≡ₚ all_cells (game_rows g)
  /\ map (fun l => length (cells l)) (down_left g)
     ≡ₚ map (fun l => length (cells l)) (game_rows g)
  /\ map (fun l => length (cells l)) (down_right g)
     ≡ₚ map (fun l => length (cells l)) (game_rows g).
Proof.
  intros H.
  each_game H;
    (split; [done|]); (split; [done|]);
    (split; [by apply (bool_decide_unpack _); vm_compute|]);
    repeat split; by apply (bool_decide_unpack _); vm_compute.
Qed.
Lemma new_game_fresh len is_p1_turn g :
  new_game len is_p1_turn = Some g ->
  game_side g = len
  /\ current_state g
     = State is_p1_turn (Board (game_rows g) (down_left g) (down_right g))
         0 0 len.
Proof. intros H. by each_game H. Qed.

Lemma new_game_shaped len is_p1_turn g :
  new_game len is_p1_turn = Some g -> shaped (current_state g).
Proof.
  intros H. each_game H; by apply (bool_decide_unpack _); vm_compute.
Qed.

Lemma count_claim_ge q move p cs :
  q <> move -> count q cs <= count q (map (claim move p) cs).
Proof.
  intros Hq. induction cs as [|c cs IH]; [done|].
  cbn [map]. rewrite !count_cons. unfold claim at 1.
  destruct (String.eqb_spec c move) as [->|Hc].
  - destruct (String.eqb_spec move q) as [->|_]; [done|].
    destruct (String.eqb p q); lia.
  - lia.
Qed.

Lemma line_after_cells move p l :
  cells (line_after move p l) = map (claim move p) (cells l).
Proof. done. Qed.

Lemma captured_tag_player p : p = "1" \/ p = "2" -> captured_tag p = p.
Proof. by intros [-> | ->]. Qed.

Lemma line_owned_after move p l :
  p = "1" \/ p = "2" -> unclaimed move = true ->
  line_ok l -> line_owned l -> line_owned (line_after move p l).
Proof.
  intros Hp Hmove%unclaimed_spec [Htag Hn] [H1 H2].
  unfold line_owned. rewrite line_after_cells, length_map.
  unfold line_after. cbn [tag].
  destruct (captures move p l) eqn:Hcap.
  - rewrite (captured_tag_player p Hp).
    unfold captures in Hcap. apply andb_true_iff in Hcap as [_ Hhalf].
    rewrite holds_half_spec, length_map in Hhalf. apply Z.leb_le in Hhalf.
    split; intros ->; done.
  - split; intros Ht.
    + specialize (H1 Ht).
      assert (Hne : "1" <> move) by (intros <-; by destruct Hmove).
      pose proof (count_claim_ge "1" move p (cells l) Hne). lia.
    + specialize (H2 Ht).
      assert (Hne : "2" <> move) by (intros <-; by destruct Hmove).
      pose proof (count_claim_ge "2" move p (cells l) Hne). lia.
Qed.

Lemma is_label_claim move p c :
  p = "1" \/ p = "2" -> is_label c = true -> is_label (claim move p c) = true.
Proof.
  intros Hp Hc. unfold claim. destruct (String.eqb c move); [|done].
  by destruct Hp as [-> | ->].
Qed.

Lemma shaped_make_move s move :
  consistent s -> shaped s -> move ∈ get_possible_moves s ->
  shaped (make_move s move).
Proof.
  intros (Hok & _) (Hside & Hr & Hl & Ht & Hpl & Hpr & Hown & Hlab) Hmove.
  pose proof (legal_move_unclaimed _ _ Hmove) as Hun.
  pose proof (mover_cases s) as Hp.
  pose proof (mover_claimed s) as Hpc.
  rewrite make_move_spec. unfold shaped. cbn [cur_board side].
  rewrite all_lines_after. cbn [rows left right].
  rewrite !length_map, !free_cells_after by done.
  repeat split; try done.
  - by rewrite Hpl.
  - by rewrite Hpr.
  - apply Forall_map. rewrite Forall_forall in Hok, Hown |- *.
    intros l Hl'. apply line_owned_after; auto.
  - apply Forall_map. rewrite Forall_forall in Hlab |- *.
    intros l Hl'. rewrite line_after_cells. apply Forall_map.
    specialize (Hlab l Hl'). rewrite Forall_forall in Hlab |- *.
    intros c Hc. apply is_label_claim; auto.
Qed.

Lemma reachable_shaped len is_p1_turn g s :
  new_game len is_p1_turn = Some g -> reachable g s -> shaped s.
Proof.
  intros Hg Hs. induction Hs as [|s move Hs IH Hmove].
  - by eapply new_game_shaped.
  - apply shaped_make_move; [|done..].
    by eapply reachable_consistent.
Qed.
Lemma reachable_invariants len is_p1_turn g s :
  new_game len is_p1_turn = Some g -> reachable g s ->
  consistent s /\ shaped s /\ side s = len /\ game_side g = len.
Proof.
  intros Hg Hs.
  destruct (reachable_consistent _ _ _ _ Hg Hs) as [Hc Hside].
  pose proof (reachable_shaped _ _ _ _ Hg Hs).
  by destruct (new_game_fresh _ _ _ Hg) as [? _].
Qed.

Lemma tagged_nonneg p ls : 0 <= tagged p ls.
Proof. unfold tagged. lia. Qed.

Lemma tagged_sum ls : tagged "1" ls + tagged "2" ls <= Z.of_nat (length ls).
Proof.
  induction ls as [|l ls IH]; [done|].
  rewrite !tagged_cons. cbn [length].
  destruct (String.eqb_spec (tag l) "1") as [->|]; [cbn; lia|].
  destruct (String.eqb (tag l) "2"); lia.
Qed.

Lemma new_game_diagonals_witness :
  all_cells (down_left game_2) ≡ₚ all_cells (game_rows game_2)
  /\ all_cells (down_right game_2) ≡ₚ all_cells (game_rows game_2).
Proof.
  destruct (new_game_diagonals 2 true game_2 new_game_2)
    as (_ & _ & _ & H4 & H5 & _).
  split; [exact H4|exact H5].
Defined.

(** ** [move_to_board] and [make_move] *)

(** X4. What one call of [move_to_board] does, whatever its arguments: every
    cell of the ley-line that holds the label [move] is overwritten with
    [cur_player] and the other cells are kept; the ley-line is captured
    exactly when [move] was in one of its cells, its tag was ['n'] and
    [cur_player] now holds at least half of its cells; a captured ley-line
    is tagged ['2'] and gives player 2 a point when [cur_player] is ['2'],
    and is tagged ['1'] and gives player 1 a point for any other
    [cur_player]; otherwise the tag and the scores stay as they were. *)
Theorem move_to_board_effect scores l move p :
  let captured :=
    bool_decide (move ∈ cells l) && bool_decide (tag l = "n")
    && bool_decide (Z.of_nat (length (cells l))
                    <= 2 * count p (map (claim move p) (cells l))) in
  move_to_board scores l move p
  = (if captured then
       if bool_decide (p = "2") then (fst scores, snd scores + 1)
       else (fst scores + 1, snd scores)
     else scores,
     LeyLine (if captured then if bool_decide (p = "2") then "2" else "1"
              else tag l)
             (map (claim move p) (cells l))).
Proof.
  cbn zeta. rewrite move_to_board_spec.
  assert (Hcap : captures move p l
                 = bool_decide (move ∈ cells l) && bool_decide (tag l = "n")
                   && bool_decide (Z.of_nat (length (cells l))
                        <= 2 * count p (map (claim move p) (cells l)))).
  { unfold captures. rewrite holds_half_spec, length_map.
    f_equal; [f_equal|].
    - apply eq_true_iff_eq. rewrite existsb_exists, bool_decide_eq_true.
      split.
      + intros (c & Hc & ->%String.eqb_eq). by apply list_elem_of_In.
      + intros Hin. exists move. split; [by apply list_elem_of_In|].
        apply String.eqb_refl.
    - apply eq_true_iff_eq. by rewrite String.eqb_eq, bool_decide_eq_true.
    - apply eq_true_iff_eq. by rewrite Z.leb_le, bool_decide_eq_true. }
  rewrite <- Hcap. unfold add_capture, line_after, captured_tag.
  assert (Hp : String.eqb p "2" = bool_decide (p = "2")).
  { apply eq_true_iff_eq. by rewrite String.eqb_eq, bool_decide_eq_true. }
  rewrite Hp. by destruct (captures move p l), (bool_decide (p = "2")).
Qed.

(** X5. What one call of [make_move] does to a state, whatever the label:
    the turn passes to the other player and the side length is kept; the
    score of the player who moved grows by the number of ley-lines the move
    captures, which is not negative, and the score of the other player is
    kept; the player who moved has that many more ley-lines under their
    tag; and in every ley-line the cells that hold the label are
    overwritten with the tag of the player who moved, the other cells
    being kept. *)
Theorem make_move_accounts s move :
  let s' := make_move s move in
  let gain := captured_lines move (mover s) (all_lines (cur_board s)) in
  p1_turn s' = negb (p1_turn s)
  /\ side s' = side s
  /\ 0 <= gain
  /\ p1_score s' = p1_score s + (if p1_turn s then gain else 0)
  /\ p2_score s' = p2_score s + (if p1_turn s then 0 else gain)
  /\ tagged (mover s) (all_lines (cur_board s'))
     = tagged (mover s) (all_lines (cur_board s)) + gain
  /\ map cells (all_lines (cur_board s'))
     = map (fun l => map (claim move (mover s)) (cells l))
         (all_lines (cur_board s)).
Proof.
  cbn zeta. rewrite make_move_spec.
  cbn [p1_turn side p1_score p2_score cur_board].
  rewrite all_lines_after.
  repeat split; try done.
  - apply captured_lines_nonneg.
  - rewrite tagged_after by apply mover_cases. by rewrite String.eqb_refl.
  - by rewrite map_map.
Qed.

(** ** The states of a game *)

(** X6. In every state of a game of side length [len], that is, in the
    first state of a game that [StonehengeGame.__init__] has created and in
    every state that legal moves lead to, the score of each player is the
    number of ley-lines that carry the tag of the player; the scores are
    not negative and their sum is at most [3 * (len + 1)], the number of
    ley-lines. *)
Theorem scores_count_tags len is_p1_turn g s :
  new_game len is_p1_turn = Some g -> reachable g s ->
  p1_score s = tagged "1" (all_lines (cur_board s))
  /\ p2_score s = tagged "2" (all_lines (cur_board s))
  /\ 0 <= p1_score s /\ 0 <= p2_score s
  /\ p1_score s + p2_score s <= 3 * (len + 1).
Proof.
  intros Hg Hs.
  destruct (reachable_invariants _ _ _ _ Hg Hs)
    as ((_ & H1 & H2 & Hlen & _) & _ & Hside & _).
  rewrite H1, H2, <- Hside, <- Hlen.
  repeat split; try apply tagged_nonneg. apply tagged_sum.
Qed.

Lemma scores_count_tags_witness :
  let s := make_move (current_state game_2) "A" in
  p1_score s = tagged "1" (all_lines (cur_board s))
  /\ p1_score s + p2_score s <= 3 * (2 + 1).
Proof.
  cbn zeta.
  destruct (scores_count_tags 2 true game_2
              (make_move (current_state game_2) "A"))
    as (H1 & _ & _ & _ & H5).
  - reflexivity.
  - apply reachable_move; [apply reachable_start|].
    apply (bool_decide_unpack _). vm_compute. exact I.
  - split; [exact H1|exact H5].
Defined.
Lemma reachable_2_A :
  reachable game_2 (make_move (current_state game_2) "A").
Proof.
  apply reachable_move; [apply reachable_start|].
  apply (bool_decide_unpack _). vm_compute. exact I.
Qed.

(** X7. In every state of a game, a ley-line is tagged ['n'], ['1'] or
    ['2']; it is tagged ['n'] exactly when neither player holds half of its
    cells; and a ley-line tagged with a player has at least half of its
    cells claimed by that player, also after the other player has claimed
    the rest. *)
Theorem tag_shows_owner len is_p1_turn g s l :
  new_game len is_p1_turn = Some g -> reachable g s ->
  l ∈ all_lines (cur_board s) ->
  (tag l = "n" \/ tag l = "1" \/ tag l = "2")
  /\ (tag l = "n" <->
      holds_half "1" (cells l) = false /\ holds_half "2" (cells l) = false)
  /\ (tag l = "1" -> holds_half "1" (cells l) = true)
  /\ (tag l = "2" -> holds_half "2" (cells l) = true).
Proof.
  intros Hg Hs Hl.
  destruct (reachable_invariants _ _ _ _ Hg Hs)
    as ((Hok & _) & (_ & _ & _ & _ & _ & _ & Hown & _) & _).
  rewrite Forall_forall in Hok, Hown.
  destruct (Hok l Hl) as [Htag Hn]. destruct (Hown l Hl) as [H1 H2].
  rewrite !holds_half_spec.
  split; [done|]. split; [split|split].
  - intros Ht. specialize (Hn Ht). split; apply Z.leb_gt; lia.
  - intros [Hh1%Z.leb_gt Hh2%Z.leb_gt].
    destruct Htag as [Ht | [Ht | Ht]]; [done|..].
    + specialize (H1 Ht). lia.
    + specialize (H2 Ht). lia.
  - intros Ht. apply Z.leb_le. auto.
  - intros Ht. apply Z.leb_le. auto.
Qed.

Lemma tag_shows_owner_witness :
  holds_half "1" (cells (LeyLine "1" ["1"; "B"])) = true.
Proof.
  destruct (tag_shows_owner 2 true game_2
              (make_move (current_state game_2) "A") (LeyLine "1" ["1"; "B"])
              new_game_2 reachable_2_A) as (_ & _ & H & _).
  - vm_compute. constructor.
  - apply H. reflexivity.
Defined.

(** X8. In every state of a game the three collections of the board show
    the same position: each has [len + 1] ley-lines; the unclaimed cells of
    the down-left ley-lines, and those of the down-right ley-lines, are the
    unclaimed cells of the rows in another order; no label is unclaimed
    twice; and every cell of the board holds ['1'], ['2'] or a label that
    is unclaimed in the rows. *)
Theorem views_agree len is_p1_turn g s :
  new_game len is_p1_turn = Some g -> reachable g s ->
  Z.of_nat (length (rows (cur_board s))) = len + 1
  /\ Z.of_nat (length (left (cur_board s))) = len + 1
  /\ Z.of_nat (length (right (cur_board s))) = len + 1
  /\ free_cells (left (cur_board s)) ≡ₚ free_cells (rows (cur_board s))
  /\ free_cells (right (cur_board s)) ≡ₚ free_cells (rows (cur_board s))
  /\ NoDup (free_cells (rows (cur_board s)))
  /\ (forall c, c ∈ all_cells (all_lines (cur_board s)) ->
        c = "1" \/ c = "2" \/ c ∈ free_cells (rows (cur_board s))).
Proof.
  intros Hg Hs.
  destruct (reachable_invariants _ _ _ _ Hg Hs)
    as ((_ & _ & _ & _ & Hfree & Hnd)
        & (_ & Hr & Hl & Ht & Hpl & Hpr & _) & Hside & _).
  rewrite Hside in Hr, Hl, Ht.
  repeat split; try done.
  intros c Hc. unfold all_cells in Hc.
  apply list_elem_of_In, in_concat in Hc as (cs & Hcs & Hc).
  apply in_map_iff in Hcs as (l & <- & Hl').
  rewrite Forall_forall in Hfree.
  specialize (Hfree l (proj2 (list_elem_of_In _ _) Hl')).
  rewrite Forall_forall in Hfree.
  specialize (Hfree c (proj2 (list_elem_of_In _ _) Hc)).
  destruct (unclaimed c) eqn:Hun; [auto|].
  unfold unclaimed in Hun. apply andb_false_iff in Hun.
  destruct Hun as [H1%negb_false_iff%String.eqb_eq
                  |H2%negb_false_iff%String.eqb_eq]; auto.
Qed.

Lemma views_agree_witness :
  let s := make_move (current_state game_2) "A" in
  free_cells (left (cur_board s)) ≡ₚ free_cells (rows (cur_board s))
  /\ free_cells (right (cur_board s)) ≡ₚ free_cells (rows (cur_board s)).
Proof.
  cbn zeta.
  destruct (views_agree 2 true game_2 (make_move (current_state game_2) "A")
              new_game_2 reachable_2_A) as (_ & _ & _ & H1 & H2 & _).
  split; [exact H1|exact H2].
Defined.

(** ** Sequences of moves *)

Lemma play_cons s move moves :
  play s (move :: moves) = play (make_move s move) moves.
Proof. done. Qed.

Lemma filter_all {A} (P : A -> Prop) `{!forall x, Decision (P x)} (l : list A) :
  (forall x, P x) -> filter P l = l.
Proof.
  intros HP. induction l as [|x l IH]; [done|].
  by rewrite filter_cons_True, IH.
Qed.

Lemma free_cells_make_move s move :
  free_cells (rows (cur_board (make_move s move)))
  = filter (fun c => c <> move) (free_cells (rows (cur_board s))).
Proof.
  rewrite make_move_spec. cbn [cur_board rows].
  apply free_cells_after, mover_claimed.
Qed.

Lemma free_cells_play s moves :
  free_cells (rows (cur_board (play s moves)))
  = filter (fun c => c ∉ moves) (free_cells (rows (cur_board s))).
Proof.
  revert s. induction moves as [|move moves IH]; intros s.
  - cbn [play fold_left]. symmetry. apply filter_all. intros c.
    apply not_elem_of_nil.
  - rewrite play_cons, IH, free_cells_make_move, list_filter_filter.
    apply list_filter_iff. intros c. rewrite not_elem_of_cons. tauto.
Qed.

Lemma play_side s moves : side (play s moves) = side s.
Proof.
  revert s. induction moves as [|move moves IH]; intros s; [done|].
  by rewrite play_cons, IH, make_move_side.
Qed.


Lemma legal_play_reachable g s moves :
  reachable g s -> legal_play s moves -> reachable g (play s moves).
Proof.
  revert s. induction moves as [|move moves IH]; intros s Hs Hl; [done|].
  destruct Hl as [Hm Hl]. rewrite play_cons. apply IH; [|done].
  by apply reachable_move.
Qed.

Lemma legal_play_length s moves :
  consistent s -> legal_play s moves ->
  (length moves + plies_left (play s moves) = plies_left s)%nat.
Proof.
  revert s. induction moves as [|move moves IH]; intros s Hc Hl; [done|].
  destruct Hl as [Hm Hl]. rewrite play_cons. cbn [length].
  specialize (IH (make_move s move) (consistent_make_move _ _ Hc Hm) Hl).
  assert (Hstep : S (plies_left (make_move s move)) = plies_left s).
  { unfold plies_left. rewrite free_cells_make_move.
    apply filter_ne_length; [apply Hc|by apply legal_move_free]. }
  lia.
Qed.

Lemma legal_play_nodup s moves :
  legal_play s moves -> NoDup moves.
Proof.
  revert s. induction moves as [|move moves IH]; intros s Hl.
  - constructor.
  - destruct Hl as [Hm Hl]. constructor; [|by eapply IH].
    intros Hin. apply list_elem_of_split in Hin as (l1 & l2 & ->).
    assert (Hl1 : legal_play (play (make_move s move) l1) (move :: l2)).
    { clear -Hl. revert Hl. generalize (make_move s move). intros s'.
      revert s'. induction l1 as [|x l1 IH]; intros s' Hl; [done|].
      destruct Hl as [_ Hl]. rewrite play_cons. by apply IH. }
    destruct Hl1 as [Hm' _]. apply legal_move_free in Hm'.
    rewrite <- play_cons, free_cells_play in Hm'.
    apply list_elem_of_filter in Hm' as [Hno _].
    apply Hno. apply elem_of_cons. by left.
Qed.

Lemma new_game_cells len is_p1_turn g :
  new_game len is_p1_turn = Some g ->
  Z.of_nat (plies_left (current_state g)) = (len * len + 5 * len) / 2.
Proof. intros H. by each_game H. Qed.

(** X10. In a sequence of legal moves from the first state of a game of
    side length [len], no label is played twice; the number of moves played
    and the number of unclaimed cells add up to the
    [(len * len + 5 * len) / 2] cells of the board; so that a game has at
    most that many moves, which is at most 25. *)
Theorem game_length len is_p1_turn g moves :
  new_game len is_p1_turn = Some g ->
  legal_play (current_state g) moves ->
  NoDup moves
  /\ Z.of_nat (length moves)
     + Z.of_nat (length (free_cells
                           (rows (cur_board (play (current_state g) moves)))))
     = (len * len + 5 * len) / 2
  /\ Z.of_nat (length moves) <= (len * len + 5 * len) / 2 <= 25.
Proof.
  intros Hg Hl.
  destruct (new_game_consistent _ _ _ Hg) as (Hc & _).
  pose proof (legal_play_length _ _ Hc Hl) as Hlen.
  pose proof (new_game_cells _ _ _ Hg) as Hcells.
  pose proof (new_game_side _ _ _ Hg) as Hside.
  unfold plies_left in *.
  split; [by eapply legal_play_nodup|]. split; [lia|].
  split; [lia|].
  assert (len = 1 \/ len = 2 \/ len = 3 \/ len = 4 \/ len = 5) as
    [-> | [-> | [-> | [-> | ->]]]] by lia; done.
Qed.

Lemma game_length_witness :
  Z.of_nat (length ["A"; "B"])
  + Z.of_nat (length (free_cells
       (rows (cur_board (play (current_state game_2) ["A"; "B"])))))
  = (2 * 2 + 5 * 2) / 2.
Proof.
  apply (game_length 2 true game_2 ["A"; "B"] new_game_2).
  split; [apply (bool_decide_unpack _); vm_compute; exact I|].
  split; [apply (bool_decide_unpack _); vm_compute; exact I|exact I].
Defined.
(** ** Who has won *)

Lemma get_possible_moves_cons s move :
  move ∈ get_possible_moves s -> over s = false.
Proof.
  intros Hm. destruct (over s) eqn:Hover; [|done].
  unfold over in Hover. rewrite (get_possible_moves_over _ Hover) in Hm.
  by apply elem_of_nil in Hm.
Qed.

Lemma reachable_mover_below len is_p1_turn g s :
  new_game len is_p1_turn = Some g -> reachable g s ->
  below (if p1_turn s then p1_score s else p2_score s) (side s) = true.
Proof.
  intros Hg Hs. induction Hs as [|s move Hs IH Hmove].
  - pose proof (new_game_side _ _ _ Hg) as Hside.
    destruct (new_game_fresh _ _ _ Hg) as [_ ->]. cbn.
    rewrite below_spec. destruct is_p1_turn; apply Z.ltb_lt; lia.
  - apply get_possible_moves_cons in Hmove. unfold over in Hmove.
    apply orb_false_iff in Hmove as [H1 H2].
    rewrite make_move_spec. cbn [p1_turn p1_score p2_score side].
    unfold below. destruct (p1_turn s); cbn [negb].
    + rewrite Z.add_0_r. by rewrite <- negb_true_iff in H2.
    + rewrite Z.add_0_r. by rewrite <- negb_true_iff in H1.
Qed.

(** X11. In a state of a game that is over, the player that [is_winner]
    names, who is the player that is not to move, is the one whose score
    has reached half of the ley-lines, and the score of the player to move
    is below it: [is_winner], which looks at the turn only, agrees with the
    scores. *)
Theorem winner_has_score len is_p1_turn g s :
  new_game len is_p1_turn = Some g -> reachable g s ->
  is_over g s = true ->
  is_winner (set_current_state g s) (if p1_turn s then "p2" else "p1") = true
  /\ reaches (if p1_turn s then p2_score s else p1_score s) len = true
  /\ below (if p1_turn s then p1_score s else p2_score s) len = true.
Proof.
  intros Hg Hs Hover.
  pose proof (reachable_mover_below _ _ _ _ Hg Hs) as Hbelow.
  destruct (reachable_invariants _ _ _ _ Hg Hs) as (_ & _ & Hside & Hgs).
  rewrite Hside in Hbelow.
  split; [|split; [|done]].
  - unfold is_winner. cbn [current_state set_current_state].
    rewrite is_over_set, Hover. unfold get_current_player_name.
    by destruct (p1_turn s).
  - unfold is_over in Hover. rewrite Hgs in Hover.
    unfold below in Hbelow. apply negb_true_iff in Hbelow.
    fold (reaches (if p1_turn s then p1_score s else p2_score s) len)
      in Hbelow.
    destruct (p1_turn s); rewrite Hbelow in Hover; by simpl in Hover;
      rewrite ?orb_false_r in Hover.
Qed.

Lemma reachable_1_A :
  reachable game_1 (make_move (current_state game_1) "A").
Proof.
  apply reachable_move; [apply reachable_start|].
  apply (bool_decide_unpack _). vm_compute. exact I.
Qed.

Lemma winner_has_score_witness :
  let s := make_move (current_state game_1) "A" in
  is_winner (set_current_state game_1 s) "p1" = true
  /\ reaches (p1_score s) 1 = true
  /\ below (p2_score s) 1 = true.
Proof.
  cbn zeta.
  apply (winner_has_score 1 true game_1 (make_move (current_state game_1) "A")
           new_game_1 reachable_1_A).
  reflexivity.
Defined.

(** ** No draw *)

Lemma negamax_upto_decided depth s v :
  negamax_upto depth s = Some v -> v = 1 \/ v = -1.
Proof.
  revert s v. induction depth as [|depth IH]; intros s v; [done|].
  cbn [negamax_upto]. destruct (over s) eqn:Hover.
  - intros [= <-]. right. by apply over_terminal_value.
  - destruct (map_option _ _) as [vs|] eqn:Hvs; [|done].
    intros Hmax. apply maximum_spec in Hmax as [Hin _].
    apply list_elem_of_fmap in Hin as (v' & -> & Hv').
    destruct (map_option_elem _ _ _ _ Hvs Hv') as (m & _ & Hm).
    destruct (IH _ _ Hm) as [-> | ->]; auto.
Qed.

(** X12. [max_score] never returns 0: on a state whose side length is that
    of the game, whenever it returns, it returns 1 or -1, so that the
    branches [return 0] of its terminal case are never the result. *)
Theorem never_a_draw fuel s g v g' :
  game_side g = side s ->
  max_score fuel s g = Some (v, g') -> v = 1 \/ v = -1.
Proof.
  intros Hside Hmax.
  pose proof (max_score_negamax fuel s g Hside) as H.
  rewrite Hmax in H. destruct H as [H _].
  by eapply negamax_upto_decided.
Qed.

Lemma never_a_draw_witness :
  exists v g', max_score 4 (current_state game_1) game_1 = Some (v, g')
               /\ (v = 1 \/ v = -1).
Proof.
  destruct (max_score 4 (current_state game_1) game_1) as [[v g']|] eqn:H.
  - exists v, g'. split; [reflexivity|].
    exact (never_a_draw 4 (current_state game_1) game_1 v g' eq_refl H).
  - vm_compute in H. discriminate H.
Defined.

(** ** The strategies on a game that is over *)

(** X13. On a game whose current state is over, [minimax_recursive] and
    [minimax_iterative] do not return a move, whatever the fuel: the list
    of the scores of the possible moves is empty and [max] of it raises;
    [rough_outcome_strategy] returns [None]. *)
Theorem evaluators_need_a_move g fuel :
  game_side g = side (current_state g) ->
  is_over g (current_state g) = true ->
  minimax_recursive fuel g = None
  /\ minimax_iterative fuel g = None
  /\ rough_outcome_strategy g = None.
Proof.
  intros Hside Hover.
  assert (Hm : get_possible_moves (current_state g) = []).
  { apply get_possible_moves_over. unfold is_over in Hover.
    by rewrite Hside in Hover. }
  split; [|split].
  - unfold minimax_recursive, bind, get_game. by rewrite Hm.
  - unfold minimax_iterative. destruct fuel as [|fuel]; [done|].
    cbn [process_loop Stack.add Stack.empty Stack.is_empty Stack.remove].
    cbn [lookup list_lookup value].
    cbn [current_state set_current_state]. rewrite is_over_set, Hover.
    unfold set_score. cbn [lookup list_lookup value children].
    cbn [insert list_insert].
    destruct fuel as [|fuel]; [done|].
    cbn [process_loop Stack.is_empty]. by cbn.
  - unfold rough_outcome_strategy. by rewrite Hm.
Qed.

Lemma evaluators_need_a_move_witness :
  let g := set_current_state game_1 (make_move (current_state game_1) "A") in
  minimax_recursive 5 g = None /\ minimax_iterative 5 g = None
  /\ rough_outcome_strategy g = None.
Proof.
  cbn zeta.
  apply (evaluators_need_a_move
           (set_current_state game_1 (make_move (current_state game_1) "A"))
           5); reflexivity.
Defined.
(** ** [rough_outcome] *)

Lemma over_make_move s move :
  over (make_move s move)
  = reaches (p1_score (make_move s move)) (side s)
    || reaches (p2_score (make_move s move)) (side s).
Proof. unfold over. by rewrite make_move_side. Qed.

(** The test of the [elif] of [rough_outcome]: no reply to [move] ends the
    game. *)
Lemma no_reply_wins s move :
  forallb (fun x => below (p1_score (make_move (make_move s move) x)) (side s)
                    && below (p2_score (make_move (make_move s move) x))
                         (side s))
          (get_possible_moves (make_move s move))
  = negb (existsb (fun x => over (make_move (make_move s move) x))
            (get_possible_moves (make_move s move))).
Proof.
  induction (get_possible_moves (make_move s move)) as [|x xs IH]; [done|].
  cbn [forallb existsb]. rewrite IH, negb_orb. f_equal.
  rewrite over_make_move, make_move_side, negb_orb. done.
Qed.

Lemma rough_outcome_loop_spec s moves other_win :
  rough_outcome_loop s moves other_win
  = if existsb (fun m => over (make_move s m)) moves then 1
    else if other_win
            && forallb (fun m => existsb
                          (fun x => over (make_move (make_move s m) x))
                          (get_possible_moves (make_move s m))) moves
    then -1 else 0.
Proof.
  revert other_win. induction moves as [|move moves IH]; intros other_win.
  - cbn. by destruct other_win.
  - cbn [rough_outcome_loop existsb forallb].
    rewrite <- over_make_move. destruct (over (make_move s move)); [done|].
    rewrite no_reply_wins. cbn [orb].
    destruct (existsb (fun x => over (make_move (make_move s move) x)) _);
      cbn [negb andb]; rewrite IH; [done|].
    by rewrite andb_false_r.
Qed.

Lemma rough_outcome_spec s :
  rough_outcome s
  = if existsb (fun m => over (make_move s m)) (get_possible_moves s) then 1
    else if forallb (fun m => existsb
                       (fun x => over (make_move (make_move s m) x))
                       (get_possible_moves (make_move s m)))
              (get_possible_moves s)
    then -1 else 0.
Proof.
  unfold rough_outcome. destruct (get_possible_moves s) as [|m ms] eqn:Hm.
  - done.
  - by rewrite rough_outcome_loop_spec.
Qed.

Lemma existsb_elem {A} (f : A -> bool) (l : list A) :
  existsb f l = true <-> exists x, x ∈ l /\ f x = true.
Proof.
  rewrite existsb_exists. split; intros (x & Hx & Hf); exists x;
    by rewrite ?list_elem_of_In in *.
Qed.

Lemma forallb_elem {A} (f : A -> bool) (l : list A) :
  forallb f l = true <-> forall x, x ∈ l -> f x = true.
Proof.
  rewrite forallb_forall. split; intros H x Hx; apply H;
    by rewrite ?list_elem_of_In in *.
Qed.


(** ** The guess against the value *)

Lemma negamax_over s : over s = true -> negamax s = Some (-1).
Proof.
  intros Hover. by rewrite negamax_terminal, over_terminal_value.
Qed.

Lemma negamax_decided s v : negamax s = Some v -> v = 1 \/ v = -1.
Proof. apply negamax_upto_decided. Qed.

Lemma negamax_winning_move s move :
  consistent s -> move ∈ get_possible_moves s ->
  negamax (make_move s move) = Some (-1) -> negamax s = Some 1.
Proof.
  intros Hc Hm Hchild.
  pose proof (get_possible_moves_cons _ _ Hm) as Hover.
  destruct (negamax_defined _ _ (Nat.le_refl _) Hc) as [v Hv].
  pose proof (negamax_range _ _ Hv) as Hrange.
  rewrite Hv. f_equal. rewrite negamax_step in Hv by done.
  destruct (map_option _ _) as [vs|] eqn:Hvs; [|done].
  apply maximum_spec in Hv as [_ Hmax].
  apply list_elem_of_lookup in Hm as [i Hi].
  destruct (map_option_lookup _ _ _ _ _ Hvs Hi) as (b & Hb & Hval).
  rewrite Hchild in Hval. injection Hval as <-.
  assert (Hin : 1 ∈ map (fun v => - v) vs).
  { apply list_elem_of_fmap. exists (-1). split; [done|].
    by eapply list_elem_of_lookup_2. }
  specialize (Hmax 1 Hin). lia.
Qed.

Lemma negamax_no_winning_move s :
  consistent s -> over s = false ->
  (forall move, move ∈ get_possible_moves s ->
     negamax (make_move s move) = Some 1) ->
  negamax s = Some (-1).
Proof.
  intros Hc Hover Hall.
  destruct (negamax_defined _ _ (Nat.le_refl _) Hc) as [v Hv].
  rewrite Hv. f_equal. rewrite negamax_step in Hv by done.
  destruct (map_option _ _) as [vs|] eqn:Hvs; [|done].
  apply maximum_spec in Hv as [Hin _].
  apply list_elem_of_fmap in Hin as (v' & -> & Hv').
  destruct (map_option_elem _ _ _ _ Hvs Hv') as (m & Hm & Hval).
  rewrite (Hall m Hm) in Hval. by injection Hval as <-.
Qed.

Lemma rough_outcome_win_sound s :
  consistent s -> rough_outcome s = 1 -> negamax s = Some 1.
Proof.
  intros Hc Hr. rewrite rough_outcome_spec in Hr.
  destruct (existsb _ _) eqn:Hwin.
  - apply existsb_elem in Hwin as (m & Hm & Hover).
    apply (negamax_winning_move s m Hc Hm). by apply negamax_over.
  - by destruct (forallb _ _).
Qed.

Lemma rough_outcome_lose_sound s :
  consistent s -> rough_outcome s = -1 -> negamax s = Some (-1).
Proof.
  intros Hc Hr. destruct (over s) eqn:Hover; [by apply negamax_over|].
  rewrite rough_outcome_spec in Hr.
  destruct (existsb _ _) eqn:Hwin; [done|].
  destruct (forallb _ _) eqn:Hall; [|done].
  apply negamax_no_winning_move; [done..|].
  intros m Hm. apply rough_outcome_win_sound.
  - by apply consistent_make_move.
  - rewrite forallb_elem in Hall. specialize (Hall m Hm).
    rewrite rough_outcome_spec. by rewrite Hall.
Qed.

(** X15. In every state of a game, [rough_outcome] is right when it does
    not return 0: where it returns 1 the negamax value of the state is 1,
    and where it returns -1 the negamax value is -1. *)
Theorem rough_outcome_sound len is_p1_turn g s :
  new_game len is_p1_turn = Some g -> reachable g s ->
  (rough_outcome s = 1 -> negamax s = Some 1)
  /\ (rough_outcome s = -1 -> negamax s = Some (-1)).
Proof.
  intros Hg Hs.
  destruct (reachable_consistent _ _ _ _ Hg Hs) as [Hc _].
  split; [by apply rough_outcome_win_sound|by apply rough_outcome_lose_sound].
Qed.

Lemma rough_outcome_sound_witness :
  rough_outcome (current_state game_1) = 1
  /\ negamax (current_state game_1) = Some 1.
Proof.
  split; [reflexivity|].
  apply (rough_outcome_sound 1 true game_1 (current_state game_1) new_game_1
           (reachable_start _)).
  reflexivity.
Defined.
(** ** [rough_outcome_strategy] *)

Lemma rough_outcome_range s : -1 <= rough_outcome s <= 1.
Proof.
  rewrite rough_outcome_spec.
  destruct (existsb _ _); [lia|]. destruct (forallb _ _); lia.
Qed.

Lemma rough_outcome_strategy_loop_spec s moves best_move best_outcome :
  let guess m := rough_outcome (make_move s m) * -1 in
  (rough_outcome_strategy_loop s moves best_move best_outcome = best_move
   /\ forall m, m ∈ moves -> guess m <= best_outcome)
  \/ exists i move,
       rough_outcome_strategy_loop s moves best_move best_outcome = Some move
       /\ moves !! i = Some move
       /\ best_outcome < guess move
       /\ (forall m, m ∈ moves -> guess m <= guess move)
       /\ (forall j m, (j < i)%nat -> moves !! j = Some m ->
             guess m < guess move).
Proof.
  intros guess. revert best_move best_outcome.
  induction moves as [|move moves IH]; intros best_move best_outcome.
  - left. split; [done|]. by intros m Hm%elem_of_nil.
  - cbn [rough_outcome_strategy_loop]. fold (guess move).
    destruct (best_outcome <? guess move) eqn:Hlt.
    + apply Z.ltb_lt in Hlt. right.
      destruct (IH (Some move) (guess move))
        as [[Hr Hle] | (i & m' & Hr & Hi & Hgt & Hmax & Hfirst)].
      * exists 0%nat, move. split; [done|]. split; [done|].
        split; [done|]. split.
        -- intros m [-> | Hm]%elem_of_cons; [lia|auto].
        -- intros j m Hj. lia.
      * exists (S i), m'. split; [done|]. split; [done|].
        split; [lia|]. split.
        -- intros m [-> | Hm]%elem_of_cons; [lia|auto].
        -- intros [|j] m Hj Hm.
           ++ injection Hm as <-. done.
           ++ apply (Hfirst j); [lia|done].
    + apply Z.ltb_ge in Hlt.
      destruct (IH best_move best_outcome)
        as [[Hr Hle] | (i & m' & Hr & Hi & Hgt & Hmax & Hfirst)].
      * left. split; [done|].
        intros m [-> | Hm]%elem_of_cons; [lia|auto].
      * right. exists (S i), m'. split; [done|]. split; [done|].
        split; [lia|]. split.
        -- intros m [-> | Hm]%elem_of_cons; [lia|auto].
        -- intros [|j] m Hj Hm.
           ++ injection Hm as <-. lia.
           ++ apply (Hfirst j); [lia|done].
Qed.

Lemma rough_outcome_strategy_first g :
  let s := current_state g in
  let guess m := rough_outcome (make_move s m) * -1 in
  match rough_outcome_strategy g with
  | None => get_possible_moves s = []
  | Some move =>
      exists i, get_possible_moves s !! i = Some move
        /\ (forall m, m ∈ get_possible_moves s -> guess m <= guess move)
        /\ (forall j m, (j < i)%nat -> get_possible_moves s !! j = Some m ->
              guess m < guess move)
  end.
Proof.
  cbn zeta. unfold rough_outcome_strategy.
  destruct (rough_outcome_strategy_loop_spec (current_state g)
              (get_possible_moves (current_state g)) None (-2))
    as [[Hr Hle] | (i & move & Hr & Hi & _ & Hmax & Hfirst)].
  - rewrite Hr. destruct (get_possible_moves (current_state g)) as [|m ms];
      [done|].
    specialize (Hle m (list_elem_of_here _ _)). cbn beta in Hle.
    pose proof (rough_outcome_range (make_move (current_state g) m)). lia.
  - rewrite Hr. eauto.
Qed.

(** X16. [rough_outcome_strategy] returns [None] exactly when the current
    state has no legal move; otherwise it returns a legal move whose
    guessed score, [-1] times the [rough_outcome] of the state it leads to,
    is the greatest among the legal moves, and the first such move in the
    order of [get_possible_moves]. *)
Theorem rough_outcome_strategy_spec g :
  let s := current_state g in
  let guess m := rough_outcome (make_move s m) * -1 in
  (rough_outcome_strategy g = None <-> get_possible_moves s = [])
  /\ forall move, rough_outcome_strategy g = Some move ->
       exists i, get_possible_moves s !! i = Some move
         /\ (forall m, m ∈ get_possible_moves s -> guess m <= guess move)
         /\ (forall j m, (j < i)%nat -> get_possible_moves s !! j = Some m ->
               guess m < guess move).
Proof.
  cbn zeta. pose proof (rough_outcome_strategy_first g) as H.
  cbn zeta in H. split.
  - destruct (rough_outcome_strategy g) as [move|]; [|done].
    destruct H as (i & Hi & _). split; [done|].
    intros Hnil. by rewrite Hnil in Hi.
  - intros move Hmove. by rewrite Hmove in H.
Qed.

(** X17. In a state of a game in which some legal move ends the game,
    [rough_outcome_strategy] returns a legal move that wins: the state it
    leads to has the guess -1 and the negamax value -1 for the opponent,
    and the current state has the negamax value 1. *)
Theorem rough_outcome_strategy_wins len is_p1_turn g s move :
  new_game len is_p1_turn = Some g -> reachable g s ->
  move ∈ get_possible_moves s -> over (make_move s move) = true ->
  exists best,
    rough_outcome_strategy (set_current_state g s) = Some best
    /\ best ∈ get_possible_moves s
    /\ rough_outcome (make_move s best) = -1
    /\ negamax (make_move s best) = Some (-1)
    /\ negamax s = Some 1.
Proof.
  intros Hg Hs Hmove Hover.
  destruct (reachable_consistent _ _ _ _ Hg Hs) as [Hc _].
  pose proof (rough_outcome_strategy_first (set_current_state g s)) as H.
  cbn zeta in H. cbn [current_state set_current_state] in H.
  destruct (rough_outcome_strategy (set_current_state g s)) as [best|].
  - destruct H as (i & Hi & Hmax & _).
    assert (Hbest : best ∈ get_possible_moves s)
      by by eapply list_elem_of_lookup_2.
    assert (Hguess : rough_outcome (make_move s best) = -1).
    { specialize (Hmax move Hmove).
      assert (Hlose : rough_outcome (make_move s move) = -1).
      { rewrite rough_outcome_spec.
        unfold over in Hover.
        by rewrite (get_possible_moves_over _ Hover). }
      pose proof (rough_outcome_range (make_move s best)). lia. }
    assert (Hval : negamax (make_move s best) = Some (-1)).
    { apply rough_outcome_lose_sound; [|done].
      by apply consistent_make_move. }
    exists best. split_and!; try done.
    by apply (negamax_winning_move s best).
  - rewrite H in Hmove. by apply elem_of_nil in Hmove.
Qed.

Lemma rough_outcome_strategy_wins_witness :
  exists best,
    rough_outcome_strategy (set_current_state game_1 (current_state game_1))
    = Some best
    /\ negamax (make_move (current_state game_1) best) = Some (-1).
Proof.
  destruct (rough_outcome_strategy_wins 1 true game_1 (current_state game_1)
              "A" new_game_1 (reachable_start _))
    as (best & H1 & _ & _ & H2 & _).
  - apply (bool_decide_unpack _). vm_compute. exact I.
  - reflexivity.
  - exists best. split; [exact H1|exact H2].
Defined.

(** ** Which of the best moves the evaluators return *)

Lemma index_of_first v l i :
  index_of v l = Some i ->
  l !! i = Some v /\ forall j, (j < i)%nat -> l !! j <> Some v.
Proof.
  revert i. induction l as [|x l IH]; intros i; [done|].
  cbn [index_of]. destruct (Z.eqb_spec x v) as [->|Hx].
  - intros [= <-]. split; [done|]. intros j Hj. lia.
  - destruct (index_of v l) as [i'|]; [|done]. intros [= <-].
    destruct (IH i' eq_refl) as [Hi Hfirst]. split; [done|].
    intros [|j] Hj; cbn; [congruence|]. apply Hfirst. lia.
Qed.

Lemma best_move_first scores moves move :
  length scores = length moves ->
  best_move scores moves = Some move ->
  exists i m,
    moves !! i = Some move /\ scores !! i = Some m
    /\ (forall y, y ∈ scores -> y <= m)
    /\ (forall j y, (j < i)%nat -> scores !! j = Some y -> y < m).
Proof.
  intros Hlen. unfold best_move.
  destruct (maximum scores) as [m|] eqn:Hmax; [|done].
  destruct (index_of m scores) as [i|] eqn:Hidx; [|done].
  intros Hmove. apply maximum_spec in Hmax as [_ Hmax].
  apply index_of_first in Hidx as [Hi Hfirst].
  exists i, m. split_and!; try done.
  intros j y Hj Hy.
  assert (y <= m) by (apply Hmax; by eapply list_elem_of_lookup_2).
  assert (y <> m) by (intros ->; by apply (Hfirst j)).
  lia.
Qed.
(** X18. In a game object whose state is a state of a game and is not
    over, [minimax_recursive] and [minimax_iterative] return the same move,
    once their fuel is large enough: the first move, in the order of
    [get_possible_moves], that leads to a state of negamax value -1 for the
    opponent if there is such a move, and the first legal move if every
    move leads to a state of value 1. *)
Theorem minimax_first_winning_move g :
  reachable_game g -> is_over g (current_state g) = false ->
  exists i move,
    (forall fuel, (plies_left (current_state g) <= fuel)%nat ->
       minimax_recursive fuel g = Some (move, g))
    /\ (exists k, forall fuel, (k <= fuel)%nat ->
          minimax_iterative fuel g = Some (move, g))
    /\ get_possible_moves (current_state g) !! i = Some move
    /\ (forall j m, (j < i)%nat ->
          get_possible_moves (current_state g) !! j = Some m ->
          negamax (make_move (current_state g) m) = Some 1)
    /\ (negamax (make_move (current_state g) move) = Some (-1)
        \/ i = 0%nat
           /\ forall m, m ∈ get_possible_moves (current_state g) ->
                negamax (make_move (current_state g) m) = Some 1).
Proof.
  intros Hg Hover.
  destruct (reachable_game_consistent _ Hg) as [Hcons Hside].
  rewrite is_over_over in Hover by done.
  destruct (children_values _ Hcons Hover) as (vs & Hvs & Hne).
  destruct (negamax_defined _ _ (Nat.le_refl _) Hcons) as [v0 Hv0].
  assert (Hlen : length (map (fun v => -1 * v) vs)
                 = length (get_possible_moves (current_state g))).
  { rewrite length_map. by eapply map_option_length. }
  destruct (best_move_spec (map (fun v => -1 * v) vs)
              (get_possible_moves (current_state g)))
    as (_ & move & _ & Hbest & _); [by destruct vs|done|].
  destruct (best_move_first _ _ _ Hlen Hbest)
    as (i & m & Hmove & Hm & Hmax & Hfirst).
  destruct (minimax_iterative_spec g v0 vs Hside Hover Hv0 Hvs) as [k Hk].
  rewrite lookup_map in Hm.
  destruct (map_option_lookup _ _ _ _ _ Hvs Hmove) as (v & Hv & Hval).
  rewrite Hv in Hm. injection Hm as <-.
  assert (Hvalue : forall j x, get_possible_moves (current_state g) !! j
                               = Some x ->
            exists y, negamax (make_move (current_state g) x) = Some y
                      /\ map (fun v => -1 * v) vs !! j = Some (-1 * y)
                      /\ (y = 1 \/ y = -1)).
  { intros j x Hj.
    destruct (map_option_lookup _ _ _ _ _ Hvs Hj) as (y & Hy & Hvaly).
    exists y. split; [done|]. split; [by rewrite lookup_map, Hy|].
    by eapply negamax_decided. }
  assert (Hbefore : forall j x, (j < i)%nat ->
            get_possible_moves (current_state g) !! j = Some x ->
            negamax (make_move (current_state g) x) = Some 1 /\ v = -1).
  { intros j x Hj Hx. destruct (Hvalue j x Hx) as (y & Hy & Hsc & Hyd).
    specialize (Hfirst j _ Hj Hsc).
    destruct (negamax_decided _ _ Hval) as [-> | ->];
      destruct Hyd as [-> | ->]; try lia. done. }
  exists i, move. split_and!.
  - intros fuel Hfuel.
    by rewrite (minimax_recursive_spec _ _ _ Hside Hfuel Hvs), Hbest.
  - exists k. intros fuel Hfuel. by rewrite Hk, Hbest.
  - done.
  - intros j x Hj Hx. by destruct (Hbefore j x Hj Hx).
  - destruct (negamax_decided _ _ Hval) as [-> | ->]; [right|by left].
    split.
    + destruct i as [|i]; [done|].
      destruct (get_possible_moves (current_state g)) as [|x xs] eqn:Hms;
        [done|].
      destruct (Hbefore 0%nat x) as [_ ?]; [lia|done|lia].
    + intros x [j Hj]%list_elem_of_lookup.
      destruct (Hvalue j x Hj) as (y & Hy & Hsc & Hyd).
      apply list_elem_of_lookup_2 in Hsc. specialize (Hmax _ Hsc).
      destruct Hyd as [-> | ->]; [done|lia].
Qed.

Lemma minimax_first_winning_move_witness :
  exists i move,
    minimax_recursive 7 game_2 = Some (move, game_2)
    /\ get_possible_moves (current_state game_2) !! i = Some move.
Proof.
  destruct (minimax_first_winning_move game_2 reachable_game_2 eq_refl)
    as (i & move & H1 & _ & H3 & _).
  exists i, move. split; [|exact H3].
  apply H1. vm_compute. lia.
Defined.
(** ** [str_to_move] *)

Lemma append_cons c s t : String c s +:+ t = String c (s +:+ t).
Proof. done. Qed.

Lemma append_nil s : EmptyString +:+ s = s.
Proof. done. Qed.

Lemma lstrip_blank pad s : blank pad = true -> lstrip (pad +:+ s) = lstrip s.
Proof.
  induction pad as [|c pad IH]; [done|]. cbn [blank].
  intros [Hc Hpad]%andb_true_iff. rewrite append_cons. cbn [lstrip].
  rewrite Hc. auto.
Qed.

Lemma rstrip_blank pad : blank pad = true -> rstrip pad = EmptyString.
Proof.
  induction pad as [|c pad IH]; [done|]. cbn [blank].
  intros [Hc Hpad]%andb_true_iff. cbn [rstrip]. by rewrite IH, Hc.
Qed.

Lemma lstrip_split s :
  exists pad, blank pad = true /\ s = pad +:+ lstrip s.
Proof.
  induction s as [|c s (pad & Hpad & Hs)]; [by exists EmptyString|].
  cbn [lstrip]. destruct (is_space c) eqn:Hc.
  - exists (String c pad). cbn [blank]. rewrite Hc, Hpad, append_cons.
    split; [done|]. by rewrite <- Hs.
  - by exists EmptyString.
Qed.

Lemma rstrip_split s :
  exists pad, blank pad = true /\ s = rstrip s +:+ pad.
Proof.
  induction s as [|c s (pad & Hpad & Hs)]; [by exists EmptyString|].
  cbn [rstrip]. destruct (rstrip s) as [|c' rest] eqn:Hr.
  - rewrite append_nil in Hs. subst pad.
    destruct (is_space c) eqn:Hc.
    + exists (String c s). cbn [blank]. by rewrite Hc, Hpad.
    + by exists s.
  - exists pad. split; [done|]. rewrite append_cons. by rewrite <- Hs.
Qed.

Lemma label_single c :
  is_label c = true -> unclaimed c = true ->
  exists a, c = String a EmptyString /\ is_space a = false.
Proof.
  destruct c as [|a [|b c]]; [done| |done]. intros Hl _. exists a.
  split; [done|].
  destruct a as [[] [] [] [] [] [] [] []]; try done.
Qed.

Lemma strip_label pad1 pad2 a :
  is_space a = false -> blank pad1 = true -> blank pad2 = true ->
  strip (pad1 +:+ String a EmptyString +:+ pad2) = String a EmptyString.
Proof.
  intros Ha H1 H2. unfold strip. rewrite lstrip_blank by done.
  rewrite append_cons, append_nil. cbn [lstrip]. rewrite Ha. cbn [rstrip].
  by rewrite (rstrip_blank _ H2), Ha.
Qed.

Lemma strip_split s :
  exists pad1 pad2,
    blank pad1 = true /\ blank pad2 = true /\ s = pad1 +:+ strip s +:+ pad2.
Proof.
  destruct (lstrip_split s) as (pad1 & H1 & Hs1).
  destruct (rstrip_split (lstrip s)) as (pad2 & H2 & Hs2).
  exists pad1, pad2. split; [done|]. split; [done|].
  unfold strip. congruence.
Qed.

Lemma legal_move_label len is_p1_turn g s move :
  new_game len is_p1_turn = Some g -> reachable g s ->
  move ∈ get_possible_moves s ->
  exists a, move = String a EmptyString /\ is_space a = false.
Proof.
  intros Hg Hs Hmove.
  destruct (reachable_invariants _ _ _ _ Hg Hs)
    as (_ & (_ & _ & _ & _ & _ & _ & _ & Hlab) & _).
  pose proof (legal_move_unclaimed _ _ Hmove) as Hun.
  apply legal_move_free in Hmove. unfold free_cells in Hmove.
  apply list_elem_of_In, in_concat in Hmove as (cs & Hcs & Hc).
  apply in_map_iff in Hcs as (l & <- & Hl).
  apply list_elem_of_In, list_elem_of_filter in Hc as [_ Hc].
  apply label_single; [|done].
  rewrite Forall_forall in Hlab.
  assert (Hl' : l ∈ all_lines (cur_board s)).
  { unfold all_lines. apply elem_of_app. left. by apply list_elem_of_In. }
  specialize (Hlab l Hl'). rewrite Forall_forall in Hlab. auto.
Qed.

(** X19. In a state of a game, [str_to_move] reads a legal move from the
    input exactly when the input is the label of the move with white space
    before and after it, possibly none: the labels that
    [get_possible_moves] returns can be typed back. *)
Theorem str_to_move_reads_moves len is_p1_turn g s input move :
  new_game len is_p1_turn = Some g -> reachable g s ->
  move ∈ get_possible_moves s ->
  str_to_move input = move <->
  exists pad1 pad2,
    blank pad1 = true /\ blank pad2 = true
    /\ input = pad1 +:+ move +:+ pad2.
Proof.
  intros Hg Hs Hmove.
  destruct (legal_move_label _ _ _ _ _ Hg Hs Hmove) as (a & -> & Ha).
  unfold str_to_move. split.
  - intros <-. apply strip_split.
  - intros (pad1 & pad2 & H1 & H2 & ->). by apply strip_label.
Qed.

Lemma str_to_move_reads_moves_witness :
  str_to_move (" A" +:+ newline) = "A".
Proof.
  apply (str_to_move_reads_moves 1 true game_1 (current_state game_1)
           (" A" +:+ newline) "A" new_game_1 (reachable_start _)).
  - apply (bool_decide_unpack _). vm_compute. exact I.
  - exists " ", newline. split; [reflexivity|]. split; reflexivity.
Defined.
(** ** [__str__] and [__repr__] *)

Lemma lookup_key_is_Some {A} (k : Z) (d : list A) :
  0 <= k < Z.of_nat (length d) -> is_Some (lookup_key k d).
Proof.
  intros Hk. unfold lookup_key.
  destruct (Z.ltb_spec k 0); [lia|]. apply lookup_lt_is_Some. lia.
Qed.

Lemma add_rows_returns b len idxs result :
  Z.of_nat (length (rows b)) = len + 1 ->
  Z.of_nat (length (left b)) = len + 1 ->
  Forall (fun i => Z.of_nat i < len) idxs ->
  is_Some (add_rows b len idxs result).
Proof.
  intros Hr Hl Hidx. revert result.
  induction Hidx as [|i idxs Hi Hidx IH]; intros result; [done|].
  cbn [add_rows].
  destruct (lookup_key_is_Some (Z.of_nat i) (rows b)) as [r ->]; [lia|].
  destruct (Z.leb_spec (Z.of_nat i + 2) len); [|apply IH].
  destruct (lookup_key_is_Some (Z.of_nat i + 2) (left b)) as [l ->]; [lia|].
  apply IH.
Qed.

Lemma add_right_returns b n index result :
  Z.of_nat n <= index < Z.of_nat (length (right b)) ->
  is_Some (add_right b n index result).
Proof.
  revert index result. induction n as [|n IH]; intros index result Hn;
    [done|].
  cbn [add_right].
  destruct (lookup_key_is_Some index (right b)) as [l ->]; [lia|].
  apply IH. lia.
Qed.

Lemma str_returns s : shaped s -> is_Some (__str__ s).
Proof.
  intros (Hside & Hr & Hl & Ht & _). unfold __str__.
  destruct (lookup_key_is_Some 0 (left (cur_board s))) as [l0 ->]; [lia|].
  destruct (lookup_key_is_Some 1 (left (cur_board s))) as [l1 ->]; [lia|].
  match goal with
  | |- context [add_rows ?b ?len ?idxs ?res] =>
      destruct (add_rows_returns b len idxs res) as [result ->]
  end; [done|done| |].
  { apply Forall_forall. intros i Hi%elem_of_seq. lia. }
  destruct (lookup_key_is_Some (side s) (rows (cur_board s))) as [r ->];
    [lia|].
  destruct (lookup_key_is_Some 0 (right (cur_board s))) as [t ->]; [lia|].
  apply add_right_returns. lia.
Qed.

(** X20. [__str__] and [__repr__] return a string in every state of a
    game: none of the subscripts [self.cur_board['rows'][i]],
    [self.cur_board['left'][i]] and [self.cur_board['right'][index]] that
    they evaluate raises [KeyError]. *)
Theorem str_and_repr_return len is_p1_turn g s :
  new_game len is_p1_turn = Some g -> reachable g s ->
  is_Some (__str__ s) /\ is_Some (__repr__ s).
Proof.
  intros Hg Hs.
  destruct (reachable_invariants _ _ _ _ Hg Hs) as (_ & Hshaped & _).
  destruct (str_returns s Hshaped) as [image Himage].
  split; [by exists image|]. unfold __repr__. rewrite Himage. eauto.
Qed.

Lemma str_and_repr_return_witness :
  is_Some (__str__ (make_move (current_state game_2) "A"))
  /\ is_Some (__repr__ (make_move (current_state game_2) "A")).
Proof.
  exact (str_and_repr_return 2 true game_2
           (make_move (current_state game_2) "A") new_game_2 reachable_2_A).
Defined.
(** ** A sequence of moves on the store *)

Lemma holds_state_later (h h' : heap) o sh s :
  holds_state h o sh s ->
  (forall l, (l < length h)%nat -> h' !! l = h !! l) ->
  holds_state h' o sh s.
Proof.
  intros (Hcur & Hboard & Hrest) Hsame. split; [done|]. split; [|done].
  apply (holds_board_frame h); [done|].
  intros l Hl. apply Hsame. by eapply holds_board_bound.
Qed.

Lemma play_store_spec (h : heap) o sh s moves :
  holds_state h o sh s ->
  exists h' o' sh',
    play_store h o moves = Some (h', o')
    /\ holds_state h' o' sh' (play s moves)
    /\ (length h <= length h')%nat
    /\ (forall l, (l < length h)%nat -> h' !! l = h !! l).
Proof.
  revert h o sh s. induction moves as [|move moves IH]; intros h o sh s Hs.
  - exists h, o, sh. by split_and!.
  - destruct (make_move_store_spec h o sh s move Hs)
      as (h1 & o1 & sh1 & Hrun & Hs1 & Hsame1 & _).
    destruct (IH h1 o1 sh1 _ Hs1) as (h' & o' & sh' & Hplay & Hs' & Hlen & Hsame).
    assert (Hlen1 : (length h <= length h1)%nat).
    { destruct (decide (length h <= length h1)%nat); [done|].
      assert (Hl : (length h1 < length h)%nat) by lia.
      specialize (Hsame1 _ Hl).
      rewrite (lookup_ge_None_2 h1) in Hsame1 by lia.
      symmetry in Hsame1. apply lookup_ge_None_1 in Hsame1. lia. }
    exists h', o', sh'. cbn [play_store]. rewrite Hrun, play_cons.
    split_and!; [done|done|lia|].
    intros l Hl. rewrite Hsame by lia. by apply Hsame1.
Qed.

(** X21. [make_move] called again and again, each time on the state that
    the last call returned, returns every time; the last state object
    stands for the state after all the moves; and the state object the
    sequence started from still stands for the first state, no object that
    existed before having been written. *)
Theorem play_store_keeps_states (h : heap) o sh s moves :
  holds_state h o sh s ->
  exists h' o' sh',
    play_store h o moves = Some (h', o')
    /\ holds_state h' o' sh' (play s moves)
    /\ holds_state h' o sh s
    /\ (forall l, (l < length h)%nat -> h' !! l = h !! l).
Proof.
  intros Hs.
  destruct (play_store_spec h o sh s moves Hs)
    as (h' & o' & sh' & Hplay & Hs' & _ & Hsame).
  exists h', o', sh'. split_and!; try done.
  by apply (holds_state_later h).
Qed.

Lemma play_store_keeps_states_witness :
  exists h' o' sh',
    play_store heap_1 state_object_1 ["A"; "B"] = Some (h', o')
    /\ holds_state h' o' sh' (play (current_state game_1) ["A"; "B"])
    /\ holds_state h' state_object_1 shape_1 (current_state game_1).
Proof.
  destruct (play_store_keeps_states heap_1 state_object_1 shape_1
              (current_state game_1) ["A"; "B"] holds_state_1)
    as (h' & o' & sh' & H1 & H2 & H3 & _).
  exists h', o', sh'. split; [exact H1|]. split; [exact H2|exact H3].
Defined.

(** The doctests of [__str__] and of [val_ley_line]. *)
Example doctest_str_picture :
  __str__ doctest_str
  = Some "                    @       @

        2       A       2       @

    @       C       D       E       @

@       F       G       H       I

    @       J       K       L       @

                @       @       @".
Proof. reflexivity. Qed.

Example doctest_val_ley_line :
  val_ley_line (LeyLine "1" ["1"; "G"]) = "1"
  /\ val_ley_line (LeyLine "n" ["A"; "D"; "G"]) = "@".
Proof. done. Qed.
(** ** What the picture of a state shows *)

Lemma ink_app a b : ink (a +:+ b) = ink a ++ ink b.
Proof.
  induction a as [|c a IH]; [done|].
  rewrite append_cons. cbn [ink]. destruct (is_space c); [done|].
  by rewrite IH.
Qed.

Lemma ink_blank s : blank s = true -> ink s = [].
Proof.
  induction s as [|c s IH]; [done|]. cbn [blank ink].
  intros [-> Hs]%andb_true_iff. auto.
Qed.

Lemma blank_app a b : blank (a +:+ b) = blank a && blank b.
Proof.
  induction a as [|c a IH]; [done|].
  rewrite append_cons. cbn [blank]. by rewrite IH, andb_assoc.
Qed.

Lemma blank_times n s : blank s = true -> blank (times n s) = true.
Proof.
  intros Hs. unfold times. induction (Z.to_nat n) as [|k IH]; [done|].
  cbn [repeat_string]. by rewrite blank_app, Hs, IH.
Qed.

Lemma ink_times n : ink (times n space4) = [].
Proof. by apply ink_blank, blank_times. Qed.

Lemma add_cells_ink result cs :
  ink (add_cells result cs) = ink result ++ concat (map ink cs).
Proof.
  revert result. induction cs as [|c cs IH]; intros result.
  - cbn. by rewrite app_nil_r.
  - cbn [add_cells map concat]. rewrite IH, !ink_app.
    change (ink space7) with (@nil Ascii.ascii). by rewrite <- app_assoc.
Qed.

Lemma add_rows_ink b len idxs result res :
  add_rows b len idxs result = Some res ->
  ink res = ink result ++ concat (map (row_ink b len) idxs).
Proof.
  revert result. induction idxs as [|i idxs IH]; intros result.
  - intros [= <-]. cbn. by rewrite app_nil_r.
  - cbn [add_rows map concat]. unfold row_ink at 1, line_at.
    destruct (lookup_key (Z.of_nat i) (rows b)) as [r|]; [|done].
    cbn [default].
    destruct (Z.of_nat i + 2 <=? len).
    + destruct (lookup_key (Z.of_nat i + 2) (left b)) as [l|]; [|done].
      cbn [default]. intros Hrec. rewrite (IH _ Hrec).
      rewrite !ink_app, add_cells_ink, !ink_app, ink_times.
      change (ink space7) with (@nil Ascii.ascii).
      change (ink newline) with (@nil Ascii.ascii).
      unfold line_ink, cells_ink. cbn [app].
      by rewrite !app_nil_r, <- !app_assoc.
    + intros Hrec. rewrite (IH _ Hrec).
      rewrite !ink_app, add_cells_ink, !ink_app, ink_times.
      change (ink newline) with (@nil Ascii.ascii).
      unfold line_ink, cells_ink. cbn [app].
      by rewrite !app_nil_r, <- !app_assoc.
Qed.

Lemma add_right_ink b n index result res :
  add_right b n index result = Some res ->
  ink res = ink result ++ right_ink b n index.
Proof.
  revert index result. induction n as [|n IH]; intros index result.
  - intros [= <-]. cbn. by rewrite app_nil_r.
  - cbn [add_right right_ink]. unfold line_at.
    destruct (lookup_key index (right b)) as [l|]; [|done].
    cbn [default]. intros Hrec. rewrite (IH _ _ Hrec), !ink_app.
    change (ink space7) with (@nil Ascii.ascii).
    unfold line_ink. cbn [app]. by rewrite <- app_assoc.
Qed.

Lemma str_ink s image :
  __str__ s = Some image -> ink image = picture_ink s.
Proof.
  unfold __str__, picture_ink, line_at.
  destruct (lookup_key 0 (left (cur_board s))) as [l0|]; [|done].
  destruct (lookup_key 1 (left (cur_board s))) as [l1|]; [|done].
  destruct (add_rows _ _ _ _) as [result|] eqn:Hrows; [|done].
  destruct (lookup_key (side s) (rows (cur_board s))) as [r|]; [|done].
  destruct (lookup_key 0 (right (cur_board s))) as [t|]; [|done].
  cbn [default]. intros Hright.
  rewrite (add_right_ink _ _ _ _ _ Hright).
  rewrite !ink_app, add_cells_ink, !ink_app.
  rewrite (add_rows_ink _ _ _ _ _ Hrows), !ink_app, !ink_times.
  change (ink space7) with (@nil Ascii.ascii).
  change (ink space4) with (@nil Ascii.ascii).
  change (ink newline) with (@nil Ascii.ascii).
  change (ink " ") with (@nil Ascii.ascii).
  unfold line_ink, cells_ink. cbn [app].
  by rewrite ?app_nil_r, <- !app_assoc.
Qed.
(** What is written is one character for a ley-line and one for a cell. *)

Lemma line_ink_tag l l' :
  line_ok l -> line_ok l' ->
  length (line_ink l) = 1%nat
  /\ (line_ink l = line_ink l' -> tag l = tag l').
Proof.
  intros [Ht _] [Ht' _]. unfold line_ink, val_ley_line.
  destruct Ht as [-> | [-> | ->]]; (split; [done|]);
    destruct Ht' as [-> | [-> | ->]]; done.
Qed.

Lemma label_ink c :
  is_label c = true ->
  exists a, c = String a EmptyString /\ ink c = [a].
Proof.
  destruct c as [|a [|b c]]; [done| |done]. intros Hl. exists a.
  split; [done|].
  destruct a as [[] [] [] [] [] [] [] []]; try done.
Qed.

Lemma cells_ink_length cs :
  Forall (fun c => is_label c = true) cs ->
  length (concat (map ink cs)) = length cs.
Proof.
  induction 1 as [|c cs Hc _ IH]; [done|].
  destruct (label_ink c Hc) as (a & _ & Ha).
  cbn [map concat]. rewrite Ha. cbn. by rewrite IH.
Qed.

Lemma cells_ink_inj cs cs' :
  Forall (fun c => is_label c = true) cs ->
  Forall (fun c => is_label c = true) cs' ->
  concat (map ink cs) = concat (map ink cs') -> cs = cs'.
Proof.
  intros Hcs. revert cs'. induction Hcs as [|c cs Hc _ IH]; intros cs' Hcs'.
  - destruct Hcs' as [|c' cs' Hc' _]; [done|].
    destruct (label_ink c' Hc') as (a' & _ & Ha').
    cbn [map concat]. by rewrite Ha'.
  - destruct (label_ink c Hc) as (a & -> & Ha).
    destruct Hcs' as [|c' cs' Hc' Hcs'].
    + cbn [map concat]. by rewrite Ha.
    + destruct (label_ink c' Hc') as (a' & -> & Ha').
      cbn [map concat]. rewrite Ha, Ha'. cbn [app].
      intros [= -> Hrest]. f_equal. by apply IH.
Qed.

Lemma concat_map_split {A} (f f' : nat -> list A) idxs rest rest' :
  (forall i, i ∈ idxs -> length (f i) = length (f' i)) ->
  concat (map f idxs) ++ rest = concat (map f' idxs) ++ rest' ->
  (forall i, i ∈ idxs -> f i = f' i) /\ rest = rest'.
Proof.
  induction idxs as [|i idxs IH]; intros Hlen.
  - cbn. intros ->. split; [|done]. by intros i Hi%elem_of_nil.
  - cbn [map concat]. rewrite <- !app_assoc.
    intros [Hi Hrest]%app_inj_1; [|apply Hlen, list_elem_of_here].
    destruct IH as [Hall ->]; [|done|].
    + intros j Hj. apply Hlen. by apply list_elem_of_further.
    + split; [|done]. intros j [-> | Hj]%elem_of_cons; auto.
Qed.

Lemma lines_eq (ls ls' : list ley_line) :
  map tag ls = map tag ls' -> map cells ls = map cells ls' -> ls = ls'.
Proof.
  revert ls'. induction ls as [|[t cs] ls IH]; intros [|[t' cs'] ls'];
    try done.
  cbn. intros [= -> Ht] [= -> Hc]. f_equal. by apply IH.
Qed.

Lemma line_at_elem k (ls : list ley_line) :
  0 <= k < Z.of_nat (length ls) -> line_at k ls ∈ ls.
Proof.
  intros Hk. unfold line_at.
  destruct (lookup_key_is_Some k ls Hk) as [l Hl]. rewrite Hl. cbn.
  unfold lookup_key in Hl. destruct (k <? 0); [done|].
  by eapply list_elem_of_lookup_2.
Qed.

Lemma line_at_lookup (i : nat) (ls : list ley_line) l :
  ls !! i = Some l -> line_at (Z.of_nat i) ls = l.
Proof.
  intros Hl. unfold line_at, lookup_key.
  destruct (Z.ltb_spec (Z.of_nat i) 0); [lia|].
  by rewrite Nat2Z.id, Hl.
Qed.

(** Two collections of the same size agree when their ley-lines agree at
    every key. *)
Lemma lines_at_eq {B} (f : ley_line -> B) (ls ls' : list ley_line) :
  length ls = length ls' ->
  (forall k, 0 <= k < Z.of_nat (length ls) ->
     f (line_at k ls) = f (line_at k ls')) ->
  map f ls = map f ls'.
Proof.
  intros Hlen Hall. apply list_eq. intros i.
  rewrite !lookup_map.
  destruct (ls !! i) as [l|] eqn:Hl.
  - assert (Hi : (i < length ls)%nat) by by eapply lookup_lt_Some.
    destruct (lookup_lt_is_Some_2 ls' i) as [l' Hl']; [lia|].
    rewrite Hl'. cbn. f_equal.
    rewrite <- (line_at_lookup _ _ _ Hl), <- (line_at_lookup _ _ _ Hl').
    apply Hall. lia.
  - apply lookup_ge_None_1 in Hl.
    rewrite (lookup_ge_None_2 ls') by lia. done.
Qed.
Lemma lines_at_map {B} (f : ley_line -> B) (ls ls' : list ley_line) k :
  map f ls = map f ls' -> 0 <= k < Z.of_nat (length ls) ->
  f (line_at k ls) = f (line_at k ls').
Proof.
  intros Hmap Hk.
  assert (Hlen : length ls = length ls').
  { by rewrite <- (length_map f ls), Hmap, length_map. }
  destruct (lookup_lt_is_Some_2 ls (Z.to_nat k)) as [l Hl]; [lia|].
  destruct (lookup_lt_is_Some_2 ls' (Z.to_nat k)) as [l' Hl']; [lia|].
  pose proof (f_equal (fun x => x !! Z.to_nat k) Hmap) as Hf.
  cbn beta in Hf. rewrite !lookup_map, Hl, Hl' in Hf.
  injection Hf as Hf.
  rewrite <- (Z2Nat.id k) by lia.
  by rewrite (line_at_lookup _ _ _ Hl), (line_at_lookup _ _ _ Hl').
Qed.

(** A state whose ley-lines and cells are written with one character
    each. *)
Lemma state_lines s :
  consistent s -> shaped s ->
  (forall k, 0 <= k <= side s ->
     line_ok (line_at k (rows (cur_board s)))
     /\ Forall (fun c => is_label c = true)
          (cells (line_at k (rows (cur_board s))))
     /\ line_ok (line_at k (left (cur_board s)))
     /\ line_ok (line_at k (right (cur_board s)))).
Proof.
  intros (Hok & _) (_ & Hr & Hl & Ht & _ & _ & _ & Hlab) k Hk.
  rewrite Forall_forall in Hok, Hlab.
  assert (H1 : line_at k (rows (cur_board s)) ∈ all_lines (cur_board s)).
  { unfold all_lines. apply elem_of_app. left. apply line_at_elem. lia. }
  assert (H2 : line_at k (left (cur_board s)) ∈ all_lines (cur_board s)).
  { unfold all_lines. apply elem_of_app. right. apply elem_of_app. left.
    apply line_at_elem. lia. }
  assert (H3 : line_at k (right (cur_board s)) ∈ all_lines (cur_board s)).
  { unfold all_lines. apply elem_of_app. right. apply elem_of_app. right.
    apply line_at_elem. lia. }
  auto.
Qed.

Lemma right_ink_inj b b' n index :
  (forall k, index - Z.of_nat n < k <= index ->
     line_ok (line_at k (right b)) /\ line_ok (line_at k (right b'))) ->
  right_ink b n index = right_ink b' n index ->
  forall k, index - Z.of_nat n < k <= index ->
    tag (line_at k (right b)) = tag (line_at k (right b')).
Proof.
  revert index. induction n as [|n IH]; intros index Hok; [intros _ k; lia|].
  cbn [right_ink]. destruct (Hok index) as [H1 H2]; [lia|].
  destruct (line_ink_tag _ _ H1 H2) as [Hlen1 Htag].
  destruct (line_ink_tag _ _ H2 H1) as [Hlen2 _].
  intros [Hhead Hrest]%app_inj_1; [|congruence].
  intros k Hk. destruct (decide (k = index)) as [->|Hne]; [auto|].
  apply (IH (index - 1)); [|done|lia].
  intros j Hj. apply Hok. lia.
Qed.

Lemma picture_ink_inj s s' :
  consistent s -> shaped s -> consistent s' -> shaped s' ->
  side s = side s' ->
  map (fun l => length (cells l)) (rows (cur_board s))
  = map (fun l => length (cells l)) (rows (cur_board s')) ->
  picture_ink s = picture_ink s' ->
  rows (cur_board s) = rows (cur_board s')
  /\ map tag (left (cur_board s)) = map tag (left (cur_board s'))
  /\ map tag (right (cur_board s)) = map tag (right (cur_board s')).
Proof.
  intros Hc Hsh Hc' Hsh' Hside Hshape.
  pose proof (state_lines s Hc Hsh) as Hs.
  pose proof (state_lines s' Hc' Hsh') as Hs'.
  destruct Hsh as (Hpos & Hr & Hl & Ht & _).
  destruct Hsh' as (_ & Hr' & Hl' & Ht' & _).
  rewrite <- Hside in Hs', Hr', Hl', Ht'.
  unfold picture_ink. cbn zeta. rewrite <- Hside.
  set (len := side s) in *. set (b := cur_board s) in *.
  set (b' := cur_board s') in *.
  assert (Hcells : forall k, 0 <= k <= len ->
            length (cells (line_at k (rows b)))
            = length (cells (line_at k (rows b')))).
  { intros k Hk.
    apply (lines_at_map (fun l => length (cells l)) _ _ k Hshape). lia. }
  assert (Hone : forall k, 0 <= k <= len ->
            length (line_ink (line_at k (rows b))) = 1%nat
            /\ length (line_ink (line_at k (rows b'))) = 1%nat
            /\ length (line_ink (line_at k (left b))) = 1%nat
            /\ length (line_ink (line_at k (left b'))) = 1%nat
            /\ length (line_ink (line_at k (right b))) = 1%nat
            /\ length (line_ink (line_at k (right b'))) = 1%nat
            /\ length (cells_ink (line_at k (rows b)))
               = length (cells (line_at k (rows b)))
            /\ length (cells_ink (line_at k (rows b')))
               = length (cells (line_at k (rows b')))).
  { intros k Hk.
    destruct (Hs k Hk) as (H1 & H2 & H3 & H4).
    destruct (Hs' k Hk) as (H1' & H2' & H3' & H4').
    split_and!; try (by eapply line_ink_tag);
      by apply cells_ink_length. }
  assert (Hrow : forall i, i ∈ seq 0 (Z.to_nat len) ->
            length (row_ink b len i) = length (row_ink b' len i)).
  { intros i Hi%elem_of_seq. unfold row_ink. rewrite !length_app.
    destruct (Hone (Z.of_nat i)) as (-> & -> & _ & _ & _ & _ & -> & ->);
      [lia|].
    rewrite Hcells by lia.
    destruct (Z.leb_spec (Z.of_nat i + 2) len); [|done].
    by destruct (Hone (Z.of_nat i + 2)) as (_ & _ & -> & -> & _); [lia|]. }
  intros Hink.
  apply app_inj_1 in Hink as [H0 Hink];
    [|by destruct (Hone 0) as (_ & _ & -> & -> & _); [lia|]].
  apply app_inj_1 in Hink as [H1 Hink];
    [|by destruct (Hone 1) as (_ & _ & -> & -> & _); [lia|]].
  apply concat_map_split in Hink as [Hrows Hink]; [|done].
  apply app_inj_1 in Hink as [Hlast Hink];
    [|by destruct (Hone len) as (-> & -> & _); [lia|]].
  apply app_inj_1 in Hink as [Hlast_cells Hink];
    [|destruct (Hone len) as (_ & _ & _ & _ & _ & _ & -> & ->); [lia|];
      apply Hcells; lia].
  apply app_inj_1 in Hink as [Hr0 Hright];
    [|by destruct (Hone 0) as (_ & _ & _ & _ & -> & -> & _); [lia|]].
  (* the rows *)
  assert (Hrows_eq : forall k, 0 <= k <= len ->
            tag (line_at k (rows b)) = tag (line_at k (rows b'))
            /\ cells (line_at k (rows b)) = cells (line_at k (rows b'))).
  { intros k Hk. destruct (Hs k Hk) as (Hok1 & Hlab1 & _).
    destruct (Hs' k Hk) as (Hok1' & Hlab1' & _).
    destruct (decide (k = len)) as [->|Hne].
    - split; [by apply (line_ink_tag _ _ Hok1 Hok1')|].
      by apply cells_ink_inj.
    - specialize (Hrows (Z.to_nat k)). unfold row_ink in Hrows.
      rewrite Z2Nat.id in Hrows by lia.
      specialize (Hrows ltac:(apply elem_of_seq; lia)).
      apply app_inj_1 in Hrows as [Htag Hrows];
        [|by destruct (Hone k) as (-> & -> & _)].
      apply app_inj_1 in Hrows as [Hcs _];
        [|destruct (Hone k) as (_ & _ & _ & _ & _ & _ & -> & ->); [lia|];
          by apply Hcells].
      split; [by apply (line_ink_tag _ _ Hok1 Hok1')|].
      by apply cells_ink_inj. }
  assert (Hleft_eq : forall k, 0 <= k <= len ->
            tag (line_at k (left b)) = tag (line_at k (left b'))).
  { intros k Hk. destruct (Hs k Hk) as (_ & _ & Hok2 & _).
    destruct (Hs' k Hk) as (_ & _ & Hok2' & _).
    apply (line_ink_tag _ _ Hok2 Hok2').
    destruct (decide (k = 0)) as [->|Hk0]; [done|].
    destruct (decide (k = 1)) as [->|Hk1]; [done|].
    specialize (Hrows (Z.to_nat (k - 2))). unfold row_ink in Hrows.
    rewrite Z2Nat.id in Hrows by lia.
    specialize (Hrows ltac:(apply elem_of_seq; lia)).
    apply app_inj_1 in Hrows as [_ Hrows];
      [|by destruct (Hone (k - 2)) as (-> & -> & _); [lia|]].
    apply app_inj_1 in Hrows as [_ Hrows];
      [|destruct (Hone (k - 2)) as (_ & _ & _ & _ & _ & _ & -> & ->); [lia|];
        apply Hcells; lia].
    destruct (Z.leb_spec (k - 2 + 2) len); [|lia].
    by replace (k - 2 + 2) with k in Hrows by lia. }
  assert (Hright_eq : forall k, 0 <= k <= len ->
            tag (line_at k (right b)) = tag (line_at k (right b'))).
  { intros k Hk. destruct (decide (k = 0)) as [->|Hk0].
    - destruct (Hs 0) as (_ & _ & _ & Hok3); [lia|].
      destruct (Hs' 0) as (_ & _ & _ & Hok3'); [lia|].
      by apply (line_ink_tag _ _ Hok3 Hok3').
    - apply (right_ink_inj b b' (Z.to_nat len) len); [|done|lia].
      intros j Hj. destruct (Hs j) as (_ & _ & _ & Hok3); [lia|].
      by destruct (Hs' j) as (_ & _ & _ & Hok3'); [lia|]. }
  split_and!.
  - apply lines_eq; apply lines_at_eq; try lia;
      intros k Hk; apply Hrows_eq; lia.
  - apply lines_at_eq; [lia|]. intros k Hk. apply Hleft_eq. lia.
  - apply lines_at_eq; [lia|]. intros k Hk. apply Hright_eq. lia.
Qed.
(** The cells of a state against those of its game. *)

Lemma new_game_linked len is_p1_turn g :
  new_game len is_p1_turn = Some g -> linked g (current_state g).
Proof.
  intros Hg. destruct (new_game_fresh _ _ _ Hg) as [_ ->].
  exists (fun c => c). cbn [cur_board rows left right].
  split_and!; apply map_ext; intros l; by rewrite map_id.
Qed.

Lemma linked_make_move g s move :
  linked g s -> linked g (make_move s move).
Proof.
  intros (written & Hr & Hl & Ht).
  exists (fun c => claim move (mover s) (written c)).
  rewrite make_move_spec. cbn [cur_board rows left right].
  assert (Hstep : forall ls ls0,
            map cells ls = map (fun l => map written (cells l)) ls0 ->
            map cells (map (line_after move (mover s)) ls)
            = map (fun l => map (fun c => claim move (mover s) (written c))
                              (cells l)) ls0).
  { intros ls ls0 H. rewrite map_map.
    transitivity (map (map (claim move (mover s))) (map cells ls)).
    - by rewrite map_map.
    - rewrite H, map_map. apply map_ext. intros l. by rewrite map_map. }
  split_and!; by apply Hstep.
Qed.

Lemma reachable_linked g s : linked g (current_state g) ->
  reachable g s -> linked g s.
Proof.
  intros Hg Hs. induction Hs; [done|]. by apply linked_make_move.
Qed.

Lemma new_game_labels len is_p1_turn g :
  new_game len is_p1_turn = Some g ->
  all_cells (down_left g) ⊆ all_cells (game_rows g)
  /\ all_cells (down_right g) ⊆ all_cells (game_rows g).
Proof.
  intros H.
  assert (Hp : all_cells (down_left g) ≡ₚ all_cells (game_rows g)
               /\ all_cells (down_right g) ≡ₚ all_cells (game_rows g)).
  { each_game H; split; by apply (bool_decide_unpack _); vm_compute. }
  destruct Hp as [Hl Hr]. split; intros c Hc.
  - by rewrite <- Hl.
  - by rewrite <- Hr.
Qed.

Lemma written_agree (f f' : string -> string) (ls : list ley_line) :
  map (fun l => map f (cells l)) ls = map (fun l => map f' (cells l)) ls ->
  forall c, c ∈ all_cells ls -> f c = f' c.
Proof.
  induction ls as [|l ls IH]; [by intros _ c Hc%elem_of_nil|].
  cbn [map]. intros [= Hl Hls] c Hc.
  unfold all_cells in Hc. cbn [map concat] in Hc.
  apply elem_of_app in Hc as [Hc | Hc]; [|by apply IH].
  clear -Hl Hc. induction (cells l) as [|x xs IHx];
    [by apply elem_of_nil in Hc|].
  cbn [map] in Hl. injection Hl as Hx Hxs.
  apply elem_of_cons in Hc as [-> | Hc]; auto.
Qed.

Lemma written_cells (f f' : string -> string) (ls : list ley_line) :
  (forall c, c ∈ all_cells ls -> f c = f' c) ->
  map (fun l => map f (cells l)) ls = map (fun l => map f' (cells l)) ls.
Proof.
  intros H. apply map_ext_in. intros l Hl. apply map_ext_in. intros c Hc.
  apply H. unfold all_cells. apply list_elem_of_In, in_concat.
  exists (cells l). split; [|done]. apply in_map_iff. eauto.
Qed.

Lemma linked_shape g s s' :
  linked g s -> linked g s' ->
  map (fun l => length (cells l)) (rows (cur_board s))
  = map (fun l => length (cells l)) (rows (cur_board s')).
Proof.
  intros (f & Hr & _) (f' & Hr' & _).
  transitivity (map length (map cells (rows (cur_board s))));
    [by rewrite map_map|].
  transitivity (map length (map cells (rows (cur_board s'))));
    [|by rewrite map_map].
  rewrite Hr, Hr', !map_map. apply map_ext. intros l.
  by rewrite !length_map.
Qed.

Lemma string_app_inv_head a x y : a +:+ x = a +:+ y -> x = y.
Proof.
  induction a as [|c a IH]; [done|].
  rewrite !append_cons. intros [= H]. auto.
Qed.

Lemma repr_inj s s' image image' :
  __str__ s = Some image -> __str__ s' = Some image' ->
  __repr__ s = __repr__ s' -> p1_turn s = p1_turn s' /\ image = image'.
Proof.
  intros Hi Hi'. unfold __repr__. rewrite Hi, Hi'.
  intros [= H%string_app_inv_head].
  destruct (p1_turn s), (p1_turn s'); try done.
  - apply (string_app_inv_head "True") in H.
    by repeat apply string_app_inv_head in H.
  - apply (string_app_inv_head "False") in H.
    by repeat apply string_app_inv_head in H.
Qed.
(** X22. [__repr__] can be used for equality testing, as its docstring
    says: two states of the same game have the same representation exactly
    when they are the same state, with the same turn, board, scores and
    side length. *)
Theorem repr_tells_states_apart len is_p1_turn g s s' :
  new_game len is_p1_turn = Some g -> reachable g s -> reachable g s' ->
  __repr__ s = __repr__ s' <-> s = s'.
Proof.
  intros Hg Hs Hs'. split; [|by intros ->].
  destruct (reachable_invariants _ _ _ _ Hg Hs) as (Hc & Hsh & Hside & _).
  destruct (reachable_invariants _ _ _ _ Hg Hs') as (Hc' & Hsh' & Hside' & _).
  pose proof (reachable_linked g s (new_game_linked _ _ _ Hg) Hs) as Hlk.
  pose proof (reachable_linked g s' (new_game_linked _ _ _ Hg) Hs') as Hlk'.
  destruct (str_returns s Hsh) as [image Himage].
  destruct (str_returns s' Hsh') as [image' Himage'].
  intros Hrepr.
  destruct (repr_inj _ _ _ _ Himage Himage' Hrepr) as [Hturn <-].
  apply str_ink in Himage, Himage'.
  destruct (picture_ink_inj s s' Hc Hsh Hc' Hsh') as (Hrows & Hleft & Hright).
  { congruence. }
  { by apply (linked_shape g). }
  { congruence. }
  destruct Hlk as (f & Hr & Hl & Ht). destruct Hlk' as (f' & Hr' & Hl' & Ht').
  destruct (new_game_labels _ _ _ Hg) as [Hsubl Hsubr].
  assert (Hagree : forall c, c ∈ all_cells (game_rows g) -> f c = f' c).
  { apply written_agree. by rewrite <- Hr, <- Hr', Hrows. }
  assert (Hleft' : left (cur_board s) = left (cur_board s')).
  { apply lines_eq; [done|]. rewrite Hl, Hl'. apply written_cells.
    intros c Hc0. apply Hagree. by apply Hsubl. }
  assert (Hright' : right (cur_board s) = right (cur_board s')).
  { apply lines_eq; [done|]. rewrite Ht, Ht'. apply written_cells.
    intros c Hc0. apply Hagree. by apply Hsubr. }
  destruct Hc as (_ & Hp1 & Hp2 & _). destruct Hc' as (_ & Hp1' & Hp2' & _).
  destruct s as [t [rs ls ts] p1 p2 n], s' as [t' [rs' ls' ts'] p1' p2' n'].
  cbn in *. unfold all_lines in *. cbn in *. congruence.
Qed.

Lemma reachable_2_B :
  reachable game_2 (make_move (current_state game_2) "B").
Proof.
  apply reachable_move; [apply reachable_start|].
  apply (bool_decide_unpack _). vm_compute. exact I.
Qed.

Lemma repr_tells_states_apart_witness :
  __repr__ (make_move (current_state game_2) "A")
  = __repr__ (make_move (current_state game_2) "B")
  <-> make_move (current_state game_2) "A"
      = make_move (current_state game_2) "B".
Proof.
  exact (repr_tells_states_apart 2 true game_2
           (make_move (current_state game_2) "A")
           (make_move (current_state game_2) "B")
           new_game_2 reachable_2_A reachable_2_B).
Defined.
